(** * GANDALF: smoothing lengths, ghost particles and boundaries

    A shallow embedding of the routines of the repository that the
    specification's testable properties talk about:

    - [Simulation::CheckBoundaries], [Simulation::SearchGhostParticles],
      [Simulation::CreateGhostParticle], [Simulation::CopySphDataToGhosts]
      (SimGhostParticles.cpp);
    - [MfvRungeKutta::ComputeH], [MfvRungeKutta::CopyDataToGhosts],
      [MfvRungeKutta::ComputeGodunovFlux] (MfvRungeKutta.cpp);
    - the per-cell loop of [GradhSphTree::UpdateAllSphProperties]
      (GradhSphTree.cpp).

    Conventions.  [FLOAT] is modelled by the exact rationals [Q]: every
    comparison and every branch of the source is kept, rounding is not
    modelled, and there is no infinity and no NaN (in [Q] a division by zero
    gives 0), so a statement that would depend on them carries the
    hypothesis that excludes them, or is stated so that it holds of the
    rounded run as well.  [int] counters and array indices are [nat]; the
    [int]s that can be negative (the sentinel [-1] of [sinkid] and [Nneib],
    the return codes, the difference [Nghostmax]) and the buffer size that
    is doubled ([Nneibmax]) are [Z], and where the code computes a new size
    the range of [int] is checked.  Arrays are lists read with [!!] and
    written with [<[ _ := _ ]>]; an access outside the array is undefined
    behaviour in C++ and is reported as [OutOfBounds]. *)

From Stdlib Require Import QArith Qabs ZArith Lqa Lia String.
From stdpp Require Import base list.

Open Scope Q_scope.

(** ** Numbers and small vectors *)

Abbreviation FLOAT := Q (only parsing).

Definition Qltb (x y : Q) : bool := negb (Qle_bool y x).
Definition Qgtb (x y : Q) : bool := Qltb y x.
Definition Qleb (x y : Q) : bool := Qle_bool x y.

Abbreviation vec := (list Q) (only parsing).

(** [a[k]] and [a[k] = x] on a [FLOAT a[n]]. *)
Definition vget (a : vec) (k : nat) : Q := default 0 (a !! k).
Definition vset (k : nat) (x : Q) (a : vec) : vec := <[k:=x]> a.

(** The [for (i=0; i<n; i++)] loop over a state. *)
Definition for_range {S : Type} (n : nat) (body : nat -> S -> S) (s : S) : S :=
  fold_left (fun acc i => body i acc) (seq 0 n) s.

(** InlineFuncs.h, [DotProduct]: the three cases are written out; for any
    other [ndim] the C++ function falls off its end, 0 stands for that. *)
Definition DotProduct (v1 v2 : vec) (ndim : nat) : Q :=
  if (ndim =? 1)%nat then vget v1 0 * vget v2 0
  else if (ndim =? 2)%nat then vget v1 0 * vget v2 0 + vget v1 1 * vget v2 1
  else if (ndim =? 3)%nat then
    vget v1 0 * vget v2 0 + vget v1 1 * vget v2 1 + vget v1 2 * vget v2 2
  else 0.

(** ** Outcomes *)

(** A routine returns ([Ok]), raises through [ExceptionHandler::raise]
    ([Raise]), stops on a failed [assert] ([AssertFail]), or reads or writes
    outside an array, which is undefined behaviour in C++ ([OutOfBounds],
    with the index).  [BadAlloc] is the exception of a [new T[n]] that the
    run time refuses (a negative [n], or no memory left), and [IntOverflow]
    an [int] expression whose value leaves the range of [int], undefined
    behaviour as well.  [OutOfFuel] is the model's own: a [while] loop was
    cut before it ended. *)
Inductive result (A : Type) : Type :=
| Ok (a : A)
| Raise (message : string)
| AssertFail
| OutOfBounds (index : nat)
| BadAlloc
| IntOverflow
| OutOfFuel.
Arguments Ok {A} a.
Arguments Raise {A} message.
Arguments AssertFail {A}.
Arguments OutOfBounds {A} index.
Arguments BadAlloc {A}.
Arguments IntOverflow {A}.
Arguments OutOfFuel {A}.

#[global] Instance result_ret : MRet result := fun A a => Ok a.
#[global] Instance result_bind : MBind result := fun A B f x =>
  match x with
  | Ok a => f a
  | Raise msg => Raise msg
  | AssertFail => AssertFail
  | OutOfBounds i => OutOfBounds i
  | BadAlloc => BadAlloc
  | IntOverflow => IntOverflow
  | OutOfFuel => OutOfFuel
  end.

Definition assert (b : bool) : result unit := if b then Ok tt else AssertFail.

(** [a[i]] read and [a[i] = x] written on an array of structures. *)
Definition read {A : Type} (a : list A) (i : nat) : result A :=
  match a !! i with
  | Some x => Ok x
  | None => OutOfBounds i
  end.

Definition write {A : Type} (a : list A) (i : nat) (x : A) : result (list A) :=
  if (i <? length a)%nat then Ok (<[i:=x]> a) else OutOfBounds i.

(** The [for] loop whose body can fail. *)
Fixpoint for_rangeM_from {S : Type} (start n : nat) (body : nat -> S -> result S)
    (s : S) : result S :=
  match n with
  | O => Ok s
  | Datatypes.S n' => s' ← body start s; for_rangeM_from (Datatypes.S start) n' body s'
  end.

Definition for_rangeM {S : Type} (n : nat) (body : nat -> S -> result S) (s : S)
  : result S := for_rangeM_from 0 n body s.

(** ** Particles *)

(** Modelled from the spec: the enumeration of particle kinds (Particle.h) is
    not among the sources.  The twelve ghost kinds are the ones
    [CopyDataToGhosts] tests and [dead] is the one [ComputeH] asserts
    against; [gas] stands for the kinds of real particles. *)
Inductive parttype : Type :=
| gas | dead
| x_lhs_periodic | x_rhs_periodic | x_lhs_mirror | x_rhs_mirror
| y_lhs_periodic | y_rhs_periodic | y_lhs_mirror | y_rhs_mirror
| z_lhs_periodic | z_rhs_periodic | z_lhs_mirror | z_rhs_mirror.

Definition parttype_eqb (a b : parttype) : bool :=
  match a, b with
  | gas, gas | dead, dead
  | x_lhs_periodic, x_lhs_periodic | x_rhs_periodic, x_rhs_periodic
  | x_lhs_mirror, x_lhs_mirror | x_rhs_mirror, x_rhs_mirror
  | y_lhs_periodic, y_lhs_periodic | y_rhs_periodic, y_rhs_periodic
  | y_lhs_mirror, y_lhs_mirror | y_rhs_mirror, y_rhs_mirror
  | z_lhs_periodic, z_lhs_periodic | z_rhs_periodic, z_rhs_periodic
  | z_lhs_mirror, z_lhs_mirror | z_rhs_mirror, z_rhs_mirror => true
  | _, _ => false
  end.

(** Modelled from the spec: the particle structures (SphParticle.h,
    Particle.h) are not among the sources.  The record has the members the
    routines below read or write, under the names the code uses. *)
Module Particle.

Record t : Type := mk {
  r : vec;
  v : vec;
  m : FLOAT;
  h : FLOAT;
  iorig : nat;
  itype : parttype;
  ptype : nat;
  active : bool;
  sinkid : Z;
  gpot : FLOAT;
  potmin : bool;
  ndens : FLOAT;
  invomega : FLOAT;
  zeta : FLOAT;
  invh : FLOAT;
  hfactor : FLOAT;
  volume : FLOAT;
  rho : FLOAT;
  invrho : FLOAT;
  hrangesqd : FLOAT;
  div_v : FLOAT;
  B : list vec;
  Wprim : vec;
  dQdt : vec
}.

Definition set_r (x : vec) (p : t) : t :=
  mk x (v p) (m p) (h p) (iorig p) (itype p) (ptype p) (active p) (sinkid p) (gpot p)
      (potmin p) (ndens p) (invomega p) (zeta p) (invh p) (hfactor p) (volume p) (rho p)
      (invrho p) (hrangesqd p) (div_v p) (B p) (Wprim p) (dQdt p).

Definition set_v (x : vec) (p : t) : t :=
  mk (r p) x (m p) (h p) (iorig p) (itype p) (ptype p) (active p) (sinkid p) (gpot p)
      (potmin p) (ndens p) (invomega p) (zeta p) (invh p) (hfactor p) (volume p) (rho p)
      (invrho p) (hrangesqd p) (div_v p) (B p) (Wprim p) (dQdt p).

Definition set_h (x : FLOAT) (p : t) : t :=
  mk (r p) (v p) (m p) x (iorig p) (itype p) (ptype p) (active p) (sinkid p) (gpot p)
      (potmin p) (ndens p) (invomega p) (zeta p) (invh p) (hfactor p) (volume p) (rho p)
      (invrho p) (hrangesqd p) (div_v p) (B p) (Wprim p) (dQdt p).

Definition set_iorig (x : nat) (p : t) : t :=
  mk (r p) (v p) (m p) (h p) x (itype p) (ptype p) (active p) (sinkid p) (gpot p)
      (potmin p) (ndens p) (invomega p) (zeta p) (invh p) (hfactor p) (volume p) (rho p)
      (invrho p) (hrangesqd p) (div_v p) (B p) (Wprim p) (dQdt p).

Definition set_itype (x : parttype) (p : t) : t :=
  mk (r p) (v p) (m p) (h p) (iorig p) x (ptype p) (active p) (sinkid p) (gpot p)
      (potmin p) (ndens p) (invomega p) (zeta p) (invh p) (hfactor p) (volume p) (rho p)
      (invrho p) (hrangesqd p) (div_v p) (B p) (Wprim p) (dQdt p).

Definition set_active (x : bool) (p : t) : t :=
  mk (r p) (v p) (m p) (h p) (iorig p) (itype p) (ptype p) x (sinkid p) (gpot p)
      (potmin p) (ndens p) (invomega p) (zeta p) (invh p) (hfactor p) (volume p) (rho p)
      (invrho p) (hrangesqd p) (div_v p) (B p) (Wprim p) (dQdt p).

Definition set_potmin (x : bool) (p : t) : t :=
  mk (r p) (v p) (m p) (h p) (iorig p) (itype p) (ptype p) (active p) (sinkid p) (gpot p)
      x (ndens p) (invomega p) (zeta p) (invh p) (hfactor p) (volume p) (rho p) (invrho p)
      (hrangesqd p) (div_v p) (B p) (Wprim p) (dQdt p).

Definition set_ndens (x : FLOAT) (p : t) : t :=
  mk (r p) (v p) (m p) (h p) (iorig p) (itype p) (ptype p) (active p) (sinkid p) (gpot p)
      (potmin p) x (invomega p) (zeta p) (invh p) (hfactor p) (volume p) (rho p)
      (invrho p) (hrangesqd p) (div_v p) (B p) (Wprim p) (dQdt p).

Definition set_invomega (x : FLOAT) (p : t) : t :=
  mk (r p) (v p) (m p) (h p) (iorig p) (itype p) (ptype p) (active p) (sinkid p) (gpot p)
      (potmin p) (ndens p) x (zeta p) (invh p) (hfactor p) (volume p) (rho p) (invrho p)
      (hrangesqd p) (div_v p) (B p) (Wprim p) (dQdt p).

Definition set_zeta (x : FLOAT) (p : t) : t :=
  mk (r p) (v p) (m p) (h p) (iorig p) (itype p) (ptype p) (active p) (sinkid p) (gpot p)
      (potmin p) (ndens p) (invomega p) x (invh p) (hfactor p) (volume p) (rho p)
      (invrho p) (hrangesqd p) (div_v p) (B p) (Wprim p) (dQdt p).

Definition set_invh (x : FLOAT) (p : t) : t :=
  mk (r p) (v p) (m p) (h p) (iorig p) (itype p) (ptype p) (active p) (sinkid p) (gpot p)
      (potmin p) (ndens p) (invomega p) (zeta p) x (hfactor p) (volume p) (rho p)
      (invrho p) (hrangesqd p) (div_v p) (B p) (Wprim p) (dQdt p).

Definition set_hfactor (x : FLOAT) (p : t) : t :=
  mk (r p) (v p) (m p) (h p) (iorig p) (itype p) (ptype p) (active p) (sinkid p) (gpot p)
      (potmin p) (ndens p) (invomega p) (zeta p) (invh p) x (volume p) (rho p) (invrho p)
      (hrangesqd p) (div_v p) (B p) (Wprim p) (dQdt p).

Definition set_volume (x : FLOAT) (p : t) : t :=
  mk (r p) (v p) (m p) (h p) (iorig p) (itype p) (ptype p) (active p) (sinkid p) (gpot p)
      (potmin p) (ndens p) (invomega p) (zeta p) (invh p) (hfactor p) x (rho p) (invrho p)
      (hrangesqd p) (div_v p) (B p) (Wprim p) (dQdt p).

Definition set_rho (x : FLOAT) (p : t) : t :=
  mk (r p) (v p) (m p) (h p) (iorig p) (itype p) (ptype p) (active p) (sinkid p) (gpot p)
      (potmin p) (ndens p) (invomega p) (zeta p) (invh p) (hfactor p) (volume p) x
      (invrho p) (hrangesqd p) (div_v p) (B p) (Wprim p) (dQdt p).

Definition set_invrho (x : FLOAT) (p : t) : t :=
  mk (r p) (v p) (m p) (h p) (iorig p) (itype p) (ptype p) (active p) (sinkid p) (gpot p)
      (potmin p) (ndens p) (invomega p) (zeta p) (invh p) (hfactor p) (volume p) (rho p) x
      (hrangesqd p) (div_v p) (B p) (Wprim p) (dQdt p).

Definition set_hrangesqd (x : FLOAT) (p : t) : t :=
  mk (r p) (v p) (m p) (h p) (iorig p) (itype p) (ptype p) (active p) (sinkid p) (gpot p)
      (potmin p) (ndens p) (invomega p) (zeta p) (invh p) (hfactor p) (volume p) (rho p)
      (invrho p) x (div_v p) (B p) (Wprim p) (dQdt p).

Definition set_div_v (x : FLOAT) (p : t) : t :=
  mk (r p) (v p) (m p) (h p) (iorig p) (itype p) (ptype p) (active p) (sinkid p) (gpot p)
      (potmin p) (ndens p) (invomega p) (zeta p) (invh p) (hfactor p) (volume p) (rho p)
      (invrho p) (hrangesqd p) x (B p) (Wprim p) (dQdt p).

Definition set_dQdt (x : vec) (p : t) : t :=
  mk (r p) (v p) (m p) (h p) (iorig p) (itype p) (ptype p) (active p) (sinkid p) (gpot p)
      (potmin p) (ndens p) (invomega p) (zeta p) (invh p) (hfactor p) (volume p) (rho p)
      (invrho p) (hrangesqd p) (div_v p) (B p) (Wprim p) x.

(** [part.r[k] = x] and [part.v[k] = x]. *)
Definition set_r_k (k : nat) (x : FLOAT) (p : t) : t := set_r (vset k x (r p)) p.
Definition set_v_k (k : nat) (x : FLOAT) (p : t) : t := set_v (vset k x (v p)) p.

(** The members that are neither position, velocity nor ghost bookkeeping
    ([iorig], [itype], [active]): the non-spatial state. *)
Definition nonspatial (p : t) :=
  (m p, h p, ptype p, sinkid p, gpot p, potmin p,
   (ndens p, invomega p, zeta p, invh p, hfactor p, volume p),
   (rho p, invrho p, hrangesqd p, div_v p, B p, Wprim p, dQdt p)).

End Particle.

(** ** The simulation box (SphSimulation.h, [DomainBox]) *)

Record DomainBox : Type := {
  x_boundary_lhs : string;
  x_boundary_rhs : string;
  y_boundary_lhs : string;
  y_boundary_rhs : string;
  z_boundary_lhs : string;
  z_boundary_rhs : string;
  boxmin : vec;
  boxmax : vec;
  boxsize : vec;
  boxhalf : vec
}.

(** The face strings of dimension [d], for statements that range over the
    dimensions. *)
Definition boundary_lhs (box : DomainBox) (d : nat) : string :=
  match d with
  | O => x_boundary_lhs box
  | 1%nat => y_boundary_lhs box
  | _ => z_boundary_lhs box
  end.

Definition boundary_rhs (box : DomainBox) (d : nat) : string :=
  match d with
  | O => x_boundary_rhs box
  | 1%nat => y_boundary_rhs box
  | _ => z_boundary_rhs box
  end.

(** ** The SPH object of [Simulation] (the members the ghost code uses) *)

Record Sph : Type := {
  Nsph : nat;
  Nghost : nat;
  Nghostmax : Z;
  Ntot : nat;
  Nsphmax : nat;
  kernrange : FLOAT;
  kernfac : FLOAT;
  sphdata : list Particle.t
}.

Definition set_sphdata (data : list Particle.t) (sph : Sph) : Sph :=
  {| Nsph := Nsph sph; Nghost := Nghost sph; Nghostmax := Nghostmax sph;
     Ntot := Ntot sph; Nsphmax := Nsphmax sph; kernrange := kernrange sph;
     kernfac := kernfac sph; sphdata := data |}.

Definition set_Nghost (n : nat) (sph : Sph) : Sph :=
  {| Nsph := Nsph sph; Nghost := n; Nghostmax := Nghostmax sph;
     Ntot := Ntot sph; Nsphmax := Nsphmax sph; kernrange := kernrange sph;
     kernfac := kernfac sph; sphdata := sphdata sph |}.

Definition set_Nghostmax (n : Z) (sph : Sph) : Sph :=
  {| Nsph := Nsph sph; Nghost := Nghost sph; Nghostmax := n;
     Ntot := Ntot sph; Nsphmax := Nsphmax sph; kernrange := kernrange sph;
     kernfac := kernfac sph; sphdata := sphdata sph |}.

Definition set_Ntot (n : nat) (sph : Sph) : Sph :=
  {| Nsph := Nsph sph; Nghost := Nghost sph; Nghostmax := Nghostmax sph;
     Ntot := n; Nsphmax := Nsphmax sph; kernrange := kernrange sph;
     kernfac := kernfac sph; sphdata := sphdata sph |}.

(** ** [Simulation::CheckBoundaries] *)

Module Simulation.

(** The two tests of one dimension [k]:
    [if (part->r[k] < boxmin[k]) if (lhs == "periodic") part->r[k] += boxsize[k];]
    [if (part->r[k] > boxmax[k]) if (rhs == "periodic") part->r[k] -= boxsize[k];]
    The second test reads the position the first one left. *)
Definition CheckBoundaries_dim (simbox : DomainBox) (k : nat) (lhs rhs : string)
    (part : Particle.t) : Particle.t :=
  let part :=
    if Qltb (vget (Particle.r part) k) (vget (boxmin simbox) k) then
      if String.eqb lhs "periodic"
      then Particle.set_r_k k (vget (Particle.r part) k + vget (boxsize simbox) k) part
      else part
    else part in
  if Qgtb (vget (Particle.r part) k) (vget (boxmax simbox) k) then
    if String.eqb rhs "periodic"
    then Particle.set_r_k k (vget (Particle.r part) k - vget (boxsize simbox) k) part
    else part
  else part.

(** The body of the loop, for one particle: x always, y when [ndim >= 2],
    z when [ndim == 3]. *)
Definition CheckBoundaries_part (ndim : nat) (simbox : DomainBox)
    (part : Particle.t) : Particle.t :=
  let part :=
    CheckBoundaries_dim simbox 0 (x_boundary_lhs simbox) (x_boundary_rhs simbox) part in
  let part :=
    if (2 <=? ndim)%nat
    then CheckBoundaries_dim simbox 1 (y_boundary_lhs simbox) (y_boundary_rhs simbox) part
    else part in
  if (ndim =? 3)%nat
  then CheckBoundaries_dim simbox 2 (z_boundary_lhs simbox) (z_boundary_rhs simbox) part
  else part.

(** [for (i=0; i<sph->Nsph; i++) { part = &sph->sphdata[i]; ... }] *)
Definition CheckBoundaries (ndim : nat) (simbox : DomainBox) (sph : Sph) : Sph :=
  set_sphdata
    (for_range (Nsph sph)
       (fun i data => alter (CheckBoundaries_part ndim simbox) i data)
       (sphdata sph))
    sph.

(** SimGhostParticles.cpp: [static const FLOAT ghost_range = 1.1;] *)
Definition ghost_range : FLOAT := 11 # 10.

(** [Simulation::CreateGhostParticle(i, k, rk, vk, bdist)].  The slot written
    is [sphdata[Nsph + Nghost]]; the guard before it is the source's
    [Nghost > Nghostmax]. *)
Definition CreateGhostParticle (i k : nat) (rk vk bdist : FLOAT) (sph : Sph)
  : result Sph :=
  _ ← (if (Z.of_nat (Nghost sph) >? Nghostmax sph)%Z
       then Raise "Not enough memory for new ghost" else Ok tt);
  let slot := (Nsph sph + Nghost sph)%nat in
  parent ← read (sphdata sph) i;
  data ← write (sphdata sph) slot parent;
  ghost ← read data slot;
  let ghost := Particle.set_r_k k rk ghost in
  let ghost := Particle.set_v_k k vk ghost in
  let ghost := Particle.set_active false ghost in
  ghost ← (if (Nsph sph <=? i)%nat
           then (pi ← read (<[slot:=ghost]> data) i;
                 Ok (Particle.set_iorig (Particle.iorig pi) ghost))
           else Ok (Particle.set_iorig i ghost));
  Ok (set_Nghost (Nghost sph + 1) (set_sphdata (<[slot:=ghost]> data) sph)).

(** The body of one of the three ghost loops of [SearchGhostParticles], for
    particle [i] and dimension [k]; [sphdata[i]] is read again at every use,
    as the source does. *)
Definition SearchGhost_part (simbox : DomainBox) (k : nat) (lhs rhs : string)
    (kernrange : FLOAT) (i : nat) (sph : Sph) : result Sph :=
  p ← read (sphdata sph) i;
  sph ←
    (if Qltb (vget (Particle.r p) k)
             (vget (boxmin simbox) k + ghost_range * kernrange * Particle.h p)
     then
       sph ← (if String.eqb lhs "periodic"
              then p ← read (sphdata sph) i;
                   CreateGhostParticle i k
                     (vget (Particle.r p) k + vget (boxsize simbox) k)
                     (vget (Particle.v p) k)
                     (vget (Particle.r p) k - vget (boxmin simbox) k) sph
              else Ok sph);
       (if String.eqb lhs "mirror"
        then p ← read (sphdata sph) i;
             CreateGhostParticle i k
               (2 * vget (boxmin simbox) k - vget (Particle.r p) k)
               (- vget (Particle.v p) k)
               (vget (Particle.r p) k - vget (boxmin simbox) k) sph
        else Ok sph)
     else Ok sph);
  p ← read (sphdata sph) i;
  if Qgtb (vget (Particle.r p) k)
          (vget (boxmax simbox) k - ghost_range * kernrange * Particle.h p)
  then
    sph ← (if String.eqb rhs "periodic"
           then p ← read (sphdata sph) i;
                CreateGhostParticle i k
                  (vget (Particle.r p) k - vget (boxsize simbox) k)
                  (vget (Particle.v p) k)
                  (vget (boxmax simbox) k - vget (Particle.r p) k) sph
           else Ok sph);
    (if String.eqb rhs "mirror"
     then p ← read (sphdata sph) i;
          CreateGhostParticle i k
            (2 * vget (boxmax simbox) k - vget (Particle.r p) k)
            (- vget (Particle.v p) k)
            (vget (boxmax simbox) k - vget (Particle.r p) k) sph
     else Ok sph)
  else Ok sph.

(** One dimension: skipped when both faces are open; the loop bound is the
    [Ntot] of before the loop, and [Ntot] is raised after it. *)
Definition SearchGhost_dim (simbox : DomainBox) (k : nat) (lhs rhs : string)
    (kernrange : FLOAT) (sph : Sph) : result Sph :=
  if negb (String.eqb lhs "open" && String.eqb rhs "open") then
    sph ← for_rangeM (Ntot sph) (SearchGhost_part simbox k lhs rhs kernrange) sph;
    Ok (set_Ntot (Nsph sph + Nghost sph) sph)
  else Ok sph.

(** [Simulation::SearchGhostParticles]. *)
Definition SearchGhostParticles (ndim : nat) (simbox : DomainBox) (sph : Sph)
  : result Sph :=
  let kernrange := kernrange sph * kernfac sph in
  let sph := set_Nghost 0 sph in
  let sph := set_Nghostmax (Z.of_nat (Nsphmax sph) - Z.of_nat (Nsph sph))%Z sph in
  let sph := set_Ntot (Nsph sph) sph in
  if String.eqb (x_boundary_lhs simbox) "open" && String.eqb (x_boundary_rhs simbox) "open"
     && String.eqb (y_boundary_lhs simbox) "open" && String.eqb (y_boundary_rhs simbox) "open"
     && String.eqb (z_boundary_lhs simbox) "open" && String.eqb (z_boundary_rhs simbox) "open"
  then Ok sph
  else
    sph ← SearchGhost_dim simbox 0 (x_boundary_lhs simbox) (x_boundary_rhs simbox)
            kernrange sph;
    sph ← (if (2 <=? ndim)%nat
           then SearchGhost_dim simbox 1 (y_boundary_lhs simbox) (y_boundary_rhs simbox)
                  kernrange sph
           else Ok sph);
    sph ← (if (ndim =? 3)%nat
           then SearchGhost_dim simbox 2 (z_boundary_lhs simbox) (z_boundary_rhs simbox)
                  kernrange sph
           else Ok sph);
    if (Nsphmax sph <? Ntot sph)%nat
    then Raise "Not enough memory for ghost particles"
    else Ok sph.

(** [for (k=0; k<ndim; k++) dst[k] = src[k];] *)
Definition vcopy (ndim : nat) (src dst : vec) : vec :=
  for_range ndim (fun k a => vset k (vget src k) a) dst.

(** The body of the loop of [CopySphDataToGhosts] for ghost [j]. *)
Definition CopySphDataToGhosts_ghost (ndim : nat) (Nsph : nat) (j : nat)
    (data : list Particle.t) : result (list Particle.t) :=
  let i := (Nsph + j)%nat in
  ghost ← read data i;
  let iorig := Particle.iorig ghost in
  let rp := vcopy ndim (Particle.r ghost) (replicate ndim 0) in
  let vp := vcopy ndim (Particle.v ghost) (replicate ndim 0) in
  parent ← read data iorig;
  let ghost := parent in
  let ghost := Particle.set_iorig iorig ghost in
  let ghost := Particle.set_active false ghost in
  let ghost := Particle.set_r (vcopy ndim rp (Particle.r ghost)) ghost in
  let ghost := Particle.set_v (vcopy ndim vp (Particle.v ghost)) ghost in
  write data i ghost.

(** [Simulation::CopySphDataToGhosts].  The source runs the iterations in
    parallel; each writes its own ghost slot, so the order does not matter
    as long as no ghost names another ghost as its original. *)
Definition CopySphDataToGhosts (ndim : nat) (sph : Sph) : result Sph :=
  data ← for_rangeM (Nghost sph) (CopySphDataToGhosts_ghost ndim (Nsph sph))
           (sphdata sph);
  Ok (set_sphdata data sph).

End Simulation.

(** ** [MfvRungeKutta] (MfvRungeKutta.cpp) *)

(** The smoothing kernel is a collaborator (SmoothingKernel.h is not among the
    sources): its range and its functions of [(r/h)^2] are taken as given. *)
Record SmoothingKernel : Type := {
  kernrangesqd : FLOAT;
  w0_s2 : FLOAT -> FLOAT;
  womega_s2 : FLOAT -> FLOAT;
  wzeta_s2 : FLOAT -> FLOAT
}.

(** The members of the class that the routines read.  [pow_invndim x] is
    [pow(x, invndim)], the [ndim]-th root, and [sqrt] the square root: both
    are libm's and not rational, so they are members here.  [small_number] is
    the constant of Constants.h.  The equation of state, the slope limiter
    and the Riemann solver are the collaborators of the specification. *)
Record MfvRungeKutta : Type := {
  ndim : nat;
  nvar : nat;
  irho : nat;
  ipress : nat;
  Nhydro : nat;
  NPeriodicGhost : nat;
  h_fac : FLOAT;
  h_converge : FLOAT;
  hmin_sink : FLOAT;
  kernfacsqd : FLOAT;
  small_number : FLOAT;
  create_sinks : Z;
  kern : SmoothingKernel;
  pow_invndim : FLOAT -> FLOAT;
  sqrt : FLOAT -> FLOAT;
  ComputeThermalProperties : Particle.t -> Particle.t;
  UpdatePrimitiveVector : Particle.t -> Particle.t;
  ComputeLimitedSlopes : Particle.t -> Particle.t -> vec -> list vec * vec;
  ComputeFluxes : vec -> vec -> vec -> vec -> list vec
}.

Module Mfv.

(** [MeshlessFV<ndim>::invndim], the number [1/ndim]. *)
Definition invndim (this : MfvRungeKutta) : FLOAT := 1 / inject_Z (Z.of_nat (ndim this)).

(** [pow(x, n)] for the integer exponents the code uses. *)
Definition pow (x : FLOAT) (n : nat) : FLOAT := x ^ Z.of_nat n.

(** [std::max]. *)
Definition max (a b : FLOAT) : FLOAT := if Qltb a b then b else a.

(** The local variables of [ComputeH] that live across iterations, with the
    particle the routine works on. *)
Record HState : Type := {
  part : Particle.t;
  iteration : nat;
  h_lower_bound : FLOAT;
  h_upper_bound : FLOAT;
  invhsqd : FLOAT
}.

(** The three sums over the neighbours:
    [ndens += w0_s2(ssqd); invomega += invh*womega_s2(ssqd); zeta += m[j]*wzeta_s2(ssqd);] *)
Definition ComputeH_sums (this : MfvRungeKutta) (Nneib : nat) (m drsqd : vec)
    (invhsqd : FLOAT) (p : Particle.t) : Particle.t :=
  for_range Nneib
    (fun j p =>
       let ssqd := vget drsqd j * invhsqd in
       let p := Particle.set_ndens (Particle.ndens p + w0_s2 (kern this) ssqd) p in
       let p := Particle.set_invomega
                  (Particle.invomega p + Particle.invh p * womega_s2 (kern this) ssqd) p in
       Particle.set_zeta (Particle.zeta p + vget m j * wzeta_s2 (kern this) ssqd) p)
    p.

(** "Initialise all variables for this value of h". *)
Definition ComputeH_init (this : MfvRungeKutta) (p : Particle.t) : Particle.t :=
  let p := Particle.set_ndens 0 p in
  let p := Particle.set_invomega 0 p in
  let p := Particle.set_zeta 0 p in
  let p := Particle.set_invh (1 / Particle.h p) p in
  Particle.set_hfactor (pow (Particle.invh p) (ndim this)) p.

(** The normalisation of the sums, from [part.ndens *= part.hfactor] to the
    assignment of [invrho]. *)
Definition ComputeH_normalise (invhsqd : FLOAT) (p : Particle.t) : Particle.t :=
  let p := Particle.set_ndens (Particle.ndens p * Particle.hfactor p) p in
  let p := Particle.set_invomega (Particle.invomega p * Particle.hfactor p) p in
  let p := Particle.set_zeta (Particle.zeta p * invhsqd) p in
  let p := Particle.set_volume (1 / Particle.ndens p) p in
  let p := Particle.set_rho (Particle.m p * Particle.ndens p) p in
  if Qgtb (Particle.rho p) 0 then Particle.set_invrho (1 / Particle.rho p) p else p.

(** The first half of an iteration: the density and its companions for the
    current [h] (from [iteration++] to the assignment of [invrho]). *)
Definition ComputeH_density (this : MfvRungeKutta) (Nneib : nat) (m drsqd : vec)
    (s : HState) : HState :=
  let p := ComputeH_init this (part s) in
  let invhsqd := Particle.invh p * Particle.invh p in
  let p := ComputeH_sums this Nneib m drsqd invhsqd p in
  let p := ComputeH_normalise invhsqd p in
  {| part := p; iteration := Datatypes.S (iteration s);
     h_lower_bound := h_lower_bound s; h_upper_bound := h_upper_bound s;
     invhsqd := invhsqd |}.

(** The test that leaves the loop by [break]:
    [rho > 0 && h > h_lower_bound && fabs(h - h_fac*pow(volume,invndim)) < h_converge]. *)
Definition converged (this : MfvRungeKutta) (s : HState) : bool :=
  Qgtb (Particle.rho (part s)) 0
  && Qgtb (Particle.h (part s)) (h_lower_bound s)
  && Qltb (Qabs (Particle.h (part s)
                 - h_fac this * pow_invndim this (Particle.volume (part s))))
          (h_converge this).

Definition iteration_max : nat := 30.

Definition set_part (p : Particle.t) (s : HState) : HState :=
  {| part := p; iteration := iteration s; h_lower_bound := h_lower_bound s;
     h_upper_bound := h_upper_bound s; invhsqd := invhsqd s |}.

(** The new [h]: the [if / else if / else if / else] on the iteration
    counter.  The last branch prints and raises. *)
Definition update_h (this : MfvRungeKutta) (s : HState) : result HState :=
  let p := part s in
  if (iteration s <? iteration_max)%nat then
    Ok (set_part
          (Particle.set_h (h_fac this * pow_invndim this (Particle.volume p)) p) s)
  else if (iteration s =? iteration_max)%nat then
    Ok (set_part
          (Particle.set_h ((1 # 2) * (h_lower_bound s + h_upper_bound s)) p) s)
  else if (iteration s <? 5 * iteration_max)%nat then
    let s :=
      if Qltb (Particle.ndens p) (small_number this)
         || Qgtb (Particle.ndens p * pow (Particle.h p) (ndim this))
                 (pow (h_fac this) (ndim this))
      then {| part := part s; iteration := iteration s;
              h_lower_bound := h_lower_bound s; h_upper_bound := Particle.h p;
              invhsqd := invhsqd s |}
      else {| part := part s; iteration := iteration s;
              h_lower_bound := Particle.h p; h_upper_bound := h_upper_bound s;
              invhsqd := invhsqd s |} in
    Ok (set_part
          (Particle.set_h ((1 # 2) * (h_lower_bound s + h_upper_bound s)) p) s)
  else Raise "Problem with convergence of h-rho iteration".

(** How one pass through the body of the [do ... while] ends. *)
Inductive step : Type :=
| Break (s : HState)
| Return (code : Z) (s : HState)
| Again (s : HState)
| Leave (s : HState).

(** One pass through the body, and the loop condition
    [part.h > h_lower_bound && part.h < h_upper_bound] after it. *)
Definition ComputeH_body (this : MfvRungeKutta) (Nneib : nat) (hmax : FLOAT)
    (m drsqd : vec) (s : HState) : result step :=
  let s := ComputeH_density this Nneib m drsqd s in
  if converged this s then Ok (Break s)
  else
    s ← update_h this s;
    if Qgtb (Particle.h (part s)) hmax then Ok (Return 0 s)
    else if Qgtb (Particle.h (part s)) (h_lower_bound s)
            && Qltb (Particle.h (part s)) (h_upper_bound s)
    then Ok (Again s)
    else Ok (Leave s).

(** The [do ... while]: [None] when the loop was left by [break] or by its
    condition, [Some code] when the routine returned from inside it. *)
Fixpoint ComputeH_loop (fuel : nat) (this : MfvRungeKutta) (Nneib : nat)
    (hmax : FLOAT) (m drsqd : vec) (s : HState) : result (option Z * HState) :=
  match fuel with
  | O => OutOfFuel
  | Datatypes.S fuel =>
      st ← ComputeH_body this Nneib hmax m drsqd s;
      match st with
      | Break s => Ok (None, s)
      | Return code s => Ok (Some code, s)
      | Leave s => Ok (None, s)
      | Again s => ComputeH_loop fuel this Nneib hmax m drsqd s
      end
  end.

(** [part.potmin] after the loop over the neighbours' potentials. *)
Definition ComputeH_potmin (this : MfvRungeKutta) (Nneib : nat) (drsqd gpot : vec)
    (invhsqd : FLOAT) (p : Particle.t) : Particle.t :=
  for_range Nneib
    (fun j p =>
       if Qgtb (vget gpot j) ((1000000001 # 1000000000) * Particle.gpot p)
          && Qltb (vget drsqd j * invhsqd) (kernrangesqd (kern this))
       then Particle.set_potmin false p else p)
    (Particle.set_potmin true p).

(** "Normalise all SPH sums correctly": the final [h] and what is derived
    from it. *)
Definition ComputeH_finalise (this : MfvRungeKutta) (s : HState) : Particle.t :=
  let p := part s in
  let p := Particle.set_h
             (max (h_fac this * pow_invndim this (Particle.volume p))
                  (h_lower_bound s)) p in
  let p := Particle.set_invh (1 / Particle.h p) p in
  let p := Particle.set_hfactor (pow (Particle.invh p) (ndim this + 1)) p in
  let p := Particle.set_hrangesqd
             (kernfacsqd this * kernrangesqd (kern this) * Particle.h p * Particle.h p) p in
  let p := Particle.set_div_v 0 p in
  let p := Particle.set_invomega
             (1 + invndim this * Particle.h p * Particle.invomega p / Particle.ndens p) p in
  let p := Particle.set_invomega (1 / Particle.invomega p) p in
  Particle.set_zeta
    (- invndim this * Particle.h p * Particle.zeta p * Particle.invomega p
     / Particle.ndens p) p.

(** What follows the loop: the normalisations, the [potmin] flag, the thermal
    update, and the return code. *)
Definition ComputeH_finish (this : MfvRungeKutta) (Nneib : nat) (hmax : FLOAT)
    (drsqd gpot : vec) (s : HState) : Z * Particle.t :=
  let p := ComputeH_finalise this s in
  let p := if (create_sinks this =? 1)%Z
           then ComputeH_potmin this Nneib drsqd gpot (invhsqd s) p else p in
  let p := ComputeThermalProperties this p in
  let p := UpdatePrimitiveVector this p in
  if Qleb (Particle.h p) hmax then (1%Z, p) else ((-1)%Z, p).

(** The local variables at the entry of the loop. *)
Definition ComputeH_start (this : MfvRungeKutta) (hmax : FLOAT) (p : Particle.t)
  : HState :=
  {| part := p; iteration := 0;
     h_lower_bound := if negb (Particle.sinkid p =? -1)%Z then hmin_sink this else 0;
     h_upper_bound := hmax; invhsqd := 0 |}.

(** [MfvRungeKutta::ComputeH].  The particle is passed by reference: it is
    returned with the code.  The loop body runs at most [5*iteration_max]
    times (the last branch of [update_h] raises), which is the fuel. *)
Definition ComputeH (this : MfvRungeKutta) (i : nat) (Nneib : nat) (hmax : FLOAT)
    (m mu drsqd gpot : vec) (p : Particle.t) : result (Z * Particle.t) :=
  if negb (Particle.sinkid p =? -1)%Z && Qltb hmax (hmin_sink this) then Ok ((-1)%Z, p)
  else
    _ ← assert (0 <? Nneib)%nat;
    _ ← assert (Qgtb hmax 0);
    _ ← assert (negb (parttype_eqb (Particle.itype p) dead));
    _ ← assert (Qgtb (Particle.m p) 0);
    '(code, s) ← ComputeH_loop (5 * iteration_max) this Nneib hmax m drsqd
                   (ComputeH_start this hmax p);
    match code with
    | Some code => Ok (code, part s)
    | None => Ok (ComputeH_finish this Nneib hmax drsqd gpot s)
    end.

(** The chain of [if / else if] of [CopyDataToGhosts] on the ghost kind;
    [y] kinds need [ndim > 1] and [z] kinds [ndim == 3]. *)
Definition ghost_transform (this : MfvRungeKutta) (simbox : DomainBox)
    (itype : parttype) (g : Particle.t) : Particle.t :=
  let r k := vget (Particle.r g) k in
  let v k := vget (Particle.v g) k in
  let mirror k bound :=
    Particle.set_v_k k (- v k) (Particle.set_r_k k (2 * vget bound k - r k) g) in
  if parttype_eqb itype x_lhs_periodic then
    Particle.set_r_k 0 (r 0%nat + vget (boxsize simbox) 0) g
  else if parttype_eqb itype x_rhs_periodic then
    Particle.set_r_k 0 (r 0%nat - vget (boxsize simbox) 0) g
  else if parttype_eqb itype x_lhs_mirror then mirror 0%nat (boxmin simbox)
  else if parttype_eqb itype x_rhs_mirror then mirror 0%nat (boxmax simbox)
  else if (1 <? ndim this)%nat && parttype_eqb itype y_lhs_periodic then
    Particle.set_r_k 1 (r 1%nat + vget (boxsize simbox) 1) g
  else if (1 <? ndim this)%nat && parttype_eqb itype y_rhs_periodic then
    Particle.set_r_k 1 (r 1%nat - vget (boxsize simbox) 1) g
  else if (1 <? ndim this)%nat && parttype_eqb itype y_lhs_mirror then
    mirror 1%nat (boxmin simbox)
  else if (1 <? ndim this)%nat && parttype_eqb itype y_rhs_mirror then
    mirror 1%nat (boxmax simbox)
  else if (ndim this =? 3)%nat && parttype_eqb itype z_lhs_periodic then
    Particle.set_r_k 2 (r 2%nat + vget (boxsize simbox) 2) g
  else if (ndim this =? 3)%nat && parttype_eqb itype z_rhs_periodic then
    Particle.set_r_k 2 (r 2%nat - vget (boxsize simbox) 2) g
  else if (ndim this =? 3)%nat && parttype_eqb itype z_lhs_mirror then
    mirror 2%nat (boxmin simbox)
  else if (ndim this =? 3)%nat && parttype_eqb itype z_rhs_mirror then
    mirror 2%nat (boxmax simbox)
  else g.

(** The body of the loop of [CopyDataToGhosts] for ghost [j]. *)
Definition CopyDataToGhosts_ghost (this : MfvRungeKutta) (simbox : DomainBox)
    (j : nat) (partdata : list Particle.t) : result (list Particle.t) :=
  let i := (Nhydro this + j)%nat in
  ghost ← read partdata i;
  let iorig := Particle.iorig ghost in
  let itype := Particle.itype ghost in
  parent ← read partdata iorig;
  let ghost := parent in
  let ghost := Particle.set_iorig iorig ghost in
  let ghost := Particle.set_itype itype ghost in
  let ghost := Particle.set_active false ghost in
  write partdata i (ghost_transform this simbox itype ghost).

(** [MfvRungeKutta::CopyDataToGhosts]. *)
Definition CopyDataToGhosts (this : MfvRungeKutta) (simbox : DomainBox)
    (partdata : list Particle.t) : result (list Particle.t) :=
  for_rangeM (NPeriodicGhost this) (CopyDataToGhosts_ghost this simbox) partdata.

(** [for (k=0; k<ndim; k++) a[k] = f(k);] on a local array. *)
Definition vinit (n : nat) (f : nat -> FLOAT) : vec := map f (seq 0 n).

(** The pseudo-area vector of the pair: the two nested loops that fill
    [psitildai], [psitildaj] and [Aij]. *)
Definition psitildai (this : MfvRungeKutta) (neib : Particle.t) (draux : vec)
    (drsqd : FLOAT) (k : nat) : FLOAT :=
  for_range (ndim this)
    (fun kk acc =>
       acc + vget (nth k (Particle.B neib) []) kk * vget draux kk * Particle.hfactor neib
             * w0_s2 (kern this) (drsqd * Particle.invh neib * Particle.invh neib)
             / Particle.ndens neib)
    0.

Definition psitildaj (this : MfvRungeKutta) (part : Particle.t) (draux : vec)
    (drsqd : FLOAT) (k : nat) : FLOAT :=
  for_range (ndim this)
    (fun kk acc =>
       acc - vget (nth k (Particle.B part) []) kk * vget draux kk * Particle.hfactor part
             * w0_s2 (kern this) (drsqd * Particle.invh part * Particle.invh part)
             / Particle.ndens part)
    0.

Definition area_vector (this : MfvRungeKutta) (part neib : Particle.t) : vec :=
  let draux := vinit (ndim this) (fun k => vget (Particle.r part) k - vget (Particle.r neib) k) in
  let drsqd := DotProduct draux draux (ndim this) in
  vinit (ndim this)
    (fun k => Particle.volume part * psitildaj this part draux drsqd k
              - Particle.volume neib * psitildai this neib draux drsqd k).

(** The Godunov flux of the pair: face position and velocity, the two
    slope-limited states in the frame of the face, the four assertions, and
    the call of the Riemann solver. *)
Definition pair_flux (this : MfvRungeKutta) (part neib : Particle.t)
  : result (list vec) :=
  let n := ndim this in
  let draux := vinit n (fun k => vget (Particle.r part) k - vget (Particle.r neib) k) in
  let drsqd := DotProduct draux draux n in
  let invdrmagaux := 1 / sqrt this (drsqd + small_number this) in
  let dr_unit := vinit n (fun k => vget draux k * invdrmagaux) in
  let rface :=
    vinit n (fun k => vget (Particle.r part) k
                      + Particle.h part * (vget (Particle.r neib) k - vget (Particle.r part) k)
                        / (Particle.h part + Particle.h neib)) in
  let draux := vinit n (fun k => vget (Particle.r part) k - vget rface k) in
  let vface :=
    vinit n (fun k => vget (Particle.v part) k
                      + (vget (Particle.v neib) k - vget (Particle.v part) k)
                        * DotProduct draux dr_unit n * invdrmagaux) in
  let frame W := for_range n (fun k W => vset k (vget W k - vget vface k) W) W in
  let draux := vinit n (fun k => vget rface k - vget (Particle.r part) k) in
  let '(gradW, dW) := ComputeLimitedSlopes this part neib draux in
  let Wleft := frame (vinit (nvar this) (fun var => vget (Particle.Wprim part) var + vget dW var)) in
  let draux := vinit n (fun k => vget rface k - vget (Particle.r neib) k) in
  let '(gradW, dW) := ComputeLimitedSlopes this neib part draux in
  let Wright := frame (vinit (nvar this) (fun var => vget (Particle.Wprim neib) var + vget dW var)) in
  _ ← assert (Qgtb (vget Wleft (irho this)) 0);
  _ ← assert (Qgtb (vget Wleft (ipress this)) 0);
  _ ← assert (Qgtb (vget Wright (irho this)) 0);
  _ ← assert (Qgtb (vget Wright (ipress this)) 0);
  Ok (ComputeFluxes this Wright Wleft dr_unit vface).

(** [part.dQdt[var] -= DotProduct(flux[var], Aij, ndim);]
    [neibpart[j].dQdt[var] += DotProduct(flux[var], Aij, ndim);] for every [var]. *)
Definition accumulate_flux (this : MfvRungeKutta) (flux : list vec) (Aij : vec)
    (pn : Particle.t * Particle.t) : Particle.t * Particle.t :=
  for_range (nvar this)
    (fun var '(part, neib) =>
       (Particle.set_dQdt
          (vset var (vget (Particle.dQdt part) var
                     - DotProduct (nth var flux []) Aij (ndim this)) (Particle.dQdt part)) part,
        Particle.set_dQdt
          (vset var (vget (Particle.dQdt neib) var
                     + DotProduct (nth var flux []) Aij (ndim this)) (Particle.dQdt neib)) neib))
    pn.

(** The body of the neighbour loop of [ComputeGodunovFlux] for list entry
    [jj]; the state is particle [i] and the array of neighbour copies. *)
Definition GodunovFlux_neib (this : MfvRungeKutta) (neiblist : list nat) (jj : nat)
    (st : Particle.t * list Particle.t) : result (Particle.t * list Particle.t) :=
  let '(part, neibpart) := st in
  j ← read neiblist jj;
  neib ← read neibpart j;
  let Aij := area_vector this part neib in
  flux ← pair_flux this part neib;
  let '(part, neib) := accumulate_flux this flux Aij (part, neib) in
  neibpart ← write neibpart j neib;
  Ok (part, neibpart).

(** [MfvRungeKutta::ComputeGodunovFlux]. *)
Definition ComputeGodunovFlux (this : MfvRungeKutta) (i : nat) (Nneib : nat)
    (neiblist : list nat) (part : Particle.t) (neibpart : list Particle.t)
  : result (Particle.t * list Particle.t) :=
  let part :=
    Particle.set_dQdt
      (for_range (nvar this) (fun var a => vset var 0 a) (Particle.dQdt part)) part in
  for_rangeM Nneib (GodunovFlux_neib this neiblist) (part, neibpart).

End Mfv.

(** ** The per-cell loop of [GradhSphTree::UpdateAllSphProperties] *)

Module SphTree.

(** Modelled from the spec: the tree classes are not among the sources.  A
    cell carries its [hmax]; a query either fills the caller's list and
    returns the new count, or returns [-1] when the list is too small. *)
Record TreeCellBase : Type := {
  cell_id : nat;
  hmax : FLOAT
}.

Record Tree : Type := {
  ComputeActiveParticleList : TreeCellBase -> list Particle.t -> list nat;
  ComputeGatherNeighbourList :
    TreeCellBase -> list Particle.t -> FLOAT -> Z -> Z -> list nat -> Z * list nat
}.

(** The SPH object as the loop sees it: the virtual [ComputeH] and the table
    [types[ptype].hmask]. *)
Record SphSolver : Type := {
  ComputeH :
    nat -> nat -> FLOAT -> vec -> vec -> vec -> vec -> Particle.t -> result (Z * Particle.t);
  hmask : nat -> nat -> bool
}.

(** [heap] is not a member of the class: it is the run time's allocator as
    the object meets it, [heap n] telling whether a [new T[n]] with [n >= 0]
    is granted. *)
Record GradhSphTree : Type := {
  ndim : nat;
  kernrangesqd : FLOAT;
  small_number : FLOAT;
  tree : Tree;
  ghosttree : Tree;
  heap : Z -> bool
}.

(** The per-thread scratch arrays and their common size, the [int]
    [Nneibmax]. *)
Record Scratch : Type := {
  Nneibmax : Z;
  neiblist : list nat;
  ptype : list nat;
  gpot : vec;
  gpot2 : vec;
  drsqd : vec;
  m : vec;
  m2 : vec;
  r : vec
}.

(** The range of [int]. *)
Definition INT_MIN : Z := -2147483648.
Definition INT_MAX : Z := 2147483647.

(** The value of an [int] expression: outside the range of [int] the
    behaviour is undefined (as compiled the value wraps; a doubled size then
    is negative and [new] refuses it). *)
Definition int_value (z : Z) : result Z :=
  if (INT_MIN <=? z)%Z && (z <=? INT_MAX)%Z then Ok z else IntOverflow.

(** [new T[n]]: it throws for a negative [n] and when the allocator has no
    room; the content of a fresh array is unspecified, zeros stand for it. *)
Definition new_array {A : Type} (heap : Z -> bool) (zero : A) (n : Z) : result (list A) :=
  if (0 <=? n)%Z && heap n then Ok (replicate (Z.to_nat n) zero) else BadAlloc.

(** The eight [delete[]], [Nneibmax = 2*Nneibmax] and the eight [new] of the
    overflow branch, in the order of the source. *)
Definition reallocate (this : GradhSphTree) (b : Scratch) : result Scratch :=
  n ← int_value (2 * Nneibmax b);
  neiblist ← new_array (heap this) 0%nat n;
  ptype ← new_array (heap this) 0%nat n;
  gpot ← new_array (heap this) 0 n;
  gpot2 ← new_array (heap this) 0 n;
  drsqd ← new_array (heap this) 0 n;
  m ← new_array (heap this) 0 n;
  m2 ← new_array (heap this) 0 n;
  size ← int_value (n * Z.of_nat (ndim this));
  r ← new_array (heap this) 0 size;
  Ok {| Nneibmax := n; neiblist := neiblist; ptype := ptype; gpot := gpot;
        gpot2 := gpot2; drsqd := drsqd; m := m; m2 := m2; r := r |}.

Definition set_neiblist (l : list nat) (b : Scratch) : Scratch :=
  {| Nneibmax := Nneibmax b; neiblist := l; ptype := ptype b; gpot := gpot b;
     gpot2 := gpot2 b; drsqd := drsqd b; m := m b; m2 := m2 b; r := r b |}.

(** The neighbour query: the real tree, then the ghost tree, which receives the
    count the first call returned. *)
Definition gather (this : GradhSphTree) (cell : TreeCellBase)
    (sphdata : list Particle.t) (hmax : FLOAT) (b : Scratch) : Z * Scratch :=
  let '(Nneib, l) :=
    ComputeGatherNeighbourList (tree this) cell sphdata hmax (Nneibmax b) 0 (neiblist b) in
  let '(Nneib, l) :=
    ComputeGatherNeighbourList (ghosttree this) cell sphdata hmax (Nneibmax b) Nneib l in
  (Nneib, set_neiblist l b).

(** [while (Nneib == -1) { ... Nneibmax = 2*Nneibmax; ... }] *)
Fixpoint gather_retry (fuel : nat) (this : GradhSphTree) (cell : TreeCellBase)
    (sphdata : list Particle.t) (hmax : FLOAT) (Nneib : Z) (b : Scratch)
  : result (Z * Scratch) :=
  if (Nneib =? -1)%Z then
    match fuel with
    | O => OutOfFuel
    | Datatypes.S fuel =>
        b ← reallocate this b;
        let '(Nneib, b) := gather this cell sphdata hmax b in
        gather_retry fuel this cell sphdata hmax Nneib b
    end
  else Ok (Nneib, b).

(** "Make local copies of important neib information". *)
Definition copy_neib (this : GradhSphTree) (sphdata : list Particle.t) (jj : nat)
    (b : Scratch) : result Scratch :=
  j ← read (neiblist b) jj;
  p ← read sphdata j;
  Ok {| Nneibmax := Nneibmax b; neiblist := neiblist b;
        ptype := <[jj := Particle.ptype p]> (ptype b);
        gpot := vset jj (Particle.gpot p) (gpot b);
        gpot2 := gpot2 b; drsqd := drsqd b;
        m := vset jj (Particle.m p) (m b);
        m2 := m2 b;
        r := for_range (ndim this)
               (fun k a => vset (ndim this * jj + k) (vget (Particle.r p) k) a) (r b) |}.

(** The loop over the tree's neighbours for one active particle: the gather
    neighbours are compacted to the front of [gpot], [drsqd] and [m2]. *)
Definition gather_neib (this : GradhSphTree) (sph : SphSolver) (active : Particle.t)
    (hrangesqd : FLOAT) (jj : nat) (st : Scratch * nat) : Scratch * nat :=
  let '(b, Ngather) := st in
  if negb (hmask sph (Particle.ptype active) (default 0%nat (ptype b !! jj))) then st
  else
    let draux :=
      map (fun k => vget (r b) (ndim this * jj + k) - vget (Particle.r active) k)
          (seq 0 (ndim this)) in
    let drsqdaux := DotProduct draux draux (ndim this) + small_number this in
    if Qleb drsqdaux hrangesqd then
      ({| Nneibmax := Nneibmax b; neiblist := neiblist b; ptype := ptype b;
          gpot := vset Ngather (vget (gpot b) jj) (gpot b);
          gpot2 := gpot2 b;
          drsqd := vset Ngather drsqdaux (drsqd b);
          m := m b;
          m2 := vset Ngather (vget (m b) jj) (m2 b);
          r := r b |}, Datatypes.S Ngather)
    else st.

(** The state of one pass over the active particles of the cell.  [okflags]
    records the value of every [ComputeH] call of the pass, in order; the
    source keeps the last one only, the list is there for the statements. *)
Record Pass : Type := {
  celldone : bool;
  scratch : Scratch;
  activepart : list Particle.t;
  okflags : list Z
}.

(** [for (j=0; j<Nactive; j++) { ... if (okflag == 0) { celldone = 0; break; } }],
    from [j] on, with [n] particles left. *)
Fixpoint active_loop (n j : nat) (this : GradhSphTree) (sph : SphSolver)
    (activelist : list nat) (hmax : FLOAT) (Nneib : nat) (st : Pass) : result Pass :=
  match n with
  | O => Ok st
  | Datatypes.S n =>
      i ← read activelist j;
      p ← read (activepart st) j;
      let hrangesqd := kernrangesqd this * hmax * hmax in
      let '(b, Ngather) :=
        for_range Nneib (gather_neib this sph p hrangesqd) (scratch st, 0%nat) in
      '(okflag, p) ← ComputeH sph i Ngather hmax (m2 b) [] (drsqd b) (gpot b) p;
      let st := {| celldone := celldone st; scratch := b;
                   activepart := <[j := p]> (activepart st);
                   okflags := okflags st ++ [okflag] |} in
      if (okflag =? 0)%Z
      then Ok {| celldone := false; scratch := scratch st;
                 activepart := activepart st; okflags := okflags st |}
      else active_loop n (Datatypes.S j) this sph activelist hmax Nneib st
  end.

(** One pass through the body of the outer [do ... while (celldone == 0)],
    entered with the [hmax] of the previous pass (the cell's for the first);
    it returns the [hmax] it used. *)
Definition cell_pass (fuel : nat) (this : GradhSphTree) (sph : SphSolver)
    (cell : TreeCellBase) (sphdata : list Particle.t) (hmax : FLOAT) (b : Scratch)
  : result (FLOAT * list nat * Pass) :=
  let hmax := (105 # 100) * hmax in
  let activelist := ComputeActiveParticleList (tree this) cell sphdata in
  let Nactive := length activelist in
  activepart ← for_rangeM Nactive
                  (fun j l => p ← read sphdata (default 0%nat (activelist !! j)); Ok (l ++ [p]))
                  [];
  let '(Nneib, b) := gather this cell sphdata hmax b in
  '(Nneib, b) ← gather_retry fuel this cell sphdata hmax Nneib b;
  b ← for_rangeM (Z.to_nat Nneib) (copy_neib this sphdata) b;
  st ← active_loop Nactive 0 this sph activelist hmax (Z.to_nat Nneib)
         {| celldone := true; scratch := b; activepart := activepart; okflags := [] |};
  Ok (hmax, activelist, st).

(** The outer loop for one cell, and the copy of the active particles back to
    the main array that follows it.  The result carries, for the statements,
    the [hmax] and the [okflags] of every pass made. *)
Fixpoint cell_loop (fuel : nat) (this : GradhSphTree) (sph : SphSolver)
    (cell : TreeCellBase) (sphdata : list Particle.t) (hmax : FLOAT) (b : Scratch)
    (passes : list (FLOAT * list Z))
  : result (list nat * Pass * list (FLOAT * list Z)) :=
  match fuel with
  | O => OutOfFuel
  | Datatypes.S fuel' =>
      '(hmax, activelist, st) ← cell_pass fuel this sph cell sphdata hmax b;
      let passes := passes ++ [(hmax, okflags st)] in
      if celldone st then Ok (activelist, st, passes)
      else cell_loop fuel' this sph cell sphdata hmax (scratch st) passes
  end.

Definition UpdateCell (fuel : nat) (this : GradhSphTree) (sph : SphSolver)
    (cell : TreeCellBase) (sphdata : list Particle.t) (b : Scratch)
  : result (list Particle.t * Scratch * list (FLOAT * list Z)) :=
  '(activelist, st, passes) ← cell_loop fuel this sph cell sphdata (hmax cell) b [];
  sphdata ← for_rangeM (length activelist)
              (fun j data =>
                 p ← read (activepart st) j;
                 write data (default 0%nat (activelist !! j)) p)
              sphdata;
  Ok (sphdata, scratch st, passes).

End SphTree.

(** ** Concrete data for the examples *)

Module Examples.

(** A gas particle at rest with unit mass, of which the examples set the
    members they need. *)
Definition particle_gpot (r v : vec) (h gpot : FLOAT) : Particle.t :=
  {| Particle.r := r; Particle.v := v; Particle.m := 1; Particle.h := h;
     Particle.iorig := 0; Particle.itype := gas; Particle.ptype := 0;
     Particle.active := true; Particle.sinkid := -1; Particle.gpot := gpot;
     Particle.potmin := false; Particle.ndens := 0; Particle.invomega := 0;
     Particle.zeta := 0; Particle.invh := 0; Particle.hfactor := 0;
     Particle.volume := 0; Particle.rho := 0; Particle.invrho := 0;
     Particle.hrangesqd := 0; Particle.div_v := 0; Particle.B := [[1]];
     Particle.Wprim := [0; 1; 1]; Particle.dQdt := [0; 0; 0] |}.

Definition particle (r v : vec) (h : FLOAT) : Particle.t := particle_gpot r v h 0.

(** The unit interval with the same kind of face on both sides of x and open
    faces elsewhere. *)
Definition unit_box (x_face : string) : DomainBox :=
  {| x_boundary_lhs := x_face; x_boundary_rhs := x_face;
     y_boundary_lhs := "open"; y_boundary_rhs := "open";
     z_boundary_lhs := "open"; z_boundary_rhs := "open";
     boxmin := [0; 0; 0]; boxmax := [1; 1; 1]; boxsize := [1; 1; 1];
     boxhalf := [1 # 2; 1 # 2; 1 # 2] |}.

(** An SPH object over the given array with [Nsph] real particles. *)
Definition sph_of (Nsph : nat) (data : list Particle.t) : Sph :=
  {| Nsph := Nsph; Nghost := 0; Nghostmax := 0; Ntot := Nsph;
     Nsphmax := length data; kernrange := 2; kernfac := 1; sphdata := data |}.

(** One particle that has left the unit box through its left face, moving
    outwards. *)
Definition escaped : Sph := sph_of 1 [particle [- (1 # 10)] [- (1)] (1 # 100)].

(** The unit square with the same kind of face on the four sides of x and y,
    and a real particle close to its lower left corner, in an array with room
    for four ghosts. *)
Definition unit_square (face : string) : DomainBox :=
  {| x_boundary_lhs := face; x_boundary_rhs := face;
     y_boundary_lhs := face; y_boundary_rhs := face;
     z_boundary_lhs := "open"; z_boundary_rhs := "open";
     boxmin := [0; 0; 0]; boxmax := [1; 1; 1]; boxsize := [1; 1; 1];
     boxhalf := [1 # 2; 1 # 2; 1 # 2] |}.

Definition near_corner : Sph :=
  sph_of 1 [particle [1 # 100; 1 # 100] [1; 1] (1 # 100);
            particle [0; 0] [0; 0] 1; particle [0; 0] [0; 0] 1;
            particle [0; 0] [0; 0] 1; particle [0; 0] [0; 0] 1].

(** The same particle in an array with no room for ghosts:
    [Nsphmax = Nsph = 1], so [Nghostmax = 0]. *)
Definition full : Sph := sph_of 1 [particle [1 # 100] [1] (1 # 100)].

(** A real particle that has moved to [0.2] since its periodic ghost was
    made at [1.1], and that ghost. *)
Definition moved : Sph :=
  {| Nsph := 1; Nghost := 1; Nghostmax := 1; Ntot := 2; Nsphmax := 2;
     kernrange := 2; kernfac := 1;
     sphdata := [particle [2 # 10] [1] (1 # 100);
                 Particle.set_active false
                   (Particle.set_itype x_lhs_periodic (particle [11 # 10] [1] (1 # 100)))] |}.

(** A real, active particle and a ghost of it that is marked active. *)
Definition woken : Sph :=
  {| Nsph := 1; Nghost := 1; Nghostmax := 1; Ntot := 2; Nsphmax := 2;
     kernrange := 2; kernfac := 1;
     sphdata := [particle [2 # 10] [1] (1 # 100);
                 Particle.set_itype x_lhs_periodic (particle [11 # 10] [1] (1 # 100))] |}.

(** An [MfvRungeKutta] object in one dimension with a top-hat kernel of
    range 2, the identity for the first root, and collaborators that do
    nothing; the examples change the members they need. *)
Definition tophat : SmoothingKernel :=
  {| kernrangesqd := 4;
     w0_s2 := fun s => if Qltb s 4 then 1 # 4 else 0;
     womega_s2 := fun _ => 0;
     wzeta_s2 := fun _ => 0 |}.

(** A kernel in two steps, larger near the centre, of range 2. *)
Definition stepped : SmoothingKernel :=
  {| kernrangesqd := 4;
     w0_s2 := fun s => if Qltb s 2 then 4 # 3 else if Qltb s 4 then 3 # 4 else 0;
     womega_s2 := fun _ => 0;
     wzeta_s2 := fun _ => 0 |}.

Definition mfv_with (kern : SmoothingKernel) (Nhydro NPeriodicGhost : nat)
    (h_fac h_converge : FLOAT) (create_sinks : Z) : MfvRungeKutta :=
  {| ndim := 1; nvar := 3; irho := 1; ipress := 2;
     Nhydro := Nhydro; NPeriodicGhost := NPeriodicGhost;
     h_fac := h_fac; h_converge := h_converge; hmin_sink := 1 # 100;
     kernfacsqd := 1; small_number := 1 # 100000000000000000000;
     create_sinks := create_sinks; kern := kern;
     pow_invndim := fun x => x; sqrt := fun x => x;
     ComputeThermalProperties := fun p => p;
     UpdatePrimitiveVector := fun p => p;
     ComputeLimitedSlopes := fun _ _ _ => ([[0]; [0]; [0]], [0; 0; 0]);
     ComputeFluxes := fun _ _ _ _ => [[1]; [2]; [3]] |}.

Definition mfv : nat -> nat -> FLOAT -> FLOAT -> Z -> MfvRungeKutta := mfv_with tophat.

(** A fluid particle of unit smoothing length, number density and volume,
    with primitive state [(v, rho, P) = (0, 1, 1)] and no flux accumulated. *)
Definition fluid (x : FLOAT) : Particle.t :=
  {| Particle.r := [x]; Particle.v := [0]; Particle.m := 1; Particle.h := 1;
     Particle.iorig := 0; Particle.itype := gas; Particle.ptype := 0;
     Particle.active := true; Particle.sinkid := -1; Particle.gpot := 0;
     Particle.potmin := false; Particle.ndens := 1; Particle.invomega := 1;
     Particle.zeta := 0; Particle.invh := 1; Particle.hfactor := 1;
     Particle.volume := 1; Particle.rho := 1; Particle.invrho := 1;
     Particle.hrangesqd := 4; Particle.div_v := 0; Particle.B := [[1]];
     Particle.Wprim := [0; 1; 1]; Particle.dQdt := [0; 0; 0] |}.

(** A tree over an array whose only particle, number 0, is active and is its
    own single neighbour; the query overflows when the caller's list has
    fewer than [need] entries.  The ghost tree finds nothing and returns the
    count it is given. *)
Definition tree_needing (need : Z) : SphTree.Tree :=
  {| SphTree.ComputeActiveParticleList := fun _ _ => [0%nat];
     SphTree.ComputeGatherNeighbourList := fun _ _ _ Nneibmax Nneib neiblist =>
       if (Nneib =? -1)%Z || (Nneibmax <? need)%Z then ((-1)%Z, neiblist)
       else (Nneib + 1, <[Z.to_nat Nneib := 0%nat]> neiblist)%Z |}.

Definition empty_tree : SphTree.Tree :=
  {| SphTree.ComputeActiveParticleList := fun _ _ => [];
     SphTree.ComputeGatherNeighbourList := fun _ _ _ _ Nneib neiblist => (Nneib, neiblist) |}.

(** The object over that tree, in one dimension, with an allocator that
    grants arrays of up to a million entries. *)
Definition sphtree (need : Z) : SphTree.GradhSphTree :=
  {| SphTree.ndim := 1; SphTree.kernrangesqd := 4;
     SphTree.small_number := 1 # 100000000000000000000;
     SphTree.tree := tree_needing need; SphTree.ghosttree := empty_tree;
     SphTree.heap := fun n => (n <=? 1000000)%Z |}.

(** Scratch arrays of one entry each. *)
Definition scratch1 : SphTree.Scratch :=
  {| SphTree.Nneibmax := 1; SphTree.neiblist := [0%nat]; SphTree.ptype := [0%nat];
     SphTree.gpot := [0]; SphTree.gpot2 := [0]; SphTree.drsqd := [0];
     SphTree.m := [0]; SphTree.m2 := [0]; SphTree.r := [0] |}.


Definition cell1 : SphTree.TreeCellBase := {| SphTree.cell_id := 0; SphTree.hmax := 1 |}.

(** The SPH object whose [ComputeH] is [MfvRungeKutta::ComputeH] with
    [h_fac = 1/4], for which a lone particle is converged at once. *)
Definition mfv_solver : SphTree.SphSolver :=
  {| SphTree.ComputeH := Mfv.ComputeH (mfv 1 0 (1 # 4) (1 # 100) 0);
     SphTree.hmask := fun _ _ => true |}.


End Examples.

(** ** Boundary containment, in the words of the specification *)

Module BoundarySpec.

Import Simulation.

(** A closed face is a periodic or a mirror one. *)
Definition closed_face (face : string) : bool :=
  String.eqb face "periodic" || String.eqb face "mirror".

(** C1 as stated: after the sweep every real particle lies inside the box
    along every dimension that has a closed face. *)
Definition containment_as_stated (ndim : nat) (simbox : DomainBox) (sph : Sph) : Prop :=
  forall i p d,
    (i < Nsph sph)%nat ->
    sphdata (CheckBoundaries ndim simbox sph) !! i = Some p ->
    (d < ndim)%nat ->
    closed_face (boundary_lhs simbox d) || closed_face (boundary_rhs simbox d) = true ->
    vget (boxmin simbox) d <= vget (Particle.r p) d <= vget (boxmax simbox) d.

End BoundarySpec.

(** ** Notions the statements about ghosts use *)

Module Ghosts.

(** The invariant on the ghost tail [Nreal, Nreal + Nghost) of a particle
    array: every ghost is there, is inactive, and names a real particle as
    its original. *)
Definition ghosts_ok (Nreal Nghost : nat) (data : list Particle.t) : Prop :=
  forall j, (Nreal <= j < Nreal + Nghost)%nat ->
    exists g, data !! j = Some g
              /\ Particle.active g = false
              /\ (Particle.iorig g < Nreal)%nat.

(** The part of it that the refresh routines need: every ghost is there and
    names a real particle; it may be active. *)
Definition ghosts_name_real (Nreal Nghost : nat) (data : list Particle.t) : Prop :=
  forall j, (Nreal <= j < Nreal + Nghost)%nat ->
    exists g, data !! j = Some g /\ (Particle.iorig g < Nreal)%nat.

(** What the ghost search keeps true while it runs: the invariant on the
    ghosts made so far, and a loop bound [Ntot] that does not pass them. *)
Definition search_inv (Nreal : nat) (sph : Sph) : Prop :=
  Nsph sph = Nreal
  /\ (Ntot sph <= Nsph sph + Nghost sph)%nat
  /\ ghosts_ok (Nsph sph) (Nghost sph) (sphdata sph).

(** The common shape of the two loops that refresh ghosts: read the ghost,
    read its original, store [F ghost original] in the ghost's slot. *)
Definition refresh (F : Particle.t -> Particle.t -> Particle.t) (base j : nat)
    (data : list Particle.t) : result (list Particle.t) :=
  ghost ← read data (base + j)%nat;
  parent ← read data (Particle.iorig ghost);
  write data (base + j)%nat (F ghost parent).

(** What [Simulation::CopySphDataToGhosts] stores for a ghost. *)
Definition refreshed_sph (ndim : nat) (ghost parent : Particle.t) : Particle.t :=
  let rp := Simulation.vcopy ndim (Particle.r ghost) (replicate ndim 0) in
  let vp := Simulation.vcopy ndim (Particle.v ghost) (replicate ndim 0) in
  let g := Particle.set_active false (Particle.set_iorig (Particle.iorig ghost) parent) in
  let g := Particle.set_r (Simulation.vcopy ndim rp (Particle.r g)) g in
  Particle.set_v (Simulation.vcopy ndim vp (Particle.v g)) g.

(** What [MfvRungeKutta::CopyDataToGhosts] stores for a ghost. *)
Definition refreshed_mfv (this : MfvRungeKutta) (simbox : DomainBox)
    (ghost parent : Particle.t) : Particle.t :=
  Mfv.ghost_transform this simbox (Particle.itype ghost)
    (Particle.set_active false
       (Particle.set_itype (Particle.itype ghost)
          (Particle.set_iorig (Particle.iorig ghost) parent))).

End Ghosts.

(** ** Ghost fidelity, in the words of the specification *)

Module GhostSpec.

Inductive side : Type := Lhs | Rhs.
Inductive face_kind : Type := Periodic | Mirror.

(** The axis, side and kind of face a ghost kind stands for. *)
Definition ghost_face (itype : parttype) : option (nat * side * face_kind) :=
  match itype with
  | x_lhs_periodic => Some (0, Lhs, Periodic) | x_rhs_periodic => Some (0, Rhs, Periodic)
  | x_lhs_mirror => Some (0, Lhs, Mirror) | x_rhs_mirror => Some (0, Rhs, Mirror)
  | y_lhs_periodic => Some (1, Lhs, Periodic) | y_rhs_periodic => Some (1, Rhs, Periodic)
  | y_lhs_mirror => Some (1, Lhs, Mirror) | y_rhs_mirror => Some (1, Rhs, Mirror)
  | z_lhs_periodic => Some (2, Lhs, Periodic) | z_rhs_periodic => Some (2, Rhs, Periodic)
  | z_lhs_mirror => Some (2, Lhs, Mirror) | z_rhs_mirror => Some (2, Rhs, Mirror)
  | gas | dead => None
  end%nat.

(** Shift by one box length on the periodic axis (onto the far side of the
    box), reflection [2*bound - r] on the mirror axis. *)
Definition position_transform (ndim : nat) (simbox : DomainBox) (itype : parttype)
    (r : vec) : vec :=
  match ghost_face itype with
  | Some (k, Lhs, Periodic) =>
      if (k <? ndim)%nat then vset k (vget r k + vget (boxsize simbox) k) r else r
  | Some (k, Rhs, Periodic) =>
      if (k <? ndim)%nat then vset k (vget r k - vget (boxsize simbox) k) r else r
  | Some (k, Lhs, Mirror) =>
      if (k <? ndim)%nat then vset k (2 * vget (boxmin simbox) k - vget r k) r else r
  | Some (k, Rhs, Mirror) =>
      if (k <? ndim)%nat then vset k (2 * vget (boxmax simbox) k - vget r k) r else r
  | None => r
  end.

(** The component along the mirror axis changes sign. *)
Definition velocity_transform (ndim : nat) (itype : parttype) (v : vec) : vec :=
  match ghost_face itype with
  | Some (k, _, Mirror) => if (k <? ndim)%nat then vset k (- vget v k) v else v
  | _ => v
  end.

(** Ghost fidelity between the array before a refresh and the array after
    it: ghost [j] had kind [itype g] and original [iorig g]; afterwards it
    carries the original's current non-spatial state, and the original's
    current position and velocity under the transform of its kind. *)
Definition ghost_fidelity (ndim : nat) (simbox : DomainBox) (Nreal Nghost : nat)
    (before after : list Particle.t) : Prop :=
  forall j g p g',
    (j < Nghost)%nat ->
    before !! (Nreal + j)%nat = Some g ->
    after !! Particle.iorig g = Some p ->
    after !! (Nreal + j)%nat = Some g' ->
    Particle.nonspatial g' = Particle.nonspatial p
    /\ Particle.r g' = position_transform ndim simbox (Particle.itype g) (Particle.r p)
    /\ Particle.v g' = velocity_transform ndim (Particle.itype g) (Particle.v p).

End GhostSpec.

(** ** The smoothing-length solver, in the words of the specification *)

Module HSpec.

(** The exit test of the specification: the tolerance scales with [h]. *)
Definition relative_criterion (this : MfvRungeKutta) (s : Mfv.HState) : Prop :=
  let p := Mfv.part s in
  0 < Particle.rho p
  /\ Mfv.h_lower_bound s < Particle.h p
  /\ Qabs (Particle.h p
           - h_fac this * pow_invndim this (Particle.m p / Particle.rho p))
     < h_converge this * Particle.h p.

(** C4 as stated: a pass through the loop body ends the iteration by
    convergence exactly when the relative criterion holds for the density
    just computed. *)
Definition exit_as_stated (this : MfvRungeKutta) (Nneib : nat) (hmax : FLOAT)
    (m drsqd : vec) (s : Mfv.HState) : Prop :=
  (exists s', Mfv.ComputeH_body this Nneib hmax m drsqd s = Ok (Mfv.Break s'))
  <-> relative_criterion this (Mfv.ComputeH_density this Nneib m drsqd s).

(** Over-dense: [n * h^ndim > h_fac^ndim]. *)
Definition over_dense (this : MfvRungeKutta) (p : Particle.t) : Prop :=
  Mfv.pow (h_fac this) (ndim this)
  < Particle.ndens p * Mfv.pow (Particle.h p) (ndim this).

(** C3 as stated, for the passes with [30 < k < 150] that do not converge:
    the upper bound becomes [h] if the particle is over-dense, otherwise the
    lower bound becomes [h]; then [h] is the midpoint. *)
Definition bracket_as_stated (this : MfvRungeKutta) (Nneib : nat) (hmax : FLOAT)
    (m drsqd : vec) (s : Mfv.HState) : Prop :=
  let d := Mfv.ComputeH_density this Nneib m drsqd s in
  forall s',
    (30 < Mfv.iteration d < 150)%nat ->
    Mfv.ComputeH_body this Nneib hmax m drsqd s = Ok (Mfv.Again s') ->
    (over_dense this (Mfv.part d) ->
     Mfv.h_upper_bound s' == Particle.h (Mfv.part d)
     /\ Mfv.h_lower_bound s' == Mfv.h_lower_bound d)
    /\ (~ over_dense this (Mfv.part d) ->
        Mfv.h_lower_bound s' == Particle.h (Mfv.part d)
        /\ Mfv.h_upper_bound s' == Mfv.h_upper_bound d).

(** C9 as stated: the flag is set exactly when no neighbour within kernel
    reach of the final [h] has a potential strictly greater than the
    particle's. *)
Definition potmin_as_stated (this : MfvRungeKutta) (Nneib : nat) (drsqd gpot : vec)
    (p' : Particle.t) : Prop :=
  Particle.potmin p' = true
  <-> forall j, (j < Nneib)%nat ->
        ~ (vget drsqd j / (Particle.h p' * Particle.h p') < kernrangesqd (kern this)
           /\ Particle.gpot p' < vget gpot j).

(** The state after [n] passes that all went round the loop. *)
Fixpoint passes (n : nat) (this : MfvRungeKutta) (Nneib : nat) (hmax : FLOAT)
    (m drsqd : vec) (s : Mfv.HState) : result Mfv.HState :=
  match n with
  | O => Ok s
  | Datatypes.S n =>
      st ← Mfv.ComputeH_body this Nneib hmax m drsqd s;
      match st with
      | Mfv.Again s => passes n this Nneib hmax m drsqd s
      | _ => Raise "the loop has ended"
      end
  end.

(** How a pass that does not converge can end, with the state it leaves. *)
Definition ends_with (r : result Mfv.step) (s' : Mfv.HState) : Prop :=
  r = Ok (Mfv.Return 0 s') \/ r = Ok (Mfv.Again s') \/ r = Ok (Mfv.Leave s').

End HSpec.

(** ** Notions the statements about the per-cell loop use *)

Module CellSpec.

Import SphTree.






End CellSpec.

(** ** What a ghost shares with its original *)

Module GhostFrame.

(** The dimensions whose faces [SearchGhostParticles] sweeps: x always, y
    when [ndim >= 2], z when [ndim == 3]. *)
Definition swept (ndim k : nat) : Prop :=
  k = 0%nat \/ (k = 1 /\ 2 <= ndim)%nat \/ (k = 2 /\ ndim = 3)%nat.

(** Two particles that differ at most in the swept components of position
    and velocity and in the bookkeeping members [iorig] and [active]. *)
Definition alike (ndim : nat) (g o : Particle.t) : Prop :=
  Particle.itype g = Particle.itype o
  /\ Particle.nonspatial g = Particle.nonspatial o
  /\ length (Particle.r g) = length (Particle.r o)
  /\ length (Particle.v g) = length (Particle.v o)
  /\ (forall k, ~ swept ndim k ->
        Particle.r g !! k = Particle.r o !! k /\ Particle.v g !! k = Particle.v o !! k).

(** An inactive copy of [o], up to the swept components. *)
Definition copy_of (ndim : nat) (g o : Particle.t) : Prop :=
  Particle.active g = false /\ alike ndim g o.

(** The state [s] of a ghost search that started from [sph0]: the sizes and
    the real particles are those of [sph0], and every ghost made so far is an
    inactive copy of the real particle it names. *)
Definition ghost_frame (ndim : nat) (sph0 s : Sph) : Prop :=
  Nsph s = Nsph sph0
  /\ Nsphmax s = Nsphmax sph0
  /\ Nghostmax s = (Z.of_nat (Nsphmax sph0) - Z.of_nat (Nsph sph0))%Z
  /\ length (sphdata s) = length (sphdata sph0)
  /\ (forall i, (i < Nsph sph0)%nat -> sphdata s !! i = sphdata sph0 !! i)
  /\ (forall j, (Nsph sph0 <= j < Nsph sph0 + Nghost s)%nat ->
        exists g o, sphdata s !! j = Some g
                    /\ (Particle.iorig g < Nsph sph0)%nat
                    /\ sphdata sph0 !! Particle.iorig g = Some o
                    /\ copy_of ndim g o).

End GhostFrame.

(** ** The total of the accumulated fluxes *)

Module FluxSpec.

(** The sum over an array of particles of component [var] of [dQdt]. *)
Definition total_dQdt (var : nat) (l : list Particle.t) : Q :=
  fold_right (fun p acc => vget (Particle.dQdt p) var + acc) 0 l.

(** [p'] is [p] but for its [dQdt]. *)
Definition same_but_dQdt (p' p : Particle.t) : Prop :=
  p' = Particle.set_dQdt (Particle.dQdt p') p.

End FluxSpec.

(** ** The neighbours a gather loop accepts *)

Module GatherSpec.

Import SphTree.

(** The squared distance the loop computes for entry [jj] of the local
    copies, softening included. *)
Definition sqdist (this : GradhSphTree) (active : Particle.t) (b : Scratch) (jj : nat)
  : FLOAT :=
  let draux :=
    map (fun k => vget (r b) (ndim this * jj + k) - vget (Particle.r active) k)
        (seq 0 (ndim this)) in
  DotProduct draux draux (ndim this) + small_number this.

(** The two tests an entry must pass: the type mask and the range. *)
Definition within (this : GradhSphTree) (sph : SphSolver) (active : Particle.t)
    (hrangesqd : FLOAT) (b : Scratch) (jj : nat) : bool :=
  hmask sph (Particle.ptype active) (default 0%nat (ptype b !! jj))
  && Qleb (sqdist this active b jj) hrangesqd.

(** The entries among the first [Nneib] that pass, in order. *)
Definition accepted (this : GradhSphTree) (sph : SphSolver) (active : Particle.t)
    (hrangesqd : FLOAT) (b : Scratch) (Nneib : nat) : list nat :=
  List.filter (within this sph active hrangesqd b) (seq 0 Nneib).

End GatherSpec.

(** ** [MfvRungeKutta::ComputePsiFactors] *)

Module Psi.

(** [part.B = x]. *)
Definition set_B (x : list vec) (p : Particle.t) : Particle.t :=
  Particle.mk (Particle.r p) (Particle.v p) (Particle.m p) (Particle.h p)
    (Particle.iorig p) (Particle.itype p) (Particle.ptype p) (Particle.active p)
    (Particle.sinkid p) (Particle.gpot p) (Particle.potmin p) (Particle.ndens p)
    (Particle.invomega p) (Particle.zeta p) (Particle.invh p) (Particle.hfactor p)
    (Particle.volume p) (Particle.rho p) (Particle.invrho p) (Particle.hrangesqd p)
    (Particle.div_v p) x (Particle.Wprim p) (Particle.dQdt p).

(** [M[k][kk]] read and [M[k][kk] = x] written on an array of rows. *)
Definition mget (M : list vec) (k kk : nat) : FLOAT := vget (nth k M []) kk.

Definition mset (k kk : nat) (x : FLOAT) (M : list vec) : list vec :=
  <[k := vset kk x (nth k M [])]> M.

(** "Zero all matrices": the local [E] and [part.B], in one loop nest. *)
Definition zero_matrices (n : nat) (st : list vec * Particle.t) : list vec * Particle.t :=
  for_range n
    (fun k st =>
       for_range n
         (fun kk '(E, part) =>
            (mset k kk 0 E, set_B (mset k kk 0 (Particle.B part)) part))
         st)
    st.

(** The contribution of one neighbour:
    [E[k][kk] += draux[k]*draux[kk]*part.hfactor*kern.w0_s2(drsqd*invhsqd)/part.ndens]. *)
Definition add_moments (this : MfvRungeKutta) (invhsqd : FLOAT)
    (part neib : Particle.t) (E : list vec) : list vec :=
  let n := ndim this in
  let draux := Mfv.vinit n (fun k => vget (Particle.r neib) k - vget (Particle.r part) k) in
  let drsqd := DotProduct draux draux n in
  for_range n
    (fun k E =>
       for_range n
         (fun kk E =>
            mset k kk
              (mget E k kk
               + vget draux k * vget draux kk * Particle.hfactor part
                 * w0_s2 (kern this) (drsqd * invhsqd) / Particle.ndens part) E)
         E)
    E.

(** The local [E] and the particle when the loop over the neighbours has
    ended.  A fresh [E] is unspecified; zeros stand for it (it is zeroed
    before it is read). *)
Definition neighbour_moments (this : MfvRungeKutta) (Nneib : nat) (neiblist : list nat)
    (part : Particle.t) (neibpart : list Particle.t) : result (list vec * Particle.t) :=
  let n := ndim this in
  let invhsqd := Particle.invh part * Particle.invh part in
  let '(E, part) := zero_matrices n (replicate n (replicate n 0), part) in
  E ← for_rangeM Nneib
         (fun jj E =>
            j ← read neiblist jj;
            neib ← read neibpart j;
            Ok (add_moments this invhsqd part neib E))
         E;
  Ok (E, part).

(** "Invert the matrix (depending on dimensionality)". *)
Definition invert (n : nat) (E B : list vec) : list vec :=
  if (n =? 1)%nat then mset 0 0 (1 / mget E 0 0) B
  else if (n =? 2)%nat then
    let invdet := 1 / (mget E 0 0 * mget E 1 1 - mget E 0 1 * mget E 1 0) in
    let B := mset 0 0 (invdet * mget E 1 1) B in
    let B := mset 0 1 (- (1) * invdet * mget E 0 1) B in
    let B := mset 1 0 (- (1) * invdet * mget E 1 0) B in
    mset 1 1 (invdet * mget E 0 0) B
  else if (n =? 3)%nat then
    let invdet :=
      1 / (mget E 0 0 * (mget E 1 1 * mget E 2 2 - mget E 2 1 * mget E 1 2)
           - mget E 0 1 * (mget E 1 0 * mget E 2 2 - mget E 1 2 * mget E 2 0)
           + mget E 0 2 * (mget E 1 0 * mget E 2 1 - mget E 1 1 * mget E 2 0)) in
    let B := mset 0 0 ((mget E 1 1 * mget E 2 2 - mget E 2 1 * mget E 1 2) * invdet) B in
    let B := mset 0 1 ((mget E 0 2 * mget E 2 1 - mget E 0 1 * mget E 2 2) * invdet) B in
    let B := mset 0 2 ((mget E 0 1 * mget E 1 2 - mget E 0 2 * mget E 1 1) * invdet) B in
    let B := mset 1 0 ((mget E 1 2 * mget E 2 0 - mget E 1 0 * mget E 2 2) * invdet) B in
    let B := mset 1 1 ((mget E 0 0 * mget E 2 2 - mget E 0 2 * mget E 2 0) * invdet) B in
    let B := mset 1 2 ((mget E 1 0 * mget E 0 2 - mget E 0 0 * mget E 1 2) * invdet) B in
    let B := mset 2 0 ((mget E 1 0 * mget E 2 1 - mget E 2 0 * mget E 1 1) * invdet) B in
    let B := mset 2 1 ((mget E 2 0 * mget E 0 1 - mget E 0 0 * mget E 2 1) * invdet) B in
    mset 2 2 ((mget E 0 0 * mget E 1 1 - mget E 1 0 * mget E 0 1) * invdet) B
  else B.

(** [MfvRungeKutta::ComputePsiFactors].  The arguments [drmag], [invdrmag]
    and [dr] are not used by the routine and are left out. *)
Definition ComputePsiFactors (this : MfvRungeKutta) (i : nat) (Nneib : nat)
    (neiblist : list nat) (part : Particle.t) (neibpart : list Particle.t)
  : result Particle.t :=
  '(E, part) ← neighbour_moments this Nneib neiblist part neibpart;
  Ok (set_B (invert (ndim this) E (Particle.B part)) part).

End Psi.

(** ** Matrices, for the statements about [ComputePsiFactors] *)

Module PsiSpec.

Import Psi.

(** An array of [rows] rows of [cols] entries. *)
Definition array2 (rows cols : nat) (M : list vec) : Prop :=
  length M = rows /\ Forall (fun row => length row = cols) M.

(** The determinant as the routine writes it, for the three cases. *)
Definition det (n : nat) (E : list vec) : FLOAT :=
  if (n =? 1)%nat then mget E 0 0
  else if (n =? 2)%nat then mget E 0 0 * mget E 1 1 - mget E 0 1 * mget E 1 0
  else mget E 0 0 * (mget E 1 1 * mget E 2 2 - mget E 2 1 * mget E 1 2)
       - mget E 0 1 * (mget E 1 0 * mget E 2 2 - mget E 1 2 * mget E 2 0)
       + mget E 0 2 * (mget E 1 0 * mget E 2 1 - mget E 1 1 * mget E 2 0).

(** Entry [(k, kk)] of the product of two [n] by [n] matrices, and of the
    identity. *)
Definition product (n : nat) (A B : list vec) (k kk : nat) : FLOAT :=
  for_range n (fun l acc => acc + mget A k l * mget B l kk) 0.

Definition identity (k kk : nat) : FLOAT := if (k =? kk)%nat then 1 else 0.

End PsiSpec.

(** ** [MfvRungeKutta::ComputeGradients] *)

Module Grad.

Import Psi.

(** Modelled from the spec: the meshless particle (MeshlessFVParticle) is not
    among the sources.  Beside the members of [Particle.t] it carries the
    ones [ComputeGradients] names (the sound speed, the maximum signal
    velocity, the regularisation velocity, the gradients [grad[var][k]] of
    the primitive variables, and the extrema for the slope limiters) and the
    gravitational acceleration the gravity routines add to. *)
Record FVParticle : Type := {
  base : Particle.t;
  agrav : vec;
  sound : FLOAT;
  vsig_max : FLOAT;
  vreg : vec;
  grad : list vec;
  Wmin : vec;
  Wmax : vec;
  Wmidmin : vec;
  Wmidmax : vec
}.

Definition set_vsig_max (x : FLOAT) (p : FVParticle) : FVParticle :=
  {| base := base p; agrav := agrav p; sound := sound p; vsig_max := x; vreg := vreg p;
     grad := grad p;
     Wmin := Wmin p; Wmax := Wmax p; Wmidmin := Wmidmin p; Wmidmax := Wmidmax p |}.

Definition set_vreg (x : vec) (p : FVParticle) : FVParticle :=
  {| base := base p; agrav := agrav p; sound := sound p; vsig_max := vsig_max p;
     vreg := x; grad := grad p;
     Wmin := Wmin p; Wmax := Wmax p; Wmidmin := Wmidmin p; Wmidmax := Wmidmax p |}.

Definition set_grad (x : list vec) (p : FVParticle) : FVParticle :=
  {| base := base p; agrav := agrav p; sound := sound p; vsig_max := vsig_max p;
     vreg := vreg p; grad := x;
     Wmin := Wmin p; Wmax := Wmax p; Wmidmin := Wmidmin p; Wmidmax := Wmidmax p |}.

(** The four arrays of extrema, written together for one [var]. *)
Definition set_limits (wmin wmax wmidmin wmidmax : vec) (p : FVParticle) : FVParticle :=
  {| base := base p; agrav := agrav p; sound := sound p; vsig_max := vsig_max p;
     vreg := vreg p; grad := grad p;
     Wmin := wmin; Wmax := wmax; Wmidmin := wmidmin; Wmidmax := wmidmax |}.

(** [std::min]. *)
Definition min (a b : FLOAT) : FLOAT := if Qltb b a then b else a.

(** "Initialise/zero all variables to be updated in this routine";
    [big_number] is the constant of the class. *)
Definition ComputeGradients_init (this : MfvRungeKutta) (big_number : FLOAT)
    (part : FVParticle) : FVParticle :=
  let part := set_vsig_max 0 part in
  let part := set_vreg (for_range (ndim this) (fun k a => vset k 0 a) (vreg part)) part in
  let part :=
    set_grad
      (for_range (ndim this)
         (fun k g => for_range (nvar this) (fun var g => mset var k 0 g) g)
         (grad part))
      part in
  for_range (nvar this)
    (fun var part =>
       set_limits
         (vset var (vget (Particle.Wprim (base part)) var) (Wmin part))
         (vset var (vget (Particle.Wprim (base part)) var) (Wmax part))
         (vset var big_number (Wmidmin part))
         (vset var (- big_number) (Wmidmax part))
         part)
    part.

(** "Calculate psitilda values". *)
Definition psitilda (this : MfvRungeKutta) (part : FVParticle) (draux : vec)
    (drsqd invhsqd : FLOAT) : vec :=
  let n := ndim this in
  let ps := for_range n (fun k a => vset k 0 a) (replicate n 0) in
  for_range n
    (fun k ps =>
       for_range n
         (fun kk ps =>
            vset k
              (vget ps k
               + mget (Particle.B (base part)) k kk * vget draux kk
                 * Particle.hfactor (base part)
                 * w0_s2 (kern this) (drsqd * invhsqd) / Particle.ndens (base part))
              ps)
         ps)
    ps.

(** The body of the first loop over the neighbours, for list entry [jj]:
    the contribution to the gradients, the signal velocity, and the
    regularisation velocity.  [sqrtf] is the member [sqrt]. *)
Definition gradient_neib (this : MfvRungeKutta) (invhsqd : FLOAT) (neiblist : list nat)
    (neibpart : list FVParticle) (jj : nat) (part : FVParticle) : result FVParticle :=
  j ← read neiblist jj;
  neib ← read neibpart j;
  let n := ndim this in
  let draux :=
    Mfv.vinit n (fun k => vget (Particle.r (base neib)) k - vget (Particle.r (base part)) k) in
  let dv :=
    Mfv.vinit n (fun k => vget (Particle.v (base neib)) k - vget (Particle.v (base part)) k) in
  let dvdr := DotProduct dv draux n in
  let drsqd := DotProduct draux draux n in
  let ps := psitilda this part draux drsqd invhsqd in
  let part :=
    set_grad
      (for_range (nvar this)
         (fun var g =>
            for_range n
              (fun k g =>
                 mset var k
                   (mget g var k
                    + (vget (Particle.Wprim (base neib)) var
                       - vget (Particle.Wprim (base part)) var) * vget ps k) g)
              g)
         (grad part))
      part in
  let part :=
    set_vsig_max
      (Mfv.max (vsig_max part)
         (sound part + sound neib
          - min 0 (dvdr / (sqrt this drsqd + small_number this))))
      part in
  Ok (set_vreg
        (for_range n
           (fun k a => vset k (vget a k - vget draux k * w0_s2 (kern this) (drsqd * invhsqd)) a)
           (vreg part))
        part).

(** The body of the second loop, "Find all max and min values for meshless
    slope limiters", for list entry [jj]; the two assertions are inside the
    loop over [var]. *)
Definition limits_neib (this : MfvRungeKutta) (neiblist : list nat)
    (neibpart : list FVParticle) (jj : nat) (part : FVParticle) : result FVParticle :=
  j ← read neiblist jj;
  neib ← read neibpart j;
  let n := ndim this in
  let draux :=
    Mfv.vinit n (fun k => vget (Particle.r (base neib)) k - vget (Particle.r (base part)) k) in
  for_rangeM (nvar this)
    (fun var part =>
       let mid :=
         vget (Particle.Wprim (base part)) var
         + (1 # 2) * DotProduct (nth var (grad part) []) draux n in
       let part :=
         set_limits
           (vset var (min (vget (Wmin part) var) (vget (Particle.Wprim (base neib)) var))
              (Wmin part))
           (vset var (Mfv.max (vget (Wmax part) var) (vget (Particle.Wprim (base neib)) var))
              (Wmax part))
           (vset var (min (vget (Wmidmin part) var) mid) (Wmidmin part))
           (vset var (Mfv.max (vget (Wmidmax part) var) mid) (Wmidmax part))
           part in
       _ ← assert (Qleb (vget (Wmidmin part) var) (vget (Wmidmax part) var));
       _ ← assert (Qleb (vget (Wmin part) var) (vget (Wmax part) var));
       Ok part)
    part.

(** [MfvRungeKutta::ComputeGradients].  The arguments [drmag], [invdrmag] and
    [dr] are not used by the routine and are left out. *)
Definition ComputeGradients (this : MfvRungeKutta) (big_number : FLOAT) (i : nat)
    (Nneib : nat) (neiblist : list nat) (part : FVParticle) (neibpart : list FVParticle)
  : result FVParticle :=
  let invhsqd := Particle.invh (base part) * Particle.invh (base part) in
  let part := ComputeGradients_init this big_number part in
  part ← for_rangeM Nneib (gradient_neib this invhsqd neiblist neibpart) part;
  let part :=
    set_vreg
      (for_range (ndim this)
         (fun k a => vset k (vget a k * (Particle.invh (base part) * sound part)) a)
         (vreg part))
      part in
  part ← for_rangeM Nneib (limits_neib this neiblist neibpart) part;
  _ ← assert (Qleb (sound part) (vsig_max part));
  Ok part.

End Grad.

(** ** Linear fields, for the statements about [ComputeGradients] *)

Module GradSpec.

Import Psi Grad.

(** Variable [var] of the neighbour differs from the particle's by the
    slope [g] applied to the separation [neibpart[j].r - part.r]. *)
Definition linear_in (this : MfvRungeKutta) (var : nat) (g : vec)
    (part neib : FVParticle) : Prop :=
  vget (Particle.Wprim (base neib)) var - vget (Particle.Wprim (base part)) var
  == DotProduct g
       (Mfv.vinit (ndim this)
          (fun k => vget (Particle.r (base neib)) k - vget (Particle.r (base part)) k))
       (ndim this).

(** Component [k] of [B E g]. *)
Definition contracted (n : nat) (B E : list vec) (g : vec) (k : nat) : FLOAT :=
  for_range n
    (fun kk acc =>
       acc + mget B k kk * for_range n (fun l acc => acc + mget E kk l * vget g l) 0)
    0.

End GradSpec.

(** ** Concrete data for the examples on gradients *)

Module GradExamples.

Import Grad.

(** A gas particle on the line at [x], of unit smoothing length and number
    density, with density [rho] in its primitive state and [B] as given. *)
Definition gas1d (x rho : FLOAT) (B : list vec) : Particle.t :=
  {| Particle.r := [x]; Particle.v := [0]; Particle.m := 1; Particle.h := 1;
     Particle.iorig := 0; Particle.itype := gas; Particle.ptype := 0;
     Particle.active := true; Particle.sinkid := -1; Particle.gpot := 0;
     Particle.potmin := false; Particle.ndens := 1; Particle.invomega := 1;
     Particle.zeta := 0; Particle.invh := 1; Particle.hfactor := 1;
     Particle.volume := 1; Particle.rho := rho; Particle.invrho := 1;
     Particle.hrangesqd := 4; Particle.div_v := 0; Particle.B := B;
     Particle.Wprim := [0; rho; 1]; Particle.dQdt := [0; 0; 0] |}.

(** The meshless particle over [p], of unit sound speed, with nothing
    computed yet. *)
Definition fv (p : Particle.t) : FVParticle :=
  {| base := p; agrav := [0]; sound := 1; vsig_max := 0; vreg := [0];
     grad := [[0]; [0]; [0]];
     Wmin := [0; 0; 0]; Wmax := [0; 0; 0]; Wmidmin := [0; 0; 0]; Wmidmax := [0; 0; 0] |}.

(** A density that grows by 2 per unit length: the particle at 0 and its
    two neighbours at 1 and -1. *)
Definition centre : Particle.t := gas1d 0 1 [[1]].

Definition sides : list FVParticle := [fv (gas1d 1 3 [[1]]); fv (gas1d (- (1)) (- (1)) [[1]])].

(** The particle at 0 as [ComputePsiFactors] leaves it. *)
Definition centre_psi : Particle.t :=
  Eval vm_compute in
    match Psi.ComputePsiFactors (Examples.mfv 1 0 1 1 0) 0 2 [0; 1]%nat centre
            (base <$> sides) with
    | Ok p => p
    | _ => centre
    end.

End GradExamples.

(** ** The gravity routines of [MfvRungeKutta] *)

Module Grav.

Import Grad.

(** [part.gpot = x]. *)
Definition set_gpot (x : FLOAT) (p : Particle.t) : Particle.t :=
  Particle.mk (Particle.r p) (Particle.v p) (Particle.m p) (Particle.h p)
    (Particle.iorig p) (Particle.itype p) (Particle.ptype p) (Particle.active p)
    (Particle.sinkid p) x (Particle.potmin p) (Particle.ndens p)
    (Particle.invomega p) (Particle.zeta p) (Particle.invh p) (Particle.hfactor p)
    (Particle.volume p) (Particle.rho p) (Particle.invrho p) (Particle.hrangesqd p)
    (Particle.div_v p) (Particle.B p) (Particle.Wprim p) (Particle.dQdt p).

(** [parti.agrav[k] += f(k)] for every [k], then [parti.gpot += g]. *)
Definition add_gravity (n : nat) (f : nat -> FLOAT) (g : FLOAT) (p : FVParticle)
  : FVParticle :=
  {| base := set_gpot (Particle.gpot (base p) + g) (base p);
     agrav := for_range n (fun k a => vset k (vget a k + f k) a) (agrav p);
     sound := sound p; vsig_max := vsig_max p; vreg := vreg p; grad := grad p;
     Wmin := Wmin p; Wmax := Wmax p; Wmidmin := Wmidmin p; Wmidmax := Wmidmax p |}.

(** The kernel functions of the gravity routines ([kern.wgrav], [kern.w1],
    [kern.wpot]); like the others they are taken as given. *)
Record GravKernel : Type := {
  wgrav : FLOAT -> FLOAT;
  w1 : FLOAT -> FLOAT;
  wpot : FLOAT -> FLOAT
}.

(** The body of the loop of [ComputeSmoothedGravForces] for list entry
    [jj]. *)
Definition smoothed_neib (this : MfvRungeKutta) (gk : GravKernel) (neiblist : list nat)
    (neibpart : list FVParticle) (jj : nat) (parti : FVParticle) : result FVParticle :=
  j ← read neiblist jj;
  neib ← read neibpart j;
  _ ← assert (negb (parttype_eqb (Particle.itype (base neib)) dead));
  let n := ndim this in
  let dr :=
    Mfv.vinit n (fun k => vget (Particle.r (base neib)) k - vget (Particle.r (base parti)) k) in
  let drmag := sqrt this (DotProduct dr dr n + small_number this) in
  let invdrmag := 1 / drmag in
  let dr := for_range n (fun k a => vset k (vget a k * invdrmag) a) dr in
  let pi := base parti in
  let pj := base neib in
  let paux :=
    (1 # 2) * (Particle.invh pi * Particle.invh pi * wgrav gk (drmag * Particle.invh pi)
               + Particle.zeta pi * Particle.hfactor pi * w1 gk (drmag * Particle.invh pi)
               + Particle.invh pj * Particle.invh pj * wgrav gk (drmag * Particle.invh pj)
               + Particle.zeta pj * Particle.hfactor pj * w1 gk (drmag * Particle.invh pj)) in
  let gaux :=
    (1 # 2) * (Particle.invh pi * wpot gk (drmag * Particle.invh pi)
               + Particle.invh pj * wpot gk (drmag * Particle.invh pj)) in
  Ok (add_gravity n (fun k => Particle.m pj * vget dr k * paux) (Particle.m pj * gaux) parti).

(** [MfvRungeKutta::ComputeSmoothedGravForces]. *)
Definition ComputeSmoothedGravForces (this : MfvRungeKutta) (gk : GravKernel) (i : nat)
    (Nneib : nat) (neiblist : list nat) (part : FVParticle) (neibpart : list FVParticle)
  : result FVParticle :=
  for_rangeM Nneib (smoothed_neib this gk neiblist neibpart) part.

(** The body of the loop of [ComputeDirectGravForces] for list entry [jj]. *)
Definition direct_neib (this : MfvRungeKutta) (directlist : list nat)
    (neibdata : list FVParticle) (jj : nat) (parti : FVParticle) : result FVParticle :=
  j ← read directlist jj;
  neib ← read neibdata j;
  _ ← assert (negb (parttype_eqb (Particle.itype (base neib)) dead));
  let n := ndim this in
  let dr :=
    Mfv.vinit n (fun k => vget (Particle.r (base neib)) k - vget (Particle.r (base parti)) k) in
  let drsqd := DotProduct dr dr n + small_number this in
  let invdrmag := 1 / sqrt this drsqd in
  let invdr3 := invdrmag * invdrmag * invdrmag in
  Ok (add_gravity n (fun k => Particle.m (base neib) * vget dr k * invdr3)
        (Particle.m (base neib) * invdrmag) parti).

(** [MfvRungeKutta::ComputeDirectGravForces]. *)
Definition ComputeDirectGravForces (this : MfvRungeKutta) (i : nat) (Ndirect : nat)
    (directlist : list nat) (part : FVParticle) (neibdata : list FVParticle)
  : result FVParticle :=
  for_rangeM Ndirect (direct_neib this directlist neibdata) part.

(** Modelled from the spec: the star particle (NbodyParticle) is not among
    the sources; these are the members [ComputeStarGravForces] reads. *)
Record NbodyParticle : Type := {
  star_m : FLOAT;
  star_h : FLOAT;
  star_r : vec
}.

(** The body of the loop of [ComputeStarGravForces] for star [j]; the two
    assertions come after the sums. *)
Definition star_force (this : MfvRungeKutta) (gk : GravKernel)
    (nbodydata : list NbodyParticle) (j : nat) (parti : FVParticle) : result FVParticle :=
  star ← read nbodydata j;
  let n := ndim this in
  let ms := star_m star in
  let dr := Mfv.vinit n (fun k => vget (star_r star) k - vget (Particle.r (base parti)) k) in
  let drsqd := DotProduct dr dr n + small_number this in
  let drmag := sqrt this drsqd in
  let invdrmag := 1 / drmag in
  let invhmean := 2 / (Particle.h (base parti) + star_h star) in
  let paux := ms * invhmean * invhmean * wgrav gk (drmag * invhmean) * invdrmag in
  let parti :=
    add_gravity n (fun k => paux * vget dr k) (ms * invhmean * wpot gk (drmag * invhmean))
      parti in
  _ ← assert (Qgtb drmag 0);
  _ ← assert (Qgtb (drmag * invhmean) 0);
  Ok parti.

(** [MfvRungeKutta::ComputeStarGravForces]. *)
Definition ComputeStarGravForces (this : MfvRungeKutta) (gk : GravKernel) (N : nat)
    (nbodydata : list NbodyParticle) (part : FVParticle) : result FVParticle :=
  for_rangeM N (star_force this gk nbodydata) part.

End Grav.

(** ** What the gravity routines may change *)

Module GravSpec.

Import Grad Grav.

(** [p'] is [p] but for its potential and its gravitational acceleration,
    which keeps its length. *)
Definition same_but_gravity (p' p : FVParticle) : Prop :=
  p' = {| base := set_gpot (Particle.gpot (base p')) (base p); agrav := agrav p';
          sound := sound p; vsig_max := vsig_max p; vreg := vreg p; grad := grad p;
          Wmin := Wmin p; Wmax := Wmax p; Wmidmin := Wmidmin p; Wmidmax := Wmidmax p |}
  /\ length (agrav p') = length (agrav p).

(** Every one of the first [N] entries of the list names a particle of the
    array that is not dead. *)
Definition all_alive (N : nat) (neiblist : list nat) (neibpart : list FVParticle) : Prop :=
  forall jj, (jj < N)%nat ->
    exists j neib, neiblist !! jj = Some j /\ neibpart !! j = Some neib
                   /\ Particle.itype (base neib) <> dead.

(** One of them names a dead particle. *)
Definition some_dead (N : nat) (neiblist : list nat) (neibpart : list FVParticle) : Prop :=
  exists jj j neib, (jj < N)%nat /\ neiblist !! jj = Some j /\ neibpart !! j = Some neib
                    /\ Particle.itype (base neib) = dead.

End GravSpec.

(** ** [Simulation::CopyAccelerationFromGhosts] (SimGhostParticles.cpp) *)

Module Accel.

(** Modelled from the spec: beside the members of [Particle.t], the SPH
    particle carries the acceleration [a] and the heating rate [dudt] that
    [CopyAccelerationFromGhosts] adds up. *)
Record SphParticle : Type := {
  sph_base : Particle.t;
  a : vec;
  dudt : FLOAT
}.

Definition set_a (x : vec) (p : SphParticle) : SphParticle :=
  {| sph_base := sph_base p; a := x; dudt := dudt p |}.

Definition set_dudt (x : FLOAT) (p : SphParticle) : SphParticle :=
  {| sph_base := sph_base p; a := a p; dudt := x |}.

Definition set_sph_div_v (x : FLOAT) (p : SphParticle) : SphParticle :=
  {| sph_base := Particle.set_div_v x (sph_base p); a := a p; dudt := dudt p |}.

(** The body of the loop for ghost [j].  Every [+=] reads both array
    elements again, as the source does. *)
Definition CopyAccelerationFromGhosts_ghost (ndim Nsph j : nat) (data : list SphParticle)
  : result (list SphParticle) :=
  let i := (Nsph + j)%nat in
  ghost ← read data i;
  let iorig := Particle.iorig (sph_base ghost) in
  orig ← read data iorig;
  if negb (Particle.active (sph_base orig)) then Ok data
  else
    data ← for_rangeM ndim
              (fun k data =>
                 o ← read data iorig;
                 g ← read data i;
                 write data iorig (set_a (vset k (vget (a o) k + vget (a g) k) (a o)) o))
              data;
    o ← read data iorig;
    g ← read data i;
    data ← write data iorig (set_dudt (dudt o + dudt g) o);
    o ← read data iorig;
    g ← read data i;
    write data iorig
      (set_sph_div_v (Particle.div_v (sph_base o) + Particle.div_v (sph_base g)) o).

(** [Simulation::CopyAccelerationFromGhosts], on the array and the two
    counters of the SPH object.  The source runs the iterations in parallel
    with atomic additions; here they run in order. *)
Definition CopyAccelerationFromGhosts (ndim Nsph Nghost : nat) (data : list SphParticle)
  : result (list SphParticle) :=
  for_rangeM Nghost (CopyAccelerationFromGhosts_ghost ndim Nsph) data.

End Accel.

(** ** What the ghosts of a particle hold together *)

Module AccelSpec.

Import Accel.

(** The sum of [f] over the first [n] ghosts whose original is [i0]. *)
Definition ghosts_of (f : SphParticle -> Q) (Nsph n : nat) (data : list SphParticle)
    (i0 : nat) : Q :=
  for_range n
    (fun j acc =>
       match data !! (Nsph + j)%nat with
       | Some g => if (Particle.iorig (sph_base g) =? i0)%nat then acc + f g else acc
       | None => acc
       end)
    0.

(** [o'] is [o] but for the three members the routine adds to. *)
Definition same_but_sums (o' o : SphParticle) : Prop :=
  Particle.set_div_v (Particle.div_v (sph_base o)) (sph_base o') = sph_base o
  /\ length (a o') = length (a o).

End AccelSpec.

(** * Properties *)

(** ** Generic facts: comparisons, vectors, loops *)

Lemma Qltb_lt (x y : Q) : Qltb x y = true <-> x < y.
Proof.
  unfold Qltb. rewrite negb_true_iff, <- not_true_iff_false, Qle_bool_iff.
  split; intros; lra.
Qed.

Lemma Qltb_ge (x y : Q) : Qltb x y = false <-> y <= x.
Proof.
  unfold Qltb. rewrite negb_false_iff, Qle_bool_iff. tauto.
Qed.

Lemma Qgtb_gt (x y : Q) : Qgtb x y = true <-> y < x.
Proof. apply Qltb_lt. Qed.

Lemma Qgtb_le (x y : Q) : Qgtb x y = false <-> x <= y.
Proof. apply Qltb_ge. Qed.

Lemma Qleb_le (x y : Q) : Qleb x y = true <-> x <= y.
Proof. apply Qle_bool_iff. Qed.

Lemma vget_vset_eq (a : vec) (k : nat) (x : Q) :
  (k < length a)%nat -> vget (vset k x a) k = x.
Proof.
  intros Hk. unfold vget, vset. by rewrite list_lookup_insert_eq.
Qed.

Lemma vget_vset_ne (a : vec) (k k' : nat) (x : Q) :
  k <> k' -> vget (vset k x a) k' = vget a k'.
Proof.
  intros Hk. unfold vget, vset. by rewrite list_lookup_insert_ne.
Qed.

Lemma length_vset (a : vec) (k : nat) (x : Q) : length (vset k x a) = length a.
Proof. apply length_insert. Qed.

Lemma r_set_r_k_eq (p : Particle.t) (k : nat) (x : Q) :
  (k < length (Particle.r p))%nat -> vget (Particle.r (Particle.set_r_k k x p)) k = x.
Proof. intros Hk. cbn. by apply vget_vset_eq. Qed.

Lemma r_set_r_k_ne (p : Particle.t) (k k' : nat) (x : Q) :
  k <> k' -> vget (Particle.r (Particle.set_r_k k x p)) k' = vget (Particle.r p) k'.
Proof. intros Hk. cbn. by apply vget_vset_ne. Qed.

Lemma length_r_set_r_k (p : Particle.t) (k : nat) (x : Q) :
  length (Particle.r (Particle.set_r_k k x p)) = length (Particle.r p).
Proof. cbn. apply length_vset. Qed.

Lemma v_set_v_k_eq (p : Particle.t) (k : nat) (x : Q) :
  (k < length (Particle.v p))%nat -> vget (Particle.v (Particle.set_v_k k x p)) k = x.
Proof. intros Hk. cbn. by apply vget_vset_eq. Qed.

Lemma v_set_v_k_ne (p : Particle.t) (k k' : nat) (x : Q) :
  k <> k' -> vget (Particle.v (Particle.set_v_k k x p)) k' = vget (Particle.v p) k'.
Proof. intros Hk. cbn. by apply vget_vset_ne. Qed.

Lemma for_range_S {S : Type} (n : nat) (body : nat -> S -> S) (s : S) :
  for_range (Datatypes.S n) body s = body n (for_range n body s).
Proof.
  unfold for_range. rewrite seq_S, fold_left_app. reflexivity.
Qed.

(** A loop that alters slot [i] at step [i] has altered exactly the slots
    below its bound. *)
Lemma for_range_alter {A : Type} (f : A -> A) (n : nat) (l : list A) (i : nat) :
  for_range n (fun i l => alter f i l) l !! i
  = if (i <? n)%nat then f <$> l !! i else l !! i.
Proof.
  induction n as [|n IH].
  - reflexivity.
  - rewrite for_range_S.
    destruct (decide (i = n)) as [->|Hne].
    + rewrite list_lookup_alter_eq, IH.
      rewrite (proj2 (Nat.ltb_ge n n)) by lia.
      rewrite (proj2 (Nat.ltb_lt n (Datatypes.S n))) by lia. reflexivity.
    + rewrite list_lookup_alter_ne by done. rewrite IH.
      destruct (i <? n)%nat eqn:E1, (i <? Datatypes.S n)%nat eqn:E2; try reflexivity.
      * apply Nat.ltb_lt in E1. apply Nat.ltb_ge in E2. lia.
      * apply Nat.ltb_ge in E1. apply Nat.ltb_lt in E2. lia.
Qed.

(** ** Boundaries: [CheckBoundaries] *)

Section CheckBoundaries.

Import Simulation BoundarySpec.

Lemma CheckBoundaries_dim_v simbox k lhs rhs p :
  Particle.v (CheckBoundaries_dim simbox k lhs rhs p) = Particle.v p.
Proof.
  unfold CheckBoundaries_dim.
  repeat match goal with |- context [if ?b then _ else _] => destruct b end;
    reflexivity.
Qed.

Lemma CheckBoundaries_dim_length simbox k lhs rhs p :
  length (Particle.r (CheckBoundaries_dim simbox k lhs rhs p)) = length (Particle.r p).
Proof.
  unfold CheckBoundaries_dim.
  repeat match goal with |- context [if ?b then _ else _] => destruct b end;
    cbn; rewrite ?length_vset; reflexivity.
Qed.

Lemma CheckBoundaries_dim_other simbox k lhs rhs p d :
  d <> k ->
  vget (Particle.r (CheckBoundaries_dim simbox k lhs rhs p)) d = vget (Particle.r p) d.
Proof.
  intros Hd. unfold CheckBoundaries_dim.
  repeat match goal with |- context [if ?b then _ else _] => destruct b end;
    cbn; rewrite ?vget_vset_ne by congruence; reflexivity.
Qed.

(** Faces that are not periodic, mirror faces among them, leave the
    coordinate alone. *)
Lemma CheckBoundaries_dim_not_periodic simbox k lhs rhs p :
  lhs <> "periodic"%string -> rhs <> "periodic"%string ->
  CheckBoundaries_dim simbox k lhs rhs p = p.
Proof.
  intros Hl Hr. unfold CheckBoundaries_dim.
  apply String.eqb_neq in Hl, Hr. rewrite Hl, Hr.
  repeat match goal with |- context [if ?b then _ else _] => destruct b end;
    reflexivity.
Qed.

(** Two periodic faces: one box length is added or subtracted, once. *)
Lemma CheckBoundaries_dim_periodic simbox k p :
  (k < length (Particle.r p))%nat ->
  vget (boxsize simbox) k == vget (boxmax simbox) k - vget (boxmin simbox) k ->
  0 <= vget (boxsize simbox) k ->
  let x := vget (Particle.r p) k in
  let x' := vget (Particle.r (CheckBoundaries_dim simbox k "periodic" "periodic" p)) k in
  (x < vget (boxmin simbox) k -> x' = x + vget (boxsize simbox) k)
  /\ (vget (boxmax simbox) k < x -> x' = x - vget (boxsize simbox) k)
  /\ (vget (boxmin simbox) k <= x <= vget (boxmax simbox) k -> x' = x).
Proof.
  intros Hk Hsize Hpos x x'. subst x x'. unfold CheckBoundaries_dim.
  change (String.eqb "periodic" "periodic") with true. cbv iota.
  destruct (Qltb (vget (Particle.r p) k) (vget (boxmin simbox) k)) eqn:E1.
  - apply Qltb_lt in E1. cbv zeta. rewrite r_set_r_k_eq by done.
    destruct (Qgtb _ _) eqn:E2.
    + apply Qgtb_gt in E2. lra.
    + rewrite r_set_r_k_eq by done.
      repeat split; intros; try reflexivity; lra.
  - apply Qltb_ge in E1. cbv zeta.
    destruct (Qgtb _ _) eqn:E2.
    + apply Qgtb_gt in E2. rewrite r_set_r_k_eq by done.
      repeat split; intros; try reflexivity; lra.
    + apply Qgtb_le in E2. repeat split; intros; try reflexivity; lra.
Qed.

(** Along [k] the outcome depends on the coordinate [r[k]] alone. *)
Lemma CheckBoundaries_dim_coord simbox k lhs rhs p q :
  (k < length (Particle.r p))%nat -> (k < length (Particle.r q))%nat ->
  vget (Particle.r p) k = vget (Particle.r q) k ->
  vget (Particle.r (CheckBoundaries_dim simbox k lhs rhs p)) k
  = vget (Particle.r (CheckBoundaries_dim simbox k lhs rhs q)) k.
Proof.
  intros Hp Hq E. unfold CheckBoundaries_dim. rewrite E.
  destruct (Qltb _ _), (String.eqb lhs "periodic"); cbv zeta;
    rewrite ?r_set_r_k_eq by done; rewrite ?E;
    destruct (Qgtb _ _), (String.eqb rhs "periodic");
    rewrite ?r_set_r_k_eq by (rewrite ?length_r_set_r_k; done);
    rewrite ?E; reflexivity.
Qed.

(** The three dimensions are swept independently of each other. *)
Lemma CheckBoundaries_part_coord ndim simbox p d :
  (1 <= ndim <= 3)%nat -> (d < ndim)%nat -> (ndim <= length (Particle.r p))%nat ->
  vget (Particle.r (CheckBoundaries_part ndim simbox p)) d
  = vget (Particle.r (CheckBoundaries_dim simbox d (boundary_lhs simbox d)
                        (boundary_rhs simbox d) p)) d.
Proof.
  intros Hn Hd Hlen. unfold CheckBoundaries_part.
  assert (Hcases : (ndim = 1 \/ ndim = 2 \/ ndim = 3)%nat) by lia.
  destruct Hcases as [-> | [-> | ->]]; cbn [Nat.leb Nat.eqb]; cbv zeta;
    (destruct d as [|[|[|d]]]; [ | | | ]; try lia; cbn [boundary_lhs boundary_rhs]);
    rewrite ?CheckBoundaries_dim_other by lia;
    try reflexivity;
    apply CheckBoundaries_dim_coord;
    rewrite ?CheckBoundaries_dim_length; try lia;
    rewrite ?CheckBoundaries_dim_other by lia; reflexivity.
Qed.

Lemma CheckBoundaries_part_v ndim simbox p :
  Particle.v (CheckBoundaries_part ndim simbox p) = Particle.v p.
Proof.
  unfold CheckBoundaries_part.
  destruct (2 <=? ndim)%nat, (ndim =? 3)%nat; cbv zeta;
    rewrite ?CheckBoundaries_dim_v; reflexivity.
Qed.

Lemma CheckBoundaries_lookup ndim simbox sph i :
  (i < Nsph sph)%nat ->
  sphdata (CheckBoundaries ndim simbox sph) !! i
  = CheckBoundaries_part ndim simbox <$> sphdata sph !! i.
Proof.
  intros Hi. unfold CheckBoundaries. cbn [sphdata set_sphdata].
  rewrite for_range_alter. by rewrite (proj2 (Nat.ltb_lt _ _) Hi).
Qed.

(** C1 (amended).  After [CheckBoundaries] every real particle has its
    velocity untouched; along a dimension whose faces are not periodic
    (mirror faces included) its coordinate is untouched too: nothing is ever
    reflected.  Along a dimension whose two faces are periodic, a particle
    that crossed a face has been moved by one box length, and a particle that
    was at most one box length outside lies inside the box afterwards. *)
Theorem CheckBoundaries_wraps_periodic_only ndim simbox sph i p d :
  (1 <= ndim <= 3)%nat -> (d < ndim)%nat -> (i < Nsph sph)%nat ->
  sphdata sph !! i = Some p -> (ndim <= length (Particle.r p))%nat ->
  exists p',
    sphdata (CheckBoundaries ndim simbox sph) !! i = Some p'
    /\ Particle.v p' = Particle.v p
    /\ (boundary_lhs simbox d <> "periodic"%string ->
        boundary_rhs simbox d <> "periodic"%string ->
        vget (Particle.r p') d = vget (Particle.r p) d)
    /\ (boundary_lhs simbox d = "periodic"%string ->
        boundary_rhs simbox d = "periodic"%string ->
        vget (boxsize simbox) d == vget (boxmax simbox) d - vget (boxmin simbox) d ->
        0 <= vget (boxsize simbox) d ->
        let x := vget (Particle.r p) d in
        let x' := vget (Particle.r p') d in
        (x < vget (boxmin simbox) d -> x' = x + vget (boxsize simbox) d)
        /\ (vget (boxmax simbox) d < x -> x' = x - vget (boxsize simbox) d)
        /\ (vget (boxmin simbox) d <= x <= vget (boxmax simbox) d -> x' = x)
        /\ (vget (boxmin simbox) d - vget (boxsize simbox) d <= x
                <= vget (boxmax simbox) d + vget (boxsize simbox) d ->
            vget (boxmin simbox) d <= x' <= vget (boxmax simbox) d)).
Proof.
  intros Hn Hd Hi Hp Hlen.
  exists (CheckBoundaries_part ndim simbox p).
  split; [by rewrite CheckBoundaries_lookup, Hp | ].
  split; [apply CheckBoundaries_part_v | ].
  rewrite CheckBoundaries_part_coord by done.
  split.
  - intros Hl Hr. by rewrite CheckBoundaries_dim_not_periodic.
  - intros -> -> Hsize Hpos x x'.
    destruct (CheckBoundaries_dim_periodic simbox d p) as (Hlo & Hhi & Hin);
      [lia | done | done | ].
    fold x in Hlo, Hhi, Hin. fold x' in Hlo, Hhi, Hin.
    repeat split; try done.
    + destruct (Qlt_le_dec x (vget (boxmin simbox) d)) as [L|L].
      * rewrite (Hlo L). lra.
      * destruct (Qlt_le_dec (vget (boxmax simbox) d) x) as [G|G].
        -- rewrite (Hhi G). lra.
        -- rewrite Hin; [lra | split; lra].
    + destruct (Qlt_le_dec x (vget (boxmin simbox) d)) as [L|L].
      * rewrite (Hlo L). lra.
      * destruct (Qlt_le_dec (vget (boxmax simbox) d) x) as [G|G].
        -- rewrite (Hhi G). lra.
        -- rewrite Hin; [lra | split; lra].
Qed.

(** C1, witness: a particle one tenth to the left of the periodic unit box
    comes back at nine tenths. *)
Lemma CheckBoundaries_wraps_periodic_only_witness :
  exists p',
    sphdata (CheckBoundaries 1 (Examples.unit_box "periodic") Examples.escaped) !! 0%nat
      = Some p'
    /\ vget (Particle.r p') 0 = - (1 # 10) + 1.
Proof.
  destruct (CheckBoundaries_wraps_periodic_only 1 (Examples.unit_box "periodic")
              Examples.escaped 0
              (Examples.particle [- (1 # 10)] [- (1)] (1 # 100)) 0)
    as (p' & Hp' & _ & _ & Hper); [lia | lia | cbn; lia | reflexivity | cbn; lia | ].
  exists p'. split; [exact Hp' | ].
  destruct Hper as (Hlo & _); [reflexivity | reflexivity | reflexivity | discriminate | ].
  apply Hlo. reflexivity.
Defined.

(** C1, counterexample: with mirror faces the particle that left the box is
    neither reflected nor brought back, so containment as the specification
    states it fails. *)
Lemma CheckBoundaries_mirror_not_contained :
  ~ containment_as_stated 1 (Examples.unit_box "mirror") Examples.escaped.
Proof.
  intros H.
  specialize (H 0%nat (Examples.particle [- (1 # 10)] [- (1)] (1 # 100)) 0%nat).
  destruct H as [H _]; [cbn; lia | reflexivity | lia | reflexivity | ].
  revert H. cbn. unfold Qle. cbn. lia.
Qed.

End CheckBoundaries.

(** ** Loops with failure *)

Lemma for_rangeM_from_inv {S : Type} (P : S -> Prop) (body : nat -> S -> result S)
    (n start : nat) (s s' : S) :
  (forall i t t', (start <= i < start + n)%nat -> P t -> body i t = Ok t' -> P t') ->
  P s -> for_rangeM_from start n body s = Ok s' -> P s'.
Proof.
  revert start s. induction n as [|n IH]; intros start s Hbody Hs Hrun.
  - cbn in Hrun. by injection Hrun as <-.
  - cbn in Hrun. destruct (body start s) as [t| | | | | |] eqn:E; try discriminate.
    cbn in Hrun. eapply (IH (Datatypes.S start) t); [ | | exact Hrun].
    + intros i u u' Hi. apply Hbody. lia.
    + eapply Hbody; [ | exact Hs | exact E]. lia.
Qed.

Lemma for_rangeM_inv {S : Type} (P : S -> Prop) (body : nat -> S -> result S)
    (n : nat) (s s' : S) :
  (forall i t t', (i < n)%nat -> P t -> body i t = Ok t' -> P t') ->
  P s -> for_rangeM n body s = Ok s' -> P s'.
Proof.
  intros Hbody. apply for_rangeM_from_inv. intros i t t' Hi. apply Hbody. lia.
Qed.

(** A loop whose body cannot fail on states that satisfy an invariant it
    keeps does not fail. *)
Lemma for_rangeM_from_total {S : Type} (P : nat -> S -> Prop)
    (body : nat -> S -> result S) (n start : nat) (s : S) :
  (forall i t, (start <= i < start + n)%nat -> P i t ->
     exists t', body i t = Ok t' /\ P (Datatypes.S i) t') ->
  P start s ->
  exists s', for_rangeM_from start n body s = Ok s' /\ P (start + n)%nat s'.
Proof.
  revert start s. induction n as [|n IH]; intros start s Hbody Hs.
  - exists s. rewrite Nat.add_0_r. by split.
  - destruct (Hbody start s) as (t & Et & Ht); [lia | done | ].
    destruct (IH (Datatypes.S start) t) as (s' & Es' & Hs'); [ | done | ].
    + intros i u Hi. apply Hbody. lia.
    + exists s'. cbn. rewrite Et. cbn. split; [exact Es' | ].
      by replace (start + Datatypes.S n)%nat with (Datatypes.S start + n)%nat by lia.
Qed.

Lemma bind_Ok {A B : Type} (c : result A) (f : A -> result B) (y : B) :
  c ≫= f = Ok y <-> exists x, c = Ok x /\ f x = Ok y.
Proof.
  destruct c as [x| | | | | |]; cbn; split;
    try discriminate; try (intros (x' & Hx & _); discriminate).
  - intros H. by exists x.
  - intros (x' & Hx & Hf). by injection Hx as ->.
Qed.

Lemma bind_OutOfFuel {A B : Type} (c : result A) (f : A -> result B) :
  c ≫= f = OutOfFuel -> c = OutOfFuel \/ exists x, c = Ok x /\ f x = OutOfFuel.
Proof.
  destruct c as [x| | | | | |]; cbn; try discriminate; [right; by exists x | by left].
Qed.

Lemma read_Ok {A : Type} (a : list A) (i : nat) (x : A) :
  read a i = Ok x <-> a !! i = Some x.
Proof.
  unfold read. destruct (a !! i); split; intros H; by inversion H.
Qed.

Lemma write_Ok {A : Type} (a a' : list A) (i : nat) (x : A) :
  write a i x = Ok a' <-> (i < length a)%nat /\ a' = <[i:=x]> a.
Proof.
  unfold write. destruct (i <? length a)%nat eqn:E.
  - apply Nat.ltb_lt in E. split; [intros H; by inversion H | intros [_ ->]; done].
  - apply Nat.ltb_ge in E. split; [discriminate | intros [? _]; lia].
Qed.

(** ** Ghost particles: creation and refresh *)

Section GhostInvariant.

Import Simulation Ghosts.

(** The refresh loop succeeds when the ghost tail is inside the array and
    every ghost names a real particle; it rewrites the ghost tail and nothing
    else, each ghost from its original. *)
Lemma refresh_loop (F : Particle.t -> Particle.t -> Particle.t) (base n : nat)
    (data : list Particle.t) :
  (base + n <= length data)%nat ->
  (forall j, (j < n)%nat ->
     exists g, data !! (base + j)%nat = Some g /\ (Particle.iorig g < base)%nat) ->
  exists data',
    for_rangeM n (refresh F base) data = Ok data'
    /\ length data' = length data
    /\ (forall k, (k < base \/ base + n <= k)%nat -> data' !! k = data !! k)
    /\ (forall j g p, (j < n)%nat -> data !! (base + j)%nat = Some g ->
          data !! Particle.iorig g = Some p ->
          data' !! (base + j)%nat = Some (F g p)).
Proof.
  intros Hlen Hreal.
  destruct (for_rangeM_from_total
              (fun i t =>
                 length t = length data
                 /\ (forall k, (k < base \/ base + i <= k)%nat -> t !! k = data !! k)
                 /\ (forall j g p, (j < i)%nat -> data !! (base + j)%nat = Some g ->
                       data !! Particle.iorig g = Some p ->
                       t !! (base + j)%nat = Some (F g p)))
              (refresh F base) n 0 data) as (data' & Hrun & Hl & Hout & Hin).
  - intros i t [_ Hi] (Hl & Hout & Hin). cbn in Hi.
    destruct (Hreal i Hi) as (g & Hg & Hio).
    assert (Hp : exists p, data !! Particle.iorig g = Some p).
    { apply lookup_lt_is_Some. lia. }
    destruct Hp as [p Hp].
    exists (<[(base + i)%nat := F g p]> t). split.
    + unfold refresh.
      rewrite (proj2 (read_Ok t (base + i) g)) by (rewrite Hout by lia; done).
      cbn. rewrite (proj2 (read_Ok t (Particle.iorig g) p)) by (rewrite Hout by lia; done).
      cbn. apply write_Ok. split; [lia | done].
    + rewrite length_insert. split; [done | ]. split.
      * intros k Hk. rewrite list_lookup_insert_ne by lia. apply Hout. lia.
      * intros j g' p' Hj Hg' Hp'.
        destruct (decide (j = i)) as [-> | Hne].
        -- rewrite list_lookup_insert_eq by lia. congruence.
        -- rewrite list_lookup_insert_ne by lia. apply (Hin j g' p'); [lia | done | done].
  - split; [done | ]. split; [done | ]. intros j g p Hj. lia.
  - exists data'. cbn in Hout. done.
Qed.

Lemma CopySphDataToGhosts_ghost_refresh ndim Nsph j data :
  CopySphDataToGhosts_ghost ndim Nsph j data = refresh (refreshed_sph ndim) Nsph j data.
Proof. reflexivity. Qed.

Lemma CopyDataToGhosts_ghost_refresh this simbox j data :
  Mfv.CopyDataToGhosts_ghost this simbox j data
  = refresh (refreshed_mfv this simbox) (Nhydro this) j data.
Proof. reflexivity. Qed.

Lemma ghost_transform_bookkeeping this simbox itype g :
  Particle.active (Mfv.ghost_transform this simbox itype g) = Particle.active g
  /\ Particle.iorig (Mfv.ghost_transform this simbox itype g) = Particle.iorig g
  /\ Particle.itype (Mfv.ghost_transform this simbox itype g) = Particle.itype g
  /\ Particle.nonspatial (Mfv.ghost_transform this simbox itype g) = Particle.nonspatial g.
Proof.
  unfold Mfv.ghost_transform.
  repeat match goal with |- context [if ?b then _ else _] => destruct b end;
    repeat split.
Qed.

(** What [CreateGhostParticle] does when it returns: the new ghost is stored
    in slot [Nsph + Nghost], inside the array, and the counter is raised. *)
Lemma CreateGhostParticle_Ok i k rk vk bdist sph sph' :
  (i < Nsph sph + Nghost sph)%nat ->
  CreateGhostParticle i k rk vk bdist sph = Ok sph' ->
  exists parent ghost,
    sphdata sph !! i = Some parent
    /\ (Nsph sph + Nghost sph < length (sphdata sph))%nat
    /\ (Z.of_nat (Nghost sph) <= Nghostmax sph)%Z
    /\ ghost = Particle.set_iorig
                 (if (Nsph sph <=? i)%nat then Particle.iorig parent else i)
                 (Particle.set_active false
                    (Particle.set_v_k k vk (Particle.set_r_k k rk parent)))
    /\ sph' = set_Nghost (Nghost sph + 1)
                (set_sphdata (<[(Nsph sph + Nghost sph)%nat := ghost]> (sphdata sph)) sph).
Proof.
  intros Hi. unfold CreateGhostParticle.
  destruct (Z.of_nat (Nghost sph) >? Nghostmax sph)%Z eqn:Eg; [discriminate | ].
  cbn. destruct (read (sphdata sph) i) as [parent| | | | | |] eqn:Er; try discriminate.
  apply read_Ok in Er. cbn.
  destruct (write (sphdata sph) (Nsph sph + Nghost sph) parent) as [data| | | | | |] eqn:Ew;
    try discriminate.
  apply write_Ok in Ew as [Hslot ->]. cbn.
  rewrite (proj2 (read_Ok _ _ parent)) by (by apply list_lookup_insert_eq). cbn.
  intros Hrun. exists parent.
  exists (Particle.set_iorig
            (if (Nsph sph <=? i)%nat then Particle.iorig parent else i)
            (Particle.set_active false
               (Particle.set_v_k k vk (Particle.set_r_k k rk parent)))).
  split; [done | ]. split; [done | ]. split; [lia | ].
  destruct (Nsph sph <=? i)%nat eqn:Ei.
  - rewrite (proj2 (read_Ok _ i parent)) in Hrun
      by (rewrite !list_lookup_insert_ne by lia; done).
    cbn in Hrun. injection Hrun as <-. split; [reflexivity | ].
    by rewrite list_insert_insert_eq.
  - cbn in Hrun. injection Hrun as <-. split; [reflexivity | ].
    by rewrite list_insert_insert_eq.
Qed.

Lemma CreateGhostParticle_ghosts_ok i k rk vk bdist sph sph' :
  (i < Nsph sph + Nghost sph)%nat ->
  ghosts_ok (Nsph sph) (Nghost sph) (sphdata sph) ->
  CreateGhostParticle i k rk vk bdist sph = Ok sph' ->
  Nsph sph' = Nsph sph /\ Nghost sph' = (Nghost sph + 1)%nat
  /\ Ntot sph' = Ntot sph /\ length (sphdata sph') = length (sphdata sph)
  /\ ghosts_ok (Nsph sph') (Nghost sph') (sphdata sph').
Proof.
  intros Hi Hok Hrun.
  destruct (CreateGhostParticle_Ok _ _ _ _ _ _ _ Hi Hrun)
    as (parent & ghost & Hp & Hslot & _ & Hghost & ->).
  cbn. rewrite length_insert. repeat split.
  intros j Hj. destruct (decide (j = Nsph sph + Nghost sph)%nat) as [-> | Hne].
  - exists ghost. rewrite list_lookup_insert_eq by done. split; [done | ].
    subst ghost. cbn. split; [done | ].
    destruct (Nsph sph <=? i)%nat eqn:Ei.
    + apply Nat.leb_le in Ei. destruct (Hok i) as (g & Hg & _ & Hio); [lia | ].
      congruence.
    + apply Nat.leb_gt in Ei. done.
  - rewrite list_lookup_insert_ne by done. apply Hok. lia.
Qed.

Lemma CreateGhostParticle_search_inv N i k rk vk bdist sph sph' :
  (i < Ntot sph)%nat -> search_inv N sph ->
  CreateGhostParticle i k rk vk bdist sph = Ok sph' ->
  search_inv N sph' /\ Ntot sph' = Ntot sph.
Proof.
  intros Hi (HN & Htot & Hok) Hrun.
  destruct (CreateGhostParticle_ghosts_ok i k rk vk bdist sph sph')
    as (E1 & E2 & E3 & _ & Hok'); [lia | done | done | ].
  split; [ | done]. unfold search_inv. rewrite E1, E2, E3.
  split; [done | ]. split; [lia | ]. by rewrite E1, E2 in Hok'.
Qed.

Lemma SearchGhost_part_search_inv N simbox k lhs rhs kernrange i sph sph' :
  (i < Ntot sph)%nat -> search_inv N sph ->
  SearchGhost_part simbox k lhs rhs kernrange i sph = Ok sph' ->
  search_inv N sph' /\ Ntot sph' = Ntot sph.
Proof.
  intros Hi Hinv. unfold SearchGhost_part.
  assert (Hstep : forall rk vk bdist (b : bool) s s',
             search_inv N s /\ Ntot s = Ntot sph ->
             (if b then (read (sphdata s) i ≫= fun p =>
                         CreateGhostParticle i k (rk p) (vk p) (bdist p) s)
              else Ok s) = Ok s' ->
             search_inv N s' /\ Ntot s' = Ntot sph).
  { intros rk vk bdist b s s' [Hs Et] Hrun. destruct b.
    - apply bind_Ok in Hrun as (p & _ & Hrun).
      apply CreateGhostParticle_search_inv with (N := N) in Hrun; [ | lia | done].
      destruct Hrun. split; [done | congruence].
    - by injection Hrun as <-. }
  intros Hrun.
  apply bind_Ok in Hrun as (p & _ & Hrun).
  apply bind_Ok in Hrun as (s1 & H1 & Hrun).
  assert (I1 : search_inv N s1 /\ Ntot s1 = Ntot sph).
  { destruct (Qltb _ _).
    - apply bind_Ok in H1 as (s0 & H0 & H1).
      eapply Hstep in H0; [ | by split].
      eapply Hstep in H1; [ | exact H0]. exact H1.
    - by injection H1 as <-. }
  apply bind_Ok in Hrun as (p1 & _ & Hrun).
  destruct (Qgtb _ _).
  - apply bind_Ok in Hrun as (s2 & H2 & Hrun).
    eapply Hstep in H2; [ | exact I1].
    eapply Hstep in Hrun; [ | exact H2]. exact Hrun.
  - by injection Hrun as <-.
Qed.

Lemma SearchGhost_dim_search_inv N simbox k lhs rhs kernrange sph sph' :
  search_inv N sph ->
  SearchGhost_dim simbox k lhs rhs kernrange sph = Ok sph' ->
  search_inv N sph'.
Proof.
  intros Hinv. unfold SearchGhost_dim.
  destruct (negb _); [ | intros H; by injection H as <-].
  intros Hrun. apply bind_Ok in Hrun as (s & Hloop & Hrun). injection Hrun as <-.
  apply (for_rangeM_inv (fun s => search_inv N s /\ Ntot s = Ntot sph)) in Hloop.
  - destruct Hloop as ((HN & _ & Hok) & _). unfold search_inv. cbn.
    split; [done | ]. split; [lia | done].
  - intros i t t' Hi [Ht Et] Hbody.
    apply SearchGhost_part_search_inv with (N := N) in Hbody; [ | lia | done].
    destruct Hbody. split; [done | congruence].
  - by split.
Qed.

Lemma SearchGhostParticles_ghosts_ok ndim simbox sph sph' :
  SearchGhostParticles ndim simbox sph = Ok sph' ->
  Nsph sph' = Nsph sph /\ ghosts_ok (Nsph sph') (Nghost sph') (sphdata sph').
Proof.
  unfold SearchGhostParticles.
  set (s0 := set_Ntot _ _).
  assert (H0 : search_inv (Nsph sph) s0).
  { unfold search_inv, s0. cbn. split; [done | ]. split; [lia | ].
    intros j Hj. lia. }
  clearbody s0. intros Hrun.
  assert (Hfin : search_inv (Nsph sph) sph').
  { destruct (_ && _).
    - by injection Hrun as <-.
    - apply bind_Ok in Hrun as (s1 & H1 & Hrun).
      apply SearchGhost_dim_search_inv with (N := Nsph sph) in H1; [ | done].
      apply bind_Ok in Hrun as (s2 & H2 & Hrun).
      assert (I2 : search_inv (Nsph sph) s2).
      { destruct (2 <=? ndim)%nat.
        - by apply SearchGhost_dim_search_inv with (N := Nsph sph) in H2.
        - by injection H2 as <-. }
      apply bind_Ok in Hrun as (s3 & H3 & Hrun).
      assert (I3 : search_inv (Nsph sph) s3).
      { destruct (ndim =? 3)%nat.
        - by apply SearchGhost_dim_search_inv with (N := Nsph sph) in H3.
        - by injection H3 as <-. }
      destruct (Nsphmax s3 <? Ntot s3)%nat; [discriminate | ].
      by injection Hrun as <-. }
  destruct Hfin as (HN & _ & Hok). by split.
Qed.

(** The refresh overwrites the ghost with its original, which may be
    active, and then clears [active]: the ghost need not be inactive before
    the call. *)
Lemma CopySphDataToGhosts_ghosts_ok ndim sph :
  (Nsph sph + Nghost sph <= length (sphdata sph))%nat ->
  ghosts_name_real (Nsph sph) (Nghost sph) (sphdata sph) ->
  exists sph', CopySphDataToGhosts ndim sph = Ok sph'
               /\ Nsph sph' = Nsph sph /\ Nghost sph' = Nghost sph
               /\ ghosts_ok (Nsph sph') (Nghost sph') (sphdata sph').
Proof.
  intros Hlen Hok.
  destruct (refresh_loop (refreshed_sph ndim) (Nsph sph) (Nghost sph) (sphdata sph))
    as (data' & Hrun & _ & _ & Hin); [done | | ].
  { intros j Hj. destruct (Hok (Nsph sph + j)%nat) as (g & Hg & Hio); [lia | ].
    by exists g. }
  exists (set_sphdata data' sph). unfold CopySphDataToGhosts.
  change (for_rangeM (Nghost sph) (CopySphDataToGhosts_ghost ndim (Nsph sph)))
    with (for_rangeM (Nghost sph) (refresh (refreshed_sph ndim) (Nsph sph))).
  rewrite Hrun. cbn. repeat split.
  intros j Hj. destruct (Hok j Hj) as (g & Hg & Hio).
  destruct (lookup_lt_is_Some_2 (sphdata sph) (Particle.iorig g)) as [p Hp]; [lia | ].
  exists (refreshed_sph ndim g p). split.
  - replace j with (Nsph sph + (j - Nsph sph))%nat by lia.
    apply Hin; [lia | | done]. by replace (Nsph sph + (j - Nsph sph))%nat with j by lia.
  - by cbn.
Qed.

Lemma CopyDataToGhosts_ghosts_ok this simbox data :
  (Nhydro this + NPeriodicGhost this <= length data)%nat ->
  ghosts_name_real (Nhydro this) (NPeriodicGhost this) data ->
  exists data', Mfv.CopyDataToGhosts this simbox data = Ok data'
                /\ ghosts_ok (Nhydro this) (NPeriodicGhost this) data'.
Proof.
  intros Hlen Hok.
  destruct (refresh_loop (refreshed_mfv this simbox) (Nhydro this) (NPeriodicGhost this)
              data) as (data' & Hrun & _ & _ & Hin); [done | | ].
  { intros j Hj. destruct (Hok (Nhydro this + j)%nat) as (g & Hg & Hio); [lia | ].
    by exists g. }
  exists data'. split; [exact Hrun | ].
  intros j Hj. destruct (Hok j Hj) as (g & Hg & Hio).
  destruct (lookup_lt_is_Some_2 data (Particle.iorig g)) as [p Hp]; [lia | ].
  exists (refreshed_mfv this simbox g p). split.
  - replace j with (Nhydro this + (j - Nhydro this))%nat by lia.
    apply Hin; [lia | | done].
    by replace (Nhydro this + (j - Nhydro this))%nat with j by lia.
  - unfold refreshed_mfv.
    destruct (ghost_transform_bookkeeping this simbox (Particle.itype g)
                (Particle.set_active false
                   (Particle.set_itype (Particle.itype g)
                      (Particle.set_iorig (Particle.iorig g) p)))) as (-> & -> & _).
    by cbn.
Qed.

(** C10.  Every operation that creates or refreshes ghosts leaves every ghost
    inactive and with a real particle as its original ([iorig < Nsph]): the
    ghost search establishes this from any state; [CreateGhostParticle] keeps
    it (the new ghost is inactive; cloned from a real particle it names that
    particle, cloned from a ghost it takes over that ghost's original); and
    the two refresh routines, run on ghosts that name real particles, return
    and leave every ghost inactive, whether or not it, or its original, was
    active before, and still naming a real particle. *)
Theorem ghosts_inactive_with_real_original :
  (forall ndim simbox sph sph',
     SearchGhostParticles ndim simbox sph = Ok sph' ->
     Nsph sph' = Nsph sph /\ ghosts_ok (Nsph sph') (Nghost sph') (sphdata sph'))
  /\ (forall i k rk vk bdist sph sph',
        (i < Nsph sph + Nghost sph)%nat ->
        ghosts_ok (Nsph sph) (Nghost sph) (sphdata sph) ->
        CreateGhostParticle i k rk vk bdist sph = Ok sph' ->
        Nsph sph' = Nsph sph /\ Nghost sph' = (Nghost sph + 1)%nat
        /\ ghosts_ok (Nsph sph') (Nghost sph') (sphdata sph')
        /\ exists parent ghost,
             sphdata sph !! i = Some parent
             /\ sphdata sph' !! (Nsph sph + Nghost sph)%nat = Some ghost
             /\ Particle.active ghost = false
             /\ Particle.iorig ghost
                = if (Nsph sph <=? i)%nat then Particle.iorig parent else i)
  /\ (forall ndim sph,
        (Nsph sph + Nghost sph <= length (sphdata sph))%nat ->
        ghosts_name_real (Nsph sph) (Nghost sph) (sphdata sph) ->
        exists sph', CopySphDataToGhosts ndim sph = Ok sph'
                     /\ Nsph sph' = Nsph sph /\ Nghost sph' = Nghost sph
                     /\ ghosts_ok (Nsph sph') (Nghost sph') (sphdata sph'))
  /\ (forall this simbox data,
        (Nhydro this + NPeriodicGhost this <= length data)%nat ->
        ghosts_name_real (Nhydro this) (NPeriodicGhost this) data ->
        exists data', Mfv.CopyDataToGhosts this simbox data = Ok data'
                      /\ ghosts_ok (Nhydro this) (NPeriodicGhost this) data').
Proof.
  split; [exact SearchGhostParticles_ghosts_ok | ].
  split.
  { intros i k rk vk bdist sph sph' Hi Hok Hrun.
    destruct (CreateGhostParticle_ghosts_ok _ _ _ _ _ _ _ Hi Hok Hrun)
      as (? & ? & _ & _ & ?).
    destruct (CreateGhostParticle_Ok _ _ _ _ _ _ _ Hi Hrun)
      as (parent & ghost & Hp & Hslot & _ & Hghost & ->).
    repeat split; try done.
    exists parent, ghost. split; [done | ].
    cbn [sphdata set_sphdata set_Nghost].
    rewrite list_lookup_insert_eq by done. by subst ghost. }
  split; [exact CopySphDataToGhosts_ghosts_ok | exact CopyDataToGhosts_ghosts_ok].
Qed.

(** C10, witness.  In the periodic unit square the particle near the corner
    gets three ghosts: one across x, one across y, and the clone across y of
    the first ghost, whose original is the real particle 0 as well.  A ghost
    that is marked active, of an active original, is inactive after either
    refresh. *)
Lemma ghosts_inactive_with_real_original_witness :
  (exists sph',
     SearchGhostParticles 2 (Examples.unit_square "periodic") Examples.near_corner
     = Ok sph'
     /\ Nghost sph' = 3%nat
     /\ Particle.iorig <$> sphdata sph' !! 3%nat = Some 0%nat
     /\ ghosts_ok (Nsph sph') (Nghost sph') (sphdata sph'))
  /\ Particle.active <$> sphdata Examples.woken !! 1%nat = Some true
  /\ (exists sph',
        CopySphDataToGhosts 1 Examples.woken = Ok sph'
        /\ Particle.active <$> sphdata sph' !! 1%nat = Some false
        /\ ghosts_ok (Nsph sph') (Nghost sph') (sphdata sph'))
  /\ (exists data',
        Mfv.CopyDataToGhosts (Examples.mfv 1 1 1 1 0) (Examples.unit_box "periodic")
          (sphdata Examples.woken) = Ok data'
        /\ Particle.active <$> data' !! 1%nat = Some false
        /\ ghosts_ok 1 1 data').
Proof.
  assert (Hreal : ghosts_name_real 1 1 (sphdata Examples.woken)).
  { intros j Hj. assert (j = 1%nat) as -> by lia. eexists. split; [reflexivity | ].
    cbn. lia. }
  split; [ | split; [reflexivity | split]].
  - eexists. split; [vm_compute; reflexivity | ]. split; [reflexivity | ].
    split; [reflexivity | ].
    apply (proj1 ghosts_inactive_with_real_original 2%nat
             (Examples.unit_square "periodic") Examples.near_corner).
    vm_compute. reflexivity.
  - destruct (proj1 (proj2 (proj2 ghosts_inactive_with_real_original)) 1%nat
                Examples.woken) as (sph' & Hrun & E1 & E2 & Hok);
      [cbn; lia | exact Hreal | ].
    exists sph'. split; [exact Hrun | ]. split; [ | exact Hok].
    destruct (Hok 1%nat) as (g & Hg & Hact & _); [rewrite E1, E2; cbn; lia | ].
    by rewrite Hg, <- Hact.
  - destruct (proj2 (proj2 (proj2 ghosts_inactive_with_real_original))
                (Examples.mfv 1 1 1 1 0) (Examples.unit_box "periodic")
                (sphdata Examples.woken)) as (data' & Hrun & Hok);
      [cbn; lia | exact Hreal | ].
    exists data'. split; [exact Hrun | ]. split; [ | exact Hok].
    destruct (Hok 1%nat) as (g & Hg & Hact & _); [cbn; lia | ].
    by rewrite Hg, <- Hact.
Defined.

(** C8 (what the code does at the failing input).  With [Nsphmax = Nsph = 1]
    there is room for no ghost ([Nghostmax = 0]).  The first
    [CreateGhostParticle] finds [Nghost = 0], which is not greater than
    [Nghostmax], so it raises nothing and stores the ghost in slot
    [Nsph + Nghost = 1 = Nsphmax], one past the end of the array. *)
Theorem SearchGhostParticles_writes_past_the_array :
  Nsphmax Examples.full = 1%nat
  /\ length (sphdata Examples.full) = Nsphmax Examples.full
  /\ SearchGhostParticles 1 (Examples.unit_box "periodic") Examples.full
     = OutOfBounds (Nsphmax Examples.full).
Proof. repeat split. Qed.

(** The guard of [CreateGhostParticle] is one too weak in every state: with
    the ghost tail full it lets the write go to slot [Nsphmax]. *)
Lemma CreateGhostParticle_at_capacity i k rk vk bdist sph :
  length (sphdata sph) = Nsphmax sph ->
  Nghostmax sph = (Z.of_nat (Nsphmax sph) - Z.of_nat (Nsph sph))%Z ->
  Z.of_nat (Nghost sph) = Nghostmax sph ->
  (i < Nsph sph + Nghost sph)%nat ->
  CreateGhostParticle i k rk vk bdist sph = OutOfBounds (Nsphmax sph).
Proof.
  intros Hlen Hmax Hfull Hi. unfold CreateGhostParticle.
  destruct (Z.of_nat (Nghost sph) >? Nghostmax sph)%Z eqn:Eg.
  - apply Z.gtb_lt in Eg. lia.
  - cbn. destruct (lookup_lt_is_Some_2 (sphdata sph) i) as [p Hp]; [lia | ].
    rewrite (proj2 (read_Ok _ _ _) Hp). cbn.
    assert (Hslot : (Nsph sph + Nghost sph)%nat = Nsphmax sph) by lia.
    unfold write. rewrite Hslot, Hlen, Nat.ltb_irrefl. reflexivity.
Qed.

End GhostInvariant.

(** ** Ghost fidelity *)

Section GhostFidelity.

Import Simulation Ghosts GhostSpec.

Lemma vcopy_length n src dst : length (vcopy n src dst) = length dst.
Proof.
  unfold vcopy. induction n as [|n IH]; [done | ].
  by rewrite for_range_S, length_vset.
Qed.

Lemma vcopy_get n src dst k :
  (k < n)%nat -> (k < length dst)%nat -> vget (vcopy n src dst) k = vget src k.
Proof.
  unfold vcopy. induction n as [|n IH]; intros Hk Hlen; [lia | ].
  rewrite for_range_S. destruct (decide (k = n)) as [-> | Hne].
  - apply vget_vset_eq. fold (vcopy n src dst). by rewrite vcopy_length.
  - rewrite vget_vset_ne by done. apply IH; [lia | done].
Qed.

(** The chain of tests of [CopyDataToGhosts] computes the transform of the
    ghost's kind. *)
Lemma ghost_transform_spec this simbox itype g :
  (1 <= ndim this <= 3)%nat ->
  Particle.r (Mfv.ghost_transform this simbox itype g)
  = position_transform (ndim this) simbox itype (Particle.r g)
  /\ Particle.v (Mfv.ghost_transform this simbox itype g)
     = velocity_transform (ndim this) itype (Particle.v g).
Proof.
  intros Hn.
  assert (Hcases : (ndim this = 1 \/ ndim this = 2 \/ ndim this = 3)%nat) by lia.
  unfold Mfv.ghost_transform, position_transform, velocity_transform.
  destruct Hcases as [-> | [-> | ->]]; destruct itype; cbn; done.
Qed.

(** C2 (amended).  [MfvRungeKutta::CopyDataToGhosts] meets the claim: when
    the ghost tail is inside the array and every ghost names a real particle,
    it returns, and every ghost then has its original's current non-spatial
    state, the original's position under the transform of the ghost's kind,
    and the original's velocity with the mirror component negated.
    [Simulation::CopySphDataToGhosts] reloads the non-spatial state in the
    same way but puts back the position and velocity the ghost had before the
    call: it does not apply a transform to the original's current position. *)
Theorem ghosts_reload_state_from_original :
  (forall this simbox data,
     (1 <= ndim this <= 3)%nat ->
     (Nhydro this + NPeriodicGhost this <= length data)%nat ->
     (forall j, (j < NPeriodicGhost this)%nat ->
        exists g, data !! (Nhydro this + j)%nat = Some g
                  /\ (Particle.iorig g < Nhydro this)%nat) ->
     exists data',
       Mfv.CopyDataToGhosts this simbox data = Ok data'
       /\ ghost_fidelity (ndim this) simbox (Nhydro this) (NPeriodicGhost this) data data')
  /\ (forall ndim sph,
        (Nsph sph + Nghost sph <= length (sphdata sph))%nat ->
        (forall j, (j < Nghost sph)%nat ->
           exists g, sphdata sph !! (Nsph sph + j)%nat = Some g
                     /\ (Particle.iorig g < Nsph sph)%nat) ->
        exists sph',
          CopySphDataToGhosts ndim sph = Ok sph'
          /\ forall j g p g',
               (j < Nghost sph)%nat ->
               sphdata sph !! (Nsph sph + j)%nat = Some g ->
               sphdata sph' !! Particle.iorig g = Some p ->
               sphdata sph' !! (Nsph sph + j)%nat = Some g' ->
               Particle.nonspatial g' = Particle.nonspatial p
               /\ forall k, (k < ndim)%nat ->
                    ((k < length (Particle.r p))%nat ->
                     vget (Particle.r g') k = vget (Particle.r g) k)
                    /\ ((k < length (Particle.v p))%nat ->
                        vget (Particle.v g') k = vget (Particle.v g) k)).
Proof.
  split.
  - intros this simbox data Hn Hlen Hreal.
    destruct (refresh_loop (refreshed_mfv this simbox) (Nhydro this)
                (NPeriodicGhost this) data Hlen Hreal)
      as (data' & Hrun & _ & Hout & Hin).
    exists data'. split; [exact Hrun | ].
    intros j g p g' Hj Hg Hp Hg'.
    destruct (Hreal j Hj) as (g0 & Hg0 & Hio).
    assert (g0 = g) as -> by congruence.
    rewrite Hout in Hp by lia.
    rewrite (Hin j g p Hj Hg Hp) in Hg'. injection Hg' as <-.
    unfold refreshed_mfv.
    destruct (ghost_transform_bookkeeping this simbox (Particle.itype g)
                (Particle.set_active false
                   (Particle.set_itype (Particle.itype g)
                      (Particle.set_iorig (Particle.iorig g) p)))) as (_ & _ & _ & ->).
    destruct (ghost_transform_spec this simbox (Particle.itype g)
                (Particle.set_active false
                   (Particle.set_itype (Particle.itype g)
                      (Particle.set_iorig (Particle.iorig g) p))) Hn) as (-> & ->).
    done.
  - intros nd sph Hlen Hreal.
    destruct (refresh_loop (refreshed_sph nd) (Nsph sph) (Nghost sph) (sphdata sph)
                Hlen Hreal) as (data' & Hrun & _ & Hout & Hin).
    exists (set_sphdata data' sph). split.
    + unfold CopySphDataToGhosts.
      change (for_rangeM (Nghost sph) (CopySphDataToGhosts_ghost nd (Nsph sph)))
        with (for_rangeM (Nghost sph) (refresh (refreshed_sph nd) (Nsph sph))).
      by rewrite Hrun.
    + cbn [sphdata set_sphdata]. intros j g p g' Hj Hg Hp Hg'.
      destruct (Hreal j Hj) as (g0 & Hg0 & Hio).
      assert (g0 = g) as -> by congruence.
      rewrite Hout in Hp by lia.
      rewrite (Hin j g p Hj Hg Hp) in Hg'. injection Hg' as <-.
      split; [done | ].
      intros k Hk. unfold refreshed_sph. cbn. split; intros Hkl.
      * rewrite !vcopy_get; try done. by rewrite length_replicate.
      * rewrite !vcopy_get; try done. by rewrite length_replicate.
Qed.

(** C2, witness: in the periodic unit box the ghost of kind [x_lhs_periodic]
    of a particle now at [0.2] is put at [0.2 + 1] by [CopyDataToGhosts]. *)
Lemma ghosts_reload_state_from_original_witness :
  exists data',
    Mfv.CopyDataToGhosts (Examples.mfv 1 1 1 1 0) (Examples.unit_box "periodic")
      (sphdata Examples.moved) = Ok data'
    /\ ghost_fidelity 1 (Examples.unit_box "periodic") 1 1 (sphdata Examples.moved) data'.
Proof.
  apply (proj1 ghosts_reload_state_from_original (Examples.mfv 1 1 1 1 0)).
  - cbn. lia.
  - cbn. lia.
  - intros j Hj. cbn in Hj. assert (j = 0)%nat as -> by lia.
    eexists. split; [reflexivity | cbn; lia].
Defined.

(** C2, counterexample: [CopySphDataToGhosts] leaves that ghost at [1.1],
    where it was made, although its original is now at [0.2]: ghost fidelity
    as stated fails for this routine. *)
Lemma CopySphDataToGhosts_keeps_stale_position :
  exists sph',
    CopySphDataToGhosts 1 Examples.moved = Ok sph'
    /\ ~ ghost_fidelity 1 (Examples.unit_box "periodic") 1 1
          (sphdata Examples.moved) (sphdata sph').
Proof.
  eexists. split; [reflexivity | ].
  intros H.
  edestruct (H 0%nat) as (_ & Hr & _);
    [cbn; lia | reflexivity | reflexivity | reflexivity | ].
  discriminate Hr.
Qed.

End GhostFidelity.

(** ** The smoothing-length solver: [ComputeH] *)

Section ComputeH.

Import Mfv HSpec.

Lemma ComputeH_sums_frame this Nneib m drsqd x p :
  let q := ComputeH_sums this Nneib m drsqd x p in
  Particle.gpot q = Particle.gpot p /\ Particle.h q = Particle.h p
  /\ Particle.invh q = Particle.invh p /\ Particle.m q = Particle.m p
  /\ Particle.hfactor q = Particle.hfactor p.
Proof.
  unfold ComputeH_sums. induction Nneib as [|n IH]; [done | ].
  rewrite for_range_S. cbn. exact IH.
Qed.

Lemma ComputeH_normalise_frame x p :
  let q := ComputeH_normalise x p in
  Particle.gpot q = Particle.gpot p /\ Particle.h q = Particle.h p
  /\ Particle.invh q = Particle.invh p /\ Particle.m q = Particle.m p
  /\ Particle.volume q = 1 / Particle.ndens q
  /\ Particle.rho q = Particle.m q * Particle.ndens q
  /\ Particle.ndens q = Particle.ndens p * Particle.hfactor p.
Proof.
  unfold ComputeH_normalise. cbv zeta. destruct (Qgtb _ _); repeat split.
Qed.

Lemma ComputeH_density_frame this Nneib m drsqd s :
  let d := ComputeH_density this Nneib m drsqd s in
  iteration d = Datatypes.S (iteration s)
  /\ h_lower_bound d = h_lower_bound s /\ h_upper_bound d = h_upper_bound s
  /\ Particle.gpot (part d) = Particle.gpot (part s)
  /\ Particle.h (part d) = Particle.h (part s)
  /\ Particle.m (part d) = Particle.m (part s)
  /\ Particle.invh (part d) = 1 / Particle.h (part s)
  /\ invhsqd d = Particle.invh (part d) * Particle.invh (part d)
  /\ Particle.volume (part d) = 1 / Particle.ndens (part d)
  /\ Particle.rho (part d) = Particle.m (part d) * Particle.ndens (part d).
Proof.
  unfold ComputeH_density. cbv zeta.
  cbn [iteration h_lower_bound h_upper_bound part invhsqd].
  set (p0 := ComputeH_init this (part s)).
  set (x := Particle.invh p0 * Particle.invh p0).
  destruct (ComputeH_sums_frame this Nneib m drsqd x p0) as (Eg & Eh & Ei & Em & _).
  destruct (ComputeH_normalise_frame x (ComputeH_sums this Nneib m drsqd x p0))
    as (Fg & Fh & Fi & Fm & Fv & Fr & _).
  cbv zeta in *.
  split; [done | ]. split; [done | ]. split; [done | ].
  split; [by rewrite Fg, Eg | ]. split; [by rewrite Fh, Eh | ].
  split; [by rewrite Fm, Em | ]. split; [by rewrite Fi, Ei | ].
  split; [by rewrite Fi, Ei | ]. split; [exact Fv | exact Fr].
Qed.

Lemma update_h_frame this s s' :
  update_h this s = Ok s' ->
  iteration s' = iteration s /\ invhsqd s' = invhsqd s
  /\ (iteration s < 5 * iteration_max)%nat
  /\ Particle.gpot (part s') = Particle.gpot (part s)
  /\ Particle.invh (part s') = Particle.invh (part s).
Proof.
  unfold update_h.
  destruct (iteration s <? iteration_max)%nat eqn:E1.
  { intros H. injection H as <-. apply Nat.ltb_lt in E1. unfold iteration_max in *.
    repeat split. lia. }
  destruct (iteration s =? iteration_max)%nat eqn:E2.
  { intros H. injection H as <-. apply Nat.eqb_eq in E2. unfold iteration_max in *.
    repeat split. lia. }
  destruct (iteration s <? 5 * iteration_max)%nat eqn:E3; [ | discriminate].
  intros H. injection H as <-. apply Nat.ltb_lt in E3.
  destruct (_ || _); repeat split; done.
Qed.

(** The state a pass leaves, however it ends. *)
Lemma ComputeH_body_cases this Nneib hmax m drsqd s st :
  ComputeH_body this Nneib hmax m drsqd s = Ok st ->
  let d := ComputeH_density this Nneib m drsqd s in
  (st = Break d /\ converged this d = true)
  \/ (converged this d = false
      /\ exists s', update_h this d = Ok s'
                    /\ (st = Return 0 s' \/ st = Again s' \/ st = Leave s')).
Proof.
  unfold ComputeH_body. cbv zeta.
  destruct (converged _ _) eqn:Ec.
  - intros H. injection H as <-. by left.
  - intros H. apply bind_Ok in H as (s' & Hu & H). right. split; [done | ].
    exists s'. split; [done | ].
    destruct (Qgtb _ hmax); [injection H as <-; by left | ].
    destruct (_ && _); injection H as <-; [right; by left | right; by right].
Qed.

(** A pass returns or raises the convergence error; when it raises, the
    counter had reached [5 * iteration_max]. *)
Lemma update_h_outcome this s :
  (exists s', update_h this s = Ok s')
  \/ (update_h this s = Raise "Problem with convergence of h-rho iteration"
      /\ (5 * iteration_max <= iteration s)%nat).
Proof.
  unfold update_h.
  destruct (iteration s <? iteration_max)%nat; [left; by eexists | ].
  destruct (iteration s =? iteration_max)%nat; [left; by eexists | ].
  destruct (iteration s <? 5 * iteration_max)%nat eqn:E; [left; by eexists | ].
  right. split; [done | ]. by apply Nat.ltb_ge in E.
Qed.

Lemma ComputeH_body_outcome this Nneib hmax m drsqd s :
  (exists st, ComputeH_body this Nneib hmax m drsqd s = Ok st)
  \/ (ComputeH_body this Nneib hmax m drsqd s
      = Raise "Problem with convergence of h-rho iteration"
      /\ (5 * iteration_max <= Datatypes.S (iteration s))%nat).
Proof.
  unfold ComputeH_body. cbv zeta.
  destruct (ComputeH_density_frame this Nneib m drsqd s) as (Hit & _).
  set (d := ComputeH_density this Nneib m drsqd s) in *. clearbody d.
  destruct (converged this d); [left; by eexists | ].
  destruct (update_h_outcome this d) as [[s' ->] | [-> Hk]].
  - left. cbn. destruct (Qgtb _ hmax); [by eexists | ].
    destruct (_ && _); by eexists.
  - right. split; [done | lia].
Qed.

(** The loop body runs at most [5 * iteration_max] times: a run that starts
    below that count with that much fuel left never runs out of it. *)
Lemma ComputeH_loop_fuel this Nneib hmax m drsqd fuel s :
  (iteration s < 5 * iteration_max)%nat ->
  (5 * iteration_max <= iteration s + fuel)%nat ->
  ComputeH_loop fuel this Nneib hmax m drsqd s <> OutOfFuel.
Proof.
  revert s. induction fuel as [|fuel IH]; intros s Hlt Hfuel; [lia | ].
  cbn [ComputeH_loop].
  destruct (ComputeH_body_outcome this Nneib hmax m drsqd s) as [[st Eb] | [Eb _]];
    rewrite Eb; [ | discriminate].
  cbn. destruct (ComputeH_body_cases _ _ _ _ _ _ _ Eb) as [[-> _] | (_ & s' & Hu & Hst)];
    [discriminate | ].
  destruct (update_h_frame _ _ _ Hu) as (Hit & _ & Hlt' & _).
  destruct (ComputeH_density_frame this Nneib m drsqd s) as (Hd & _).
  destruct Hst as [-> | [-> | ->]]; try discriminate.
  apply IH; lia.
Qed.

(** [ComputeH] always returns, raises or stops on an assertion: the fuel of
    the model is never what ends it. *)
Lemma ComputeH_never_out_of_fuel this i Nneib hmax m mu drsqd gpot p :
  ComputeH this i Nneib hmax m mu drsqd gpot p <> OutOfFuel.
Proof.
  unfold ComputeH. destruct (_ && _); [discriminate | ].
  intros H.
  apply bind_OutOfFuel in H as [H | (_ & _ & H)];
    [unfold assert in H; by destruct (0 <? Nneib)%nat | ].
  apply bind_OutOfFuel in H as [H | (_ & _ & H)];
    [unfold assert in H; by destruct (Qgtb hmax 0) | ].
  apply bind_OutOfFuel in H as [H | (_ & _ & H)];
    [unfold assert in H; by destruct (negb _) | ].
  apply bind_OutOfFuel in H as [H | (_ & _ & H)];
    [unfold assert in H; by destruct (Qgtb (Particle.m p) 0) | ].
  apply bind_OutOfFuel in H as [H | ([code s] & _ & H)].
  - revert H. apply ComputeH_loop_fuel; cbn; lia.
  - by destruct code.
Qed.

End ComputeH.

Section ComputeHClaims.

Import Mfv HSpec.

Lemma ComputeH_body_not_converged this Nneib hmax m drsqd s :
  let d := ComputeH_density this Nneib m drsqd s in
  converged this d = false ->
  forall s', update_h this d = Ok s' ->
             ends_with (ComputeH_body this Nneib hmax m drsqd s) s'.
Proof.
  cbv zeta. intros Hc s' Hu. unfold ends_with, ComputeH_body. cbv zeta.
  rewrite Hc, Hu. cbn. destruct (Qgtb _ hmax); [by left | ].
  destruct (_ && _); [right; by left | right; by right].
Qed.

Lemma ComputeH_body_raise this Nneib hmax m drsqd s :
  let d := ComputeH_density this Nneib m drsqd s in
  converged this d = false ->
  forall msg, update_h this d = Raise msg ->
              ComputeH_body this Nneib hmax m drsqd s = Raise msg.
Proof.
  cbv zeta. intros Hc msg Hu. unfold ComputeH_body. cbv zeta. by rewrite Hc, Hu.
Qed.

Lemma update_h_fixed_point this d :
  (iteration d < 30)%nat ->
  update_h this d
  = Ok (set_part (Particle.set_h
                    (h_fac this * pow_invndim this (Particle.volume (part d)))
                    (part d)) d).
Proof.
  intros Hk. unfold update_h, iteration_max.
  by rewrite (proj2 (Nat.ltb_lt _ _) Hk).
Qed.

Lemma update_h_switch this d :
  iteration d = 30%nat ->
  update_h this d
  = Ok (set_part (Particle.set_h ((1 # 2) * (h_lower_bound d + h_upper_bound d))
                    (part d)) d).
Proof.
  intros Hk. unfold update_h, iteration_max. by rewrite Hk.
Qed.

Lemma update_h_bracket this d :
  (30 < iteration d < 150)%nat ->
  exists s',
    update_h this d = Ok s'
    /\ (Particle.ndens (part d) < small_number this \/ over_dense this (part d) ->
        h_upper_bound s' = Particle.h (part d) /\ h_lower_bound s' = h_lower_bound d)
    /\ (~ (Particle.ndens (part d) < small_number this \/ over_dense this (part d)) ->
        h_lower_bound s' = Particle.h (part d) /\ h_upper_bound s' = h_upper_bound d)
    /\ Particle.h (part s') = (1 # 2) * (h_lower_bound s' + h_upper_bound s').
Proof.
  intros [Hk1 Hk2].
  assert (E1 : (iteration d <? 30)%nat = false) by (apply Nat.ltb_ge; lia).
  assert (E2 : (iteration d =? 30)%nat = false) by (apply Nat.eqb_neq; lia).
  assert (E3 : (iteration d <? 5 * 30)%nat = true) by (apply Nat.ltb_lt; lia).
  unfold update_h, iteration_max. rewrite E1, E2, E3.
  destruct (Qltb (Particle.ndens (part d)) (small_number this)
            || Qgtb (Particle.ndens (part d) * pow (Particle.h (part d)) (ndim this))
                    (pow (h_fac this) (ndim this))) eqn:E.
  - eexists. split; [reflexivity | ]. cbn. split; [done | ]. split; [ | done].
    intros Hn. exfalso. apply Hn.
    apply orb_true_iff in E as [E | E]; [left; by apply Qltb_lt | right; by apply Qgtb_gt].
  - eexists. split; [reflexivity | ]. cbn. split; [ | done].
    apply orb_false_iff in E as [Ea Eb].
    apply Qltb_ge in Ea. apply Qgtb_le in Eb.
    intros [Hs | Ho]; exfalso; [lra | unfold over_dense in Ho; lra].
Qed.

Lemma update_h_raise this d :
  (150 <= iteration d)%nat ->
  update_h this d = Raise "Problem with convergence of h-rho iteration".
Proof.
  intros Hk. unfold update_h, iteration_max.
  rewrite (proj2 (Nat.ltb_ge _ _)) by lia.
  rewrite (proj2 (Nat.eqb_neq _ _)) by lia.
  by rewrite (proj2 (Nat.ltb_ge _ _)) by lia.
Qed.

(** C3 (amended).  In a pass that does not converge, with [k] the value of
    the counter in that pass (the first pass has [k = 1]): for [k < 30] the
    new [h] is [h_fac * volume^(1/ndim)] and the bracket is kept; for
    [k = 30] the new [h] is the midpoint of the bracket; for [30 < k < 150]
    the upper bound becomes [h] when the number density is below
    [small_number] or the particle is over-dense, otherwise the lower bound
    becomes [h], and the new [h] is the midpoint of the new bracket; for
    [k >= 150] the pass raises the convergence error.  [volume] is [m/rho]
    when neither the mass nor the number density is zero. *)
Theorem ComputeH_update_schedule this Nneib hmax m drsqd s :
  let d := ComputeH_density this Nneib m drsqd s in
  let k := iteration d in
  let p := part d in
  converged this d = false ->
  k = Datatypes.S (iteration s)
  /\ ((k < 30)%nat ->
      exists s', ends_with (ComputeH_body this Nneib hmax m drsqd s) s'
                 /\ Particle.h (part s') = h_fac this * pow_invndim this (Particle.volume p)
                 /\ h_lower_bound s' = h_lower_bound d
                 /\ h_upper_bound s' = h_upper_bound d)
  /\ (k = 30%nat ->
      exists s', ends_with (ComputeH_body this Nneib hmax m drsqd s) s'
                 /\ Particle.h (part s') = (1 # 2) * (h_lower_bound d + h_upper_bound d)
                 /\ h_lower_bound s' = h_lower_bound d
                 /\ h_upper_bound s' = h_upper_bound d)
  /\ ((30 < k < 150)%nat ->
      exists s', ends_with (ComputeH_body this Nneib hmax m drsqd s) s'
                 /\ (Particle.ndens p < small_number this \/ over_dense this p ->
                     h_upper_bound s' = Particle.h p
                     /\ h_lower_bound s' = h_lower_bound d)
                 /\ (~ (Particle.ndens p < small_number this \/ over_dense this p) ->
                     h_lower_bound s' = Particle.h p
                     /\ h_upper_bound s' = h_upper_bound d)
                 /\ Particle.h (part s') = (1 # 2) * (h_lower_bound s' + h_upper_bound s'))
  /\ ((150 <= k)%nat ->
      ComputeH_body this Nneib hmax m drsqd s
      = Raise "Problem with convergence of h-rho iteration")
  /\ (~ Particle.m p == 0 -> ~ Particle.ndens p == 0 ->
      Particle.volume p == Particle.m p / Particle.rho p).
Proof.
  cbv zeta.
  generalize (ComputeH_density_frame this Nneib m drsqd s).
  generalize (ComputeH_body_not_converged this Nneib hmax m drsqd s).
  generalize (ComputeH_body_raise this Nneib hmax m drsqd s).
  cbv zeta. generalize (ComputeH_density this Nneib m drsqd s) as d.
  intros d Hraise Hbody (Hit & _ & _ & _ & _ & _ & _ & _ & Hvol & Hrho) Hc.
  specialize (Hbody Hc). specialize (Hraise Hc).
  split; [exact Hit | ].
  split; [ | split; [ | split; [ | split]]].
  - intros Hk. eexists. split; [apply Hbody; by apply update_h_fixed_point | done].
  - intros Hk. eexists. split; [apply Hbody; by apply update_h_switch | done].
  - intros Hk. destruct (update_h_bracket this d Hk) as (s' & Hu & H1 & H2 & H3).
    exists s'. split; [by apply Hbody | done].
  - intros Hk. apply Hraise. by apply update_h_raise.
  - intros Hm Hn. rewrite Hvol, Hrho. field. by split.
Qed.

(** C3, witness: the first pass on a particle with [h = 10] and four
    neighbours at its position does not converge and sets
    [h = h_fac * volume]. *)
Lemma ComputeH_update_schedule_witness :
  exists s',
    ends_with
      (ComputeH_body (Examples.mfv 1 0 (101 # 100) (2 # 100) 0) 4 20 [1; 1; 1; 1]
         [0; 0; 0; 0]
         (ComputeH_start (Examples.mfv 1 0 (101 # 100) (2 # 100) 0) 20
            (Examples.particle [0] [0] 10))) s'
    /\ Qred (Particle.h (part s')) = 101 # 10.
Proof.
  destruct (ComputeH_update_schedule (Examples.mfv 1 0 (101 # 100) (2 # 100) 0) 4 20
              [1; 1; 1; 1] [0; 0; 0; 0]
              (ComputeH_start (Examples.mfv 1 0 (101 # 100) (2 # 100) 0) 20
                 (Examples.particle [0] [0] 10)))
    as (_ & H & _); [vm_compute; reflexivity | ].
  destruct H as (s' & He & Hh & _); [vm_compute; lia | ].
  exists s'. split; [exact He | ]. rewrite Hh. vm_compute. reflexivity.
Defined.

(** C3, counterexample: a particle with [h = 0.6] and one neighbour at distance
    1, with [hmax = 1] and the stepped kernel.  The fixed point alternates
    between 0.8 and 0.6 for 29 passes and pass 30 sets [h = 0.5].  In pass 31
    the neighbour is outside the kernel and the number density is 0: the
    particle is not over-dense, yet the code lowers the upper bound to [h]
    and leaves the lower bound at 0. *)
Lemma ComputeH_bracket_low_density :
  exists s30,
    passes 30 (Examples.mfv_with Examples.stepped 1 0 1 (1 # 100) 0) 1 1 [1] [1]
      (ComputeH_start (Examples.mfv_with Examples.stepped 1 0 1 (1 # 100) 0) 1
         (Examples.particle [0] [0] (6 # 10))) = Ok s30
    /\ ~ bracket_as_stated (Examples.mfv_with Examples.stepped 1 0 1 (1 # 100) 0)
          1 1 [1] [1] s30.
Proof.
  eexists. split; [vm_compute; reflexivity | ].
  unfold bracket_as_stated. intros H.
  edestruct H as [_ Hlow]; [vm_compute; lia | vm_compute; reflexivity | ].
  destruct Hlow as [Hlo _].
  - unfold over_dense. vm_compute. discriminate.
  - revert Hlo. vm_compute. discriminate.
Qed.

(** C4 (amended).  A pass leaves the loop by its convergence exit exactly when
    the density is positive, [h] is above its lower bound, and
    [|h - h_fac * volume^(1/ndim)| < h_converge]: the tolerance is
    [h_converge] itself, it is not multiplied by [h].  The state is then the
    one the density evaluation left. *)
Theorem ComputeH_exit_absolute_tolerance this Nneib hmax m drsqd s :
  let d := ComputeH_density this Nneib m drsqd s in
  let p := part d in
  ((exists s', ComputeH_body this Nneib hmax m drsqd s = Ok (Break s'))
   <-> (0 < Particle.rho p
        /\ h_lower_bound d < Particle.h p
        /\ Qabs (Particle.h p - h_fac this * pow_invndim this (Particle.volume p))
           < h_converge this))
  /\ (forall s', ComputeH_body this Nneib hmax m drsqd s = Ok (Break s') -> s' = d).
Proof.
  intros d p.
  assert (Hconv : converged this d = true
                  <-> 0 < Particle.rho p /\ h_lower_bound d < Particle.h p
                      /\ Qabs (Particle.h p
                               - h_fac this * pow_invndim this (Particle.volume p))
                         < h_converge this).
  { unfold converged. rewrite !andb_true_iff, !Qgtb_gt, Qltb_lt. tauto. }
  split.
  - rewrite <- Hconv. split.
    + intros [s' Hb].
      destruct (ComputeH_body_cases _ _ _ _ _ _ _ Hb) as [[_ Hc] | (_ & s'' & _ & Hst)];
        [exact Hc | ].
      destruct Hst as [? | [? | ?]]; discriminate.
    + intros Hc. exists d. unfold ComputeH_body. cbv zeta. fold d. by rewrite Hc.
  - intros s' Hb.
    destruct (ComputeH_body_cases _ _ _ _ _ _ _ Hb) as [[E _] | (_ & s'' & _ & Hst)].
    + by injection E.
    + destruct Hst as [? | [? | ?]]; discriminate.
Qed.

(** C4, counterexample: with [h = 10], [h_fac = 1.01] and [h_converge = 0.02]
    the fixed point is off by [0.1], less than [h_converge * h = 0.2]: the
    relative criterion holds, the pass does not leave the loop. *)
Lemma ComputeH_relative_criterion_does_not_exit :
  ~ exit_as_stated (Examples.mfv 1 0 (101 # 100) (2 # 100) 0) 4 20 [1; 1; 1; 1]
      [0; 0; 0; 0]
      (ComputeH_start (Examples.mfv 1 0 (101 # 100) (2 # 100) 0) 20
         (Examples.particle [0] [0] 10)).
Proof.
  unfold exit_as_stated. intros [_ H].
  destruct H as [s' Hs'].
  - unfold relative_criterion. vm_compute. repeat split.
  - revert Hs'. vm_compute. discriminate.
Qed.

End ComputeHClaims.

Section ComputeHPotmin.

Import Mfv HSpec.

(** The flag after the loop over the neighbours' potentials: the loop reads
    the particle's own potential, which it does not change. *)
Lemma ComputeH_potmin_spec this Nneib drsqd gpot x p :
  let q := ComputeH_potmin this Nneib drsqd gpot x p in
  Particle.gpot q = Particle.gpot p
  /\ (Particle.potmin q = true
      <-> forall j, (j < Nneib)%nat ->
            ~ ((1000000001 # 1000000000) * Particle.gpot p < vget gpot j
               /\ vget drsqd j * x < kernrangesqd (kern this))).
Proof.
  unfold ComputeH_potmin. induction Nneib as [|n [IHg IHp]].
  - cbn. split; [done | ]. split; [intros _ j Hj; lia | done].
  - rewrite for_range_S.
    set (q := for_range n _ _) in *.
    destruct (Qgtb (vget gpot n) ((1000000001 # 1000000000) * Particle.gpot q)
              && Qltb (vget drsqd n * x) (kernrangesqd (kern this))) eqn:E.
    + cbn. split; [done | ]. split; [discriminate | ].
      intros H. exfalso. apply (H n); [lia | ].
      apply andb_true_iff in E as [Ea Eb].
      apply Qgtb_gt in Ea. apply Qltb_lt in Eb. by rewrite <- IHg.
    + split; [done | ]. rewrite IHp. split.
      * intros H j Hj. destruct (decide (j = n)) as [-> | Hne]; [ | apply H; lia].
        intros [Ha Hb]. apply andb_false_iff in E as [E | E].
        -- apply Qgtb_le in E. rewrite IHg in E. lra.
        -- apply Qltb_ge in E. lra.
      * intros H j Hj. apply H. lia.
Qed.

Lemma ComputeH_finalise_gpot this s :
  Particle.gpot (ComputeH_finalise this s) = Particle.gpot (part s).
Proof. reflexivity. Qed.

Lemma ComputeH_loop_S this Nneib hmax m drsqd fuel s :
  ComputeH_loop (Datatypes.S fuel) this Nneib hmax m drsqd s
  = ComputeH_body this Nneib hmax m drsqd s ≫= fun st =>
      match st with
      | Break s => Ok (None, s)
      | Return code s => Ok (Some code, s)
      | Leave s => Ok (None, s)
      | Again s => ComputeH_loop fuel this Nneib hmax m drsqd s
      end.
Proof. reflexivity. Qed.

(** What a pass keeps: the particle's potential; what it leaves: an
    [invhsqd] that is the one of its density evaluation; and the only code it
    returns with is 0. *)
Lemma ComputeH_body_frame this Nneib hmax m drsqd s st :
  ComputeH_body this Nneib hmax m drsqd s = Ok st ->
  exists s1,
    (st = Break s1 \/ st = Return 0 s1 \/ st = Again s1 \/ st = Leave s1)
    /\ Particle.gpot (part s1) = Particle.gpot (part s)
    /\ invhsqd s1 = Particle.invh (part s1) * Particle.invh (part s1).
Proof.
  intros Hb. apply ComputeH_body_cases in Hb. revert Hb.
  generalize (ComputeH_density_frame this Nneib m drsqd s).
  cbv zeta. generalize (ComputeH_density this Nneib m drsqd s) as d.
  intros d (_ & _ & _ & Hg & _ & _ & _ & Hi & _) Hb.
  destruct Hb as [[-> _] | (_ & s1 & Hu & Hst)].
  - exists d. split; [by left | done].
  - destruct (update_h_frame _ _ _ Hu) as (_ & Hi1 & _ & Hg1 & Hv1).
    exists s1. split; [tauto | split; congruence].
Qed.

(** The same for the loop: it returns the code 0 from inside, or no code. *)
Lemma ComputeH_loop_frame this Nneib hmax m drsqd fuel s code s' :
  ComputeH_loop fuel this Nneib hmax m drsqd s = Ok (code, s') ->
  Particle.gpot (part s') = Particle.gpot (part s)
  /\ (code = None \/ code = Some 0%Z)
  /\ invhsqd s' = Particle.invh (part s') * Particle.invh (part s').
Proof.
  revert s. induction fuel as [|fuel IH]; intros s Hrun; [discriminate | ].
  rewrite ComputeH_loop_S in Hrun. apply bind_Ok in Hrun as (st & Hb & Hrun).
  apply ComputeH_body_frame in Hb as (s1 & Hst & Hg & Hi).
  destruct Hst as [-> | [-> | [-> | ->]]].
  - injection Hrun as <- <-. split; [done | ]. split; [by left | done].
  - injection Hrun as <- <-. split; [done | ]. split; [by right | done].
  - apply IH in Hrun as (Hg2 & Hc2 & Hi2). split; [congruence | done].
  - injection Hrun as <- <-. split; [done | ]. split; [by left | done].
Qed.

(** C9 (amended).  With sink creation on, when [ComputeH] returns 1 the
    loop was left by convergence or by its condition, and the flag [potmin]
    is set exactly when no neighbour [j] has both
    [gpot[j] > 1.000000001 * gpot_i] and [drsqd[j] * invhsqd < kernrangesqd],
    where [invhsqd] is the inverse square of the [h] of the last density
    evaluation (not of the final [h]).  The thermal update that follows is
    assumed to leave the flag alone. *)
Theorem ComputeH_potmin_flag this i Nneib hmax m mu drsqd gpot p p' :
  create_sinks this = 1%Z ->
  (forall q, Particle.potmin (UpdatePrimitiveVector this (ComputeThermalProperties this q))
             = Particle.potmin q) ->
  ComputeH this i Nneib hmax m mu drsqd gpot p = Ok (1%Z, p') ->
  exists s,
    ComputeH_loop (5 * iteration_max) this Nneib hmax m drsqd (ComputeH_start this hmax p)
    = Ok (None, s)
    /\ invhsqd s = Particle.invh (part s) * Particle.invh (part s)
    /\ (Particle.potmin p' = true
        <-> forall j, (j < Nneib)%nat ->
              ~ ((1000000001 # 1000000000) * Particle.gpot p < vget gpot j
                 /\ vget drsqd j * invhsqd s < kernrangesqd (kern this))).
Proof.
  intros Hsink Hthermal. unfold ComputeH.
  destruct (_ && _); [discriminate | ].
  intros Hrun.
  apply bind_Ok in Hrun as (_ & _ & Hrun). apply bind_Ok in Hrun as (_ & _ & Hrun).
  apply bind_Ok in Hrun as (_ & _ & Hrun). apply bind_Ok in Hrun as (_ & _ & Hrun).
  apply bind_Ok in Hrun as ([code s] & Hloop & Hrun).
  destruct (ComputeH_loop_frame _ _ _ _ _ _ _ _ _ Hloop) as (Hg & Hcode & Hinv).
  destruct Hcode as [-> | ->]; [ | discriminate].
  exists s. split; [exact Hloop | ]. split; [exact Hinv | ].
  unfold ComputeH_finish in Hrun. cbv zeta in Hrun. rewrite Hsink in Hrun. cbn [Z.eqb Pos.eqb] in Hrun.
  destruct (ComputeH_potmin_spec this Nneib drsqd gpot (invhsqd s)
              (ComputeH_finalise this s)) as (_ & Hflag).
  cbv zeta in Hflag. rewrite ComputeH_finalise_gpot, Hg in Hflag.
  change (Particle.gpot (part (ComputeH_start this hmax p))) with (Particle.gpot p) in Hflag.
  destruct (Qleb _ hmax); [ | discriminate].
  injection Hrun as <-. by rewrite Hthermal.
Qed.

(** C9, witness: a converged particle none of whose four neighbours has a
    larger potential gets the flag. *)
Lemma ComputeH_potmin_flag_witness :
  exists p',
    ComputeH (Examples.mfv 1 0 1 (1 # 100) 1) 0 4 20 [1; 1; 1; 1] [] [0; 0; 0; 0]
      [1; 0; 0; 0] (Examples.particle_gpot [0] [0] 1 1) = Ok (1%Z, p')
    /\ Particle.potmin p' = true.
Proof.
  eexists. split; [vm_compute; reflexivity | ].
  edestruct (ComputeH_potmin_flag (Examples.mfv 1 0 1 (1 # 100) 1) 0 4 20 [1; 1; 1; 1] []
               [0; 0; 0; 0] [1; 0; 0; 0] (Examples.particle_gpot [0] [0] 1 1))
    as (s & Hs & _ & Hflag); [reflexivity | reflexivity | vm_compute; reflexivity | ].
  apply Hflag. intros j Hj [Ha _]. revert Ha.
  destruct j as [|[|[|[|j]]]]; [ | | | | lia]; vm_compute; discriminate.
Defined.

(** C9, counterexample: a neighbour at the particle's position with potential
    [1.0000000005] against the particle's [1] is strictly greater and within
    reach, and the flag is set all the same. *)
Lemma ComputeH_potmin_tolerance :
  exists p',
    ComputeH (Examples.mfv 1 0 1 (1 # 100) 1) 0 4 20 [1; 1; 1; 1] [] [0; 0; 0; 0]
      [10000000005 # 10000000000; 0; 0; 0] (Examples.particle_gpot [0] [0] 1 1)
    = Ok (1%Z, p')
    /\ ~ potmin_as_stated (Examples.mfv 1 0 1 (1 # 100) 1) 4 [0; 0; 0; 0]
           [10000000005 # 10000000000; 0; 0; 0] p'.
Proof.
  eexists. split; [vm_compute; reflexivity | ].
  unfold potmin_as_stated. intros [H _].
  apply (H eq_refl 0%nat); [lia | ]. vm_compute. done.
Qed.

End ComputeHPotmin.

(** ** Godunov fluxes: [ComputeGodunovFlux] *)

Section GodunovFlux.

Import Mfv.

Lemma accumulate_flux_step this flux Aij n part neib :
  let '(part', neib') :=
    for_range n
      (fun var '(part, neib) =>
         (Particle.set_dQdt
            (vset var (vget (Particle.dQdt part) var
                       - DotProduct (nth var flux []) Aij (ndim this)) (Particle.dQdt part))
            part,
          Particle.set_dQdt
            (vset var (vget (Particle.dQdt neib) var
                       + DotProduct (nth var flux []) Aij (ndim this)) (Particle.dQdt neib))
            neib))
      (part, neib) in
  length (Particle.dQdt part') = length (Particle.dQdt part)
  /\ length (Particle.dQdt neib') = length (Particle.dQdt neib)
  /\ forall var,
       (var < length (Particle.dQdt part))%nat ->
       (var < length (Particle.dQdt neib))%nat ->
       vget (Particle.dQdt part') var
       = (if (var <? n)%nat
          then vget (Particle.dQdt part) var - DotProduct (nth var flux []) Aij (ndim this)
          else vget (Particle.dQdt part) var)
       /\ vget (Particle.dQdt neib') var
          = (if (var <? n)%nat
             then vget (Particle.dQdt neib) var + DotProduct (nth var flux []) Aij (ndim this)
             else vget (Particle.dQdt neib) var).
Proof.
  induction n as [|n IH].
  - cbn. by repeat split.
  - rewrite for_range_S. destruct (for_range n _ _) as [part' neib'].
    destruct IH as (Lp & Ln & IH). cbn [Particle.dQdt Particle.set_dQdt].
    rewrite !length_vset. split; [done | ]. split; [done | ].
    intros var Hp Hn. destruct (IH var Hp Hn) as [IHp IHn].
    destruct (decide (var = n)) as [-> | Hne].
    + rewrite !vget_vset_eq by lia.
      rewrite (proj2 (Nat.ltb_lt n (Datatypes.S n))) by lia.
      rewrite (proj2 (Nat.ltb_ge n n)) in IHp, IHn by lia.
      by rewrite IHp, IHn.
    + rewrite !vget_vset_ne by done. rewrite IHp, IHn.
      destruct (var <? n)%nat eqn:E1, (var <? Datatypes.S n)%nat eqn:E2; try done.
      * apply Nat.ltb_lt in E1. apply Nat.ltb_ge in E2. lia.
      * apply Nat.ltb_ge in E1. apply Nat.ltb_lt in E2. lia.
Qed.

(** C5.  For every pair processed by the neighbour loop of
    [ComputeGodunovFlux], one flux [F] (from the Riemann solver) and one
    pseudo-area vector [A] are computed; for every state variable the
    particle receives [- F.A] and the neighbour receives [+ F.A], so each
    contribution is exactly the negation of the other; no other neighbour is
    touched. *)
Theorem GodunovFlux_pair_antisymmetric this neiblist jj part neibpart part' neibpart' :
  GodunovFlux_neib this neiblist jj (part, neibpart) = Ok (part', neibpart') ->
  exists j neib neib' F,
    neiblist !! jj = Some j
    /\ neibpart !! j = Some neib
    /\ neibpart' = <[j := neib']> neibpart
    /\ pair_flux this part neib = Ok F
    /\ forall var,
         (var < nvar this)%nat ->
         (var < length (Particle.dQdt part))%nat ->
         (var < length (Particle.dQdt neib))%nat ->
         let FA := DotProduct (nth var F []) (area_vector this part neib) (ndim this) in
         vget (Particle.dQdt part') var = vget (Particle.dQdt part) var - FA
         /\ vget (Particle.dQdt neib') var = vget (Particle.dQdt neib) var + FA
         /\ vget (Particle.dQdt part') var - vget (Particle.dQdt part) var
            == - (vget (Particle.dQdt neib') var - vget (Particle.dQdt neib) var).
Proof.
  unfold GodunovFlux_neib. intros Hrun.
  apply bind_Ok in Hrun as (j & Hj & Hrun). apply read_Ok in Hj.
  apply bind_Ok in Hrun as (neib & Hneib & Hrun). apply read_Ok in Hneib.
  apply bind_Ok in Hrun as (F & HF & Hrun).
  pose proof (accumulate_flux_step this F (area_vector this part neib) (nvar this)
                part neib) as Hacc.
  unfold accumulate_flux in Hrun.
  destruct (for_range (nvar this) _ (part, neib)) as [part1 neib1].
  destruct Hacc as (_ & _ & Hacc).
  apply bind_Ok in Hrun as (data & Hw & Hrun). apply write_Ok in Hw as [_ ->].
  injection Hrun as <- <-.
  exists j, neib, neib1, F. repeat split; try done.
  - destruct (Hacc var) as [Hp _]; [done | done | ].
    by rewrite (proj2 (Nat.ltb_lt _ _)) in Hp.
  - destruct (Hacc var) as [_ Hn]; [done | done | ].
    by rewrite (proj2 (Nat.ltb_lt _ _)) in Hn.
  - destruct (Hacc var) as [Hp Hn]; [done | done | ].
    rewrite (proj2 (Nat.ltb_lt _ _)) in Hp, Hn by done.
    rewrite Hp, Hn. ring.
Qed.

(** C5, witness: two fluid particles one length apart, with a solver that
    returns the fluxes 1, 2 and 3: what the particle receives for the first
    variable is the negation of what its neighbour receives. *)
Lemma GodunovFlux_pair_antisymmetric_witness :
  exists part' neib',
    GodunovFlux_neib (Examples.mfv 1 0 1 1 0) [0%nat] 0
      (Examples.fluid 0, [Examples.fluid 1]) = Ok (part', [neib'])
    /\ vget (Particle.dQdt part') 0 - vget (Particle.dQdt (Examples.fluid 0)) 0
       == - (vget (Particle.dQdt neib') 0 - vget (Particle.dQdt (Examples.fluid 1)) 0).
Proof.
  destruct (GodunovFlux_neib (Examples.mfv 1 0 1 1 0) [0%nat] 0
              (Examples.fluid 0, [Examples.fluid 1]))
    as [[part' neibpart']| | | | | |] eqn:Hrun; try (vm_compute in Hrun; discriminate).
  destruct (GodunovFlux_pair_antisymmetric _ _ _ _ _ _ _ Hrun)
    as (j & neib & neib' & F & Hj & Hn & -> & _ & H).
  injection Hj as <-. injection Hn as <-.
  exists part', neib'. split; [reflexivity | ].
  apply (H 0%nat); cbn; lia.
Defined.

End GodunovFlux.

(** ** The per-cell loop: neighbour buffers and [hmax] *)

Section CellLoop.

Import SphTree CellSpec.

Lemma int_value_Ok z z' :
  int_value z = Ok z' <-> (INT_MIN <= z <= INT_MAX)%Z /\ z' = z.
Proof.
  unfold int_value.
  destruct (Z.leb_spec INT_MIN z), (Z.leb_spec z INT_MAX); cbn; split;
    try discriminate; try (intros [? _]; lia).
  - intros E. injection E as <-. done.
  - by intros [_ ->].
Qed.

Lemma new_array_Ok {A : Type} (heap : Z -> bool) (zero : A) (n : Z) l :
  new_array heap zero n = Ok l
  <-> (0 <= n)%Z /\ heap n = true /\ l = replicate (Z.to_nat n) zero.
Proof.
  unfold new_array.
  destruct (Z.leb_spec 0 n), (heap n); cbn; split;
    try discriminate; try (intros (? & ? & _); first [lia | discriminate]).
  - intros E. injection E as <-. done.
  - by intros (_ & _ & ->).
Qed.

(** What a reallocation that succeeds has done. *)
Lemma reallocate_Ok this b b' :
  reallocate this b = Ok b' ->
  let n := (2 * Nneibmax b)%Z in
  (0 <= n <= INT_MAX)%Z
  /\ (n * Z.of_nat (ndim this) <= INT_MAX)%Z
  /\ heap this n = true /\ heap this (n * Z.of_nat (ndim this)) = true
  /\ b' = {| Nneibmax := n;
             neiblist := replicate (Z.to_nat n) 0%nat;
             ptype := replicate (Z.to_nat n) 0%nat;
             gpot := replicate (Z.to_nat n) 0;
             gpot2 := replicate (Z.to_nat n) 0;
             drsqd := replicate (Z.to_nat n) 0;
             m := replicate (Z.to_nat n) 0;
             m2 := replicate (Z.to_nat n) 0;
             r := replicate (Z.to_nat (n * Z.of_nat (ndim this))) 0 |}.
Proof.
  unfold reallocate. generalize (2 * Nneibmax b)%Z. intros n Hrun.
  apply bind_Ok in Hrun as (n' & Hn & Hrun). apply int_value_Ok in Hn as [Hn ->].
  apply bind_Ok in Hrun as (a1 & H1 & Hrun). apply new_array_Ok in H1 as (H0 & Hh & ->).
  apply bind_Ok in Hrun as (a2 & H2 & Hrun). apply new_array_Ok in H2 as (_ & _ & ->).
  apply bind_Ok in Hrun as (a3 & H3 & Hrun). apply new_array_Ok in H3 as (_ & _ & ->).
  apply bind_Ok in Hrun as (a4 & H4 & Hrun). apply new_array_Ok in H4 as (_ & _ & ->).
  apply bind_Ok in Hrun as (a5 & H5 & Hrun). apply new_array_Ok in H5 as (_ & _ & ->).
  apply bind_Ok in Hrun as (a6 & H6 & Hrun). apply new_array_Ok in H6 as (_ & _ & ->).
  apply bind_Ok in Hrun as (a7 & H7 & Hrun). apply new_array_Ok in H7 as (_ & _ & ->).
  apply bind_Ok in Hrun as (nr & Hnr & Hrun). apply int_value_Ok in Hnr as [Hr ->].
  apply bind_Ok in Hrun as (a8 & H8 & Hrun). apply new_array_Ok in H8 as (_ & Hhr & ->).
  injection Hrun as <-. cbv zeta. repeat split; first [done | lia].
Qed.





Lemma gather_Nneibmax this cell sphdata hmax b :
  Nneibmax (snd (gather this cell sphdata hmax b)) = Nneibmax b
  /\ ptype (snd (gather this cell sphdata hmax b)) = ptype b
  /\ gpot (snd (gather this cell sphdata hmax b)) = gpot b
  /\ gpot2 (snd (gather this cell sphdata hmax b)) = gpot2 b
  /\ drsqd (snd (gather this cell sphdata hmax b)) = drsqd b
  /\ m (snd (gather this cell sphdata hmax b)) = m b
  /\ m2 (snd (gather this cell sphdata hmax b)) = m2 b
  /\ r (snd (gather this cell sphdata hmax b)) = r b.
Proof.
  unfold gather.
  destruct (ComputeGatherNeighbourList (tree this) _ _ _ _ _ _) as [n1 l1].
  destruct (ComputeGatherNeighbourList (ghosttree this) _ _ _ _ _ _) as [n2 l2].
  by cbn.
Qed.

Lemma gather_retry_S fuel this cell sphdata hmax Nneib b :
  gather_retry (Datatypes.S fuel) this cell sphdata hmax Nneib b
  = if (Nneib =? -1)%Z
    then reallocate this b ≫= fun b =>
         let '(Nneib, b) := gather this cell sphdata hmax b in
         gather_retry fuel this cell sphdata hmax Nneib b
    else Ok (Nneib, b).
Proof. reflexivity. Qed.










Lemma cell_loop_S fuel this sph cell sphdata h b passes :
  cell_loop (Datatypes.S fuel) this sph cell sphdata h b passes
  = cell_pass (Datatypes.S fuel) this sph cell sphdata h b ≫= fun '(h, activelist, st) =>
    let passes := passes ++ [(h, okflags st)] in
    if celldone st then Ok (activelist, st, passes)
    else cell_loop fuel this sph cell sphdata h (scratch st) passes.
Proof. reflexivity. Qed.







End CellLoop.

(** * Further properties of the code *)

(** ** [CheckBoundaries]: what the sweep leaves alone *)

Section CheckBoundariesFrame.

Import Simulation.

Lemma CheckBoundaries_dim_inside simbox k lhs rhs p :
  vget (boxmin simbox) k <= vget (Particle.r p) k <= vget (boxmax simbox) k ->
  CheckBoundaries_dim simbox k lhs rhs p = p.
Proof.
  intros [Hlo Hhi]. unfold CheckBoundaries_dim.
  rewrite (proj2 (Qltb_ge _ _) Hlo). cbv zeta.
  by rewrite (proj2 (Qgtb_le _ _) Hhi).
Qed.

(** X1.  [CheckBoundaries] changes nothing but positions of real particles:
    the counters and the length of the array are kept, the slots from [Nsph]
    on (the ghosts) are not touched, and a real particle that lies inside the
    box along every dimension is left exactly as it was. *)
Theorem CheckBoundaries_leaves_inside_and_ghosts ndim simbox sph :
  (1 <= ndim)%nat ->
  Nsph (CheckBoundaries ndim simbox sph) = Nsph sph
  /\ Nghost (CheckBoundaries ndim simbox sph) = Nghost sph
  /\ Ntot (CheckBoundaries ndim simbox sph) = Ntot sph
  /\ length (sphdata (CheckBoundaries ndim simbox sph)) = length (sphdata sph)
  /\ (forall i, (Nsph sph <= i)%nat ->
        sphdata (CheckBoundaries ndim simbox sph) !! i = sphdata sph !! i)
  /\ (forall i p, (i < Nsph sph)%nat -> sphdata sph !! i = Some p ->
        (forall d, (d < ndim)%nat ->
           vget (boxmin simbox) d <= vget (Particle.r p) d <= vget (boxmax simbox) d) ->
        sphdata (CheckBoundaries ndim simbox sph) !! i = Some p).
Proof.
  intros Hn. split; [done | ]. split; [done | ]. split; [done | ].
  split; [ | split].
  - unfold CheckBoundaries. cbn [sphdata set_sphdata].
    induction (Nsph sph) as [|n IH]; [done | ].
    rewrite for_range_S. by rewrite length_alter.
  - intros i Hi. unfold CheckBoundaries. cbn [sphdata set_sphdata].
    rewrite for_range_alter. by rewrite (proj2 (Nat.ltb_ge _ _) Hi).
  - intros i p Hi Hp Hin. rewrite CheckBoundaries_lookup, Hp by done. cbn. f_equal.
    unfold CheckBoundaries_part.
    rewrite (CheckBoundaries_dim_inside simbox 0 _ _ p) by (apply Hin; lia).
    cbv zeta.
    destruct (Nat.leb_spec 2 ndim) as [E2|E2];
      destruct (Nat.eqb_spec ndim 3) as [E3|E3]; try lia;
      rewrite ?(CheckBoundaries_dim_inside simbox 1 _ _ p) by (apply Hin; lia);
      rewrite ?(CheckBoundaries_dim_inside simbox 2 _ _ p) by (apply Hin; lia);
      done.
Qed.

(** X1, witness: a particle in the middle of the periodic unit box stays
    where it is. *)
Lemma CheckBoundaries_leaves_inside_and_ghosts_witness :
  sphdata (CheckBoundaries 1 (Examples.unit_box "periodic")
             (Examples.sph_of 1 [Examples.particle [1 # 2] [1] (1 # 100)])) !! 0%nat
  = Some (Examples.particle [1 # 2] [1] (1 # 100)).
Proof.
  apply (CheckBoundaries_leaves_inside_and_ghosts 1 (Examples.unit_box "periodic")
           (Examples.sph_of 1 [Examples.particle [1 # 2] [1] (1 # 100)])).
  - lia.
  - cbn. lia.
  - reflexivity.
  - intros d Hd. assert (d = 0%nat) as -> by lia. vm_compute. split; discriminate.
Defined.

End CheckBoundariesFrame.

(** ** The ghost search: what it keeps and what its ghosts are *)

Section SearchGhostInduction.

Import Simulation Ghosts GhostFrame.

Variable P : Sph -> Prop.
Variable ndim : nat.

Hypothesis P_create : forall i k rk vk bdist s s',
  swept ndim k -> (i < Nsph s + Nghost s)%nat -> P s ->
  CreateGhostParticle i k rk vk bdist s = Ok s' -> P s'.
Hypothesis P_Ntot : forall n s, P s -> P (set_Ntot n s).

Lemma SearchGhost_part_keeps N simbox k lhs rhs kernrange i sph sph' :
  swept ndim k -> (i < Ntot sph)%nat -> search_inv N sph -> P sph ->
  SearchGhost_part simbox k lhs rhs kernrange i sph = Ok sph' ->
  search_inv N sph' /\ P sph' /\ Ntot sph' = Ntot sph.
Proof.
  intros Hk Hi Hinv HP. unfold SearchGhost_part.
  assert (Hstep : forall rk vk bdist (b : bool) s s',
             search_inv N s /\ P s /\ Ntot s = Ntot sph ->
             (if b then (read (sphdata s) i ≫= fun p =>
                         CreateGhostParticle i k (rk p) (vk p) (bdist p) s)
              else Ok s) = Ok s' ->
             search_inv N s' /\ P s' /\ Ntot s' = Ntot sph).
  { intros rk vk bdist b s s' (Hs & Ps & Et) Hrun. destruct b.
    - apply bind_Ok in Hrun as (p & _ & Hrun).
      assert (Hlt : (i < Nsph s + Nghost s)%nat).
      { destruct Hs as (_ & Hle & _). lia. }
      pose proof (P_create _ _ _ _ _ _ _ Hk Hlt Ps Hrun) as Ps'.
      apply CreateGhostParticle_search_inv with (N := N) in Hrun; [ | lia | done].
      destruct Hrun. split; [done | ]. split; [done | congruence].
    - by injection Hrun as <-. }
  intros Hrun.
  apply bind_Ok in Hrun as (p & _ & Hrun).
  apply bind_Ok in Hrun as (s1 & H1 & Hrun).
  assert (I1 : search_inv N s1 /\ P s1 /\ Ntot s1 = Ntot sph).
  { destruct (Qltb _ _).
    - apply bind_Ok in H1 as (s0 & H0 & H1).
      eapply Hstep in H0; [ | done].
      eapply Hstep in H1; [ | exact H0]. exact H1.
    - by injection H1 as <-. }
  apply bind_Ok in Hrun as (p1 & _ & Hrun).
  destruct (Qgtb _ _).
  - apply bind_Ok in Hrun as (s2 & H2 & Hrun).
    eapply Hstep in H2; [ | exact I1].
    eapply Hstep in Hrun; [ | exact H2]. exact Hrun.
  - by injection Hrun as <-.
Qed.

Lemma SearchGhost_dim_keeps N simbox k lhs rhs kernrange sph sph' :
  swept ndim k -> search_inv N sph -> P sph ->
  Ntot sph = (Nsph sph + Nghost sph)%nat ->
  SearchGhost_dim simbox k lhs rhs kernrange sph = Ok sph' ->
  search_inv N sph' /\ P sph' /\ Ntot sph' = (Nsph sph' + Nghost sph')%nat.
Proof.
  intros Hk Hinv HP Htot. unfold SearchGhost_dim.
  destruct (negb _); [ | intros H; by injection H as <-].
  intros Hrun. apply bind_Ok in Hrun as (s & Hloop & Hrun). injection Hrun as <-.
  apply (for_rangeM_inv (fun s => search_inv N s /\ P s /\ Ntot s = Ntot sph)) in Hloop.
  - destruct Hloop as ((HN & _ & Hok) & Ps & _).
    split; [ | split; [by apply P_Ntot | reflexivity]].
    unfold search_inv. cbn. split; [done | ]. split; [lia | done].
  - intros i t t' Hi (Ht & Pt & Et) Hbody.
    apply SearchGhost_part_keeps with (N := N) in Hbody; [ | done | lia | done | done].
    destruct Hbody as (? & ? & ?). split; [done | ]. split; [done | congruence].
  - done.
Qed.

Lemma SearchGhostParticles_keeps simbox sph sph' :
  P (set_Ntot (Nsph sph)
       (set_Nghostmax (Z.of_nat (Nsphmax sph) - Z.of_nat (Nsph sph))%Z
          (set_Nghost 0 sph))) ->
  (forall s, P s -> Nsphmax s = Nsphmax sph) ->
  SearchGhostParticles ndim simbox sph = Ok sph' ->
  P sph' /\ search_inv (Nsph sph) sph'
  /\ Ntot sph' = (Nsph sph' + Nghost sph')%nat
  /\ ((Nsph sph <= Nsphmax sph)%nat -> (Ntot sph' <= Nsphmax sph)%nat).
Proof.
  unfold SearchGhostParticles. cbv zeta. cbn [Nsph Nsphmax set_Nghost set_Nghostmax].
  set (s0 := set_Ntot _ _).
  assert (H0 : search_inv (Nsph sph) s0).
  { unfold search_inv, s0. cbn. split; [done | ]. split; [lia | ].
    intros j Hj. lia. }
  assert (T0 : Ntot s0 = (Nsph s0 + Nghost s0)%nat) by (cbn; lia).
  assert (N0 : Ntot s0 = Nsph sph) by done.
  clearbody s0. intros P0 Hmax Hrun.
  destruct (_ && _).
  - injection Hrun as <-. repeat split; try done; try apply H0. lia.
  - apply bind_Ok in Hrun as (s1 & H1 & Hrun).
    apply SearchGhost_dim_keeps with (N := Nsph sph) in H1;
      [ | by left | done | done | done].
    destruct H1 as (I1 & P1 & T1).
    apply bind_Ok in Hrun as (s2 & H2 & Hrun).
    assert (I2 : search_inv (Nsph sph) s2 /\ P s2
                 /\ Ntot s2 = (Nsph s2 + Nghost s2)%nat).
    { destruct (Nat.leb_spec 2 ndim).
      - apply SearchGhost_dim_keeps with (N := Nsph sph) in H2; try done.
        right; left. by split.
      - by injection H2 as <-. }
    destruct I2 as (I2 & P2 & T2).
    apply bind_Ok in Hrun as (s3 & H3 & Hrun).
    assert (I3 : search_inv (Nsph sph) s3 /\ P s3
                 /\ Ntot s3 = (Nsph s3 + Nghost s3)%nat).
    { destruct (Nat.eqb_spec ndim 3).
      - apply SearchGhost_dim_keeps with (N := Nsph sph) in H3; try done.
        right; right. by split.
      - by injection H3 as <-. }
    destruct I3 as (I3 & P3 & T3).
    destruct (Nat.ltb_spec (Nsphmax s3) (Ntot s3)); [discriminate | ].
    injection Hrun as <-. repeat split; try done; try apply I3.
    intros _. rewrite <- (Hmax s3) by done. lia.
Qed.

End SearchGhostInduction.

Section GhostFrameProofs.

Import Simulation Ghosts GhostFrame.

Lemma alike_refl ndim o : alike ndim o o.
Proof. by repeat split. Qed.

Lemma alike_trans ndim a b c : alike ndim a b -> alike ndim b c -> alike ndim a c.
Proof.
  intros (A1 & A2 & A3 & A4 & A5) (B1 & B2 & B3 & B4 & B5).
  repeat split; try congruence.
  - destruct (A5 k) as [-> _]; [done | ]. by apply B5.
  - destruct (A5 k) as [_ ->]; [done | ]. by apply B5.
Qed.

(** The particle [CreateGhostParticle] stores differs from the one it copied
    in component [k] of position and velocity and in the bookkeeping only. *)
Lemma alike_created ndim k rk vk io parent :
  swept ndim k ->
  alike ndim
    (Particle.set_iorig io
       (Particle.set_active false
          (Particle.set_v_k k vk (Particle.set_r_k k rk parent)))) parent.
Proof.
  intros Hk. repeat split; cbn; rewrite ?length_vset; try done.
  - unfold vset. apply list_lookup_insert_ne. by intros ->.
  - unfold vset. apply list_lookup_insert_ne. by intros ->.
Qed.

Lemma CreateGhostParticle_ghost_frame ndim sph0 i k rk vk bdist s s' :
  swept ndim k -> (i < Nsph s + Nghost s)%nat -> ghost_frame ndim sph0 s ->
  CreateGhostParticle i k rk vk bdist s = Ok s' -> ghost_frame ndim sph0 s'.
Proof.
  intros Hk Hi (F1 & F2 & F3 & F4 & F5 & F6) Hrun.
  destruct (CreateGhostParticle_Ok _ _ _ _ _ _ _ Hi Hrun)
    as (parent & ghost & Hp & Hslot & _ & Hghost & ->).
  unfold ghost_frame. cbn [Nsph Nsphmax Nghost Nghostmax sphdata set_Nghost set_sphdata].
  rewrite length_insert.
  split; [done | ]. split; [done | ]. split; [done | ]. split; [done | ]. split.
  - intros j Hj. rewrite list_lookup_insert_ne by lia. by apply F5.
  - intros j Hj. destruct (decide (j = Nsph s + Nghost s)%nat) as [-> | Hne].
    + rewrite list_lookup_insert_eq by done.
      destruct (Nat.leb_spec (Nsph s) i) as [Hghosti | Hreal].
      * destruct (F6 i) as (g & o & Hg & Hio & Ho & Hact & Hlike); [lia | ].
        assert (g = parent) as -> by congruence.
        exists ghost, o. subst ghost. split; [done | ]. split; [done | ].
        split; [done | ]. split; [done | ].
        eapply alike_trans; [by apply alike_created | done].
      * exists ghost, parent. subst ghost. split; [done | ].
        split; [cbn; lia | ]. split; [cbn; rewrite <- F5 by lia; done | ].
        split; [done | ]. by apply alike_created.
    + rewrite list_lookup_insert_ne by done. apply F6. lia.
Qed.

Lemma SearchGhostParticles_ghost_frame ndim simbox sph sph' :
  SearchGhostParticles ndim simbox sph = Ok sph' ->
  ghost_frame ndim sph sph'
  /\ Ntot sph' = (Nsph sph + Nghost sph')%nat
  /\ ((Nsph sph <= Nsphmax sph)%nat -> (Ntot sph' <= Nsphmax sph)%nat).
Proof.
  intros Hrun.
  apply (SearchGhostParticles_keeps (ghost_frame ndim sph) ndim) in Hrun.
  - destruct Hrun as (HF & (HN & _) & Htot & Hmax). rewrite HN in Htot. done.
  - intros i k rk vk bdist s s' Hk Hi HF.
    by apply CreateGhostParticle_ghost_frame.
  - intros n s (F1 & F2 & F3 & F4 & F5 & F6). by repeat split.
  - repeat split. intros j Hj. cbn in Hj. lia.
  - by intros s (_ & F2 & _).
Qed.

(** X2.  A ghost search that returns has kept the real particles, their
    number, the capacity and the length of the array; it leaves [Ntot] equal
    to [Nsph] plus the number of ghosts and [Nghostmax] equal to
    [Nsphmax - Nsph]; and when the real particles fitted the capacity, so
    does [Ntot]. *)
Theorem SearchGhostParticles_keeps_real_particles ndim simbox sph sph' :
  SearchGhostParticles ndim simbox sph = Ok sph' ->
  Nsph sph' = Nsph sph
  /\ Nsphmax sph' = Nsphmax sph
  /\ length (sphdata sph') = length (sphdata sph)
  /\ (forall i, (i < Nsph sph)%nat -> sphdata sph' !! i = sphdata sph !! i)
  /\ Ntot sph' = (Nsph sph + Nghost sph')%nat
  /\ Nghostmax sph' = (Z.of_nat (Nsphmax sph) - Z.of_nat (Nsph sph))%Z
  /\ ((Nsph sph <= Nsphmax sph)%nat -> (Ntot sph' <= Nsphmax sph)%nat).
Proof.
  intros Hrun.
  destruct (SearchGhostParticles_ghost_frame _ _ _ _ Hrun)
    as ((F1 & F2 & F3 & F4 & F5 & _) & Htot & Hmax).
  done.
Qed.

(** X2, witness: the particle near the corner of the periodic unit square
    is still in slot 0 after the search that made its three ghosts. *)
Lemma SearchGhostParticles_keeps_real_particles_witness :
  exists sph',
    SearchGhostParticles 2 (Examples.unit_square "periodic") Examples.near_corner = Ok sph'
    /\ sphdata sph' !! 0%nat = sphdata Examples.near_corner !! 0%nat
    /\ Ntot sph' = 4%nat.
Proof.
  eexists. split; [vm_compute; reflexivity | ].
  pose proof (SearchGhostParticles_keeps_real_particles 2
                (Examples.unit_square "periodic") Examples.near_corner _
                ltac:(vm_compute; reflexivity)) as (_ & _ & _ & Hreal & Htot & _).
  split; [apply Hreal; cbn; lia | exact Htot].
Defined.

(** X3.  Every ghost a returning search has made is an inactive copy of a
    real particle of the array, the one its [iorig] names: it has that
    particle's kind and non-spatial state (mass, smoothing length, density,
    primitive state, ...), and position and velocity vectors of the same
    length that differ from it in swept dimensions only. *)
Theorem SearchGhostParticles_ghosts_copy_originals ndim simbox sph sph' j :
  SearchGhostParticles ndim simbox sph = Ok sph' ->
  (Nsph sph <= j < Ntot sph')%nat ->
  exists g o,
    sphdata sph' !! j = Some g
    /\ (Particle.iorig g < Nsph sph)%nat
    /\ sphdata sph' !! Particle.iorig g = Some o
    /\ Particle.active g = false
    /\ Particle.itype g = Particle.itype o
    /\ Particle.nonspatial g = Particle.nonspatial o
    /\ length (Particle.r g) = length (Particle.r o)
    /\ length (Particle.v g) = length (Particle.v o)
    /\ (forall k, (1 <= k)%nat -> (ndim <= k)%nat ->
          Particle.r g !! k = Particle.r o !! k /\ Particle.v g !! k = Particle.v o !! k).
Proof.
  intros Hrun Hj.
  destruct (SearchGhostParticles_ghost_frame _ _ _ _ Hrun)
    as ((F1 & F2 & F3 & F4 & F5 & F6) & Htot & _).
  destruct (F6 j) as (g & o & Hg & Hio & Ho & Hact & H1 & H2 & H3 & H4 & H5); [lia | ].
  exists g, o. rewrite (F5 (Particle.iorig g)) by done. repeat split; try done.
  - apply H5. unfold swept. lia.
  - apply H5. unfold swept. lia.
Qed.

(** X3, witness: the third ghost of the particle near the corner, the clone
    across y of its ghost across x, has the smoothing length of the real
    particle. *)
Lemma SearchGhostParticles_ghosts_copy_originals_witness :
  exists sph' g o,
    SearchGhostParticles 2 (Examples.unit_square "periodic") Examples.near_corner = Ok sph'
    /\ sphdata sph' !! 3%nat = Some g
    /\ sphdata sph' !! Particle.iorig g = Some o
    /\ Particle.nonspatial g = Particle.nonspatial o.
Proof.
  eexists.
  destruct (SearchGhostParticles_ghosts_copy_originals 2
              (Examples.unit_square "periodic") Examples.near_corner _ 3%nat
              ltac:(vm_compute; reflexivity) ltac:(vm_compute; lia))
    as (g & o & Hg & _ & Ho & _ & _ & Hns & _).
  exists g, o. split; [vm_compute; reflexivity | done].
Defined.

Lemma vcopy_lookup n src dst k :
  vcopy n src dst !! k
  = if decide (k < n /\ k < length dst)%nat then Some (vget src k) else dst !! k.
Proof.
  unfold vcopy. induction n as [|n IH].
  - cbn. rewrite decide_False by lia. done.
  - rewrite for_range_S. unfold vset at 1.
    destruct (decide (k = n)) as [-> | Hne].
    + destruct (decide (n < length dst)%nat) as [Hlt | Hge].
      * rewrite list_lookup_insert_eq by (fold (vcopy n src dst); by rewrite vcopy_length).
        by rewrite decide_True by lia.
      * rewrite list_insert_ge by (fold (vcopy n src dst); rewrite vcopy_length; lia).
        rewrite IH. by rewrite !decide_False by lia.
    + rewrite list_lookup_insert_ne by done. rewrite IH.
      destruct (decide (k < n /\ k < length dst)%nat).
      * by rewrite decide_True by lia.
      * by rewrite decide_False by lia.
Qed.

(** Saving the first [ndim] components, overwriting the vector with one that
    agrees with it beyond them, and restoring them gives the vector back. *)
Lemma vcopy_roundtrip n (a b : list Q) :
  length a = length b -> (forall k, (n <= k)%nat -> a !! k = b !! k) ->
  vcopy n (vcopy n a (replicate n 0)) b = a.
Proof.
  intros Hlen Hrest. apply list_eq. intros k. rewrite vcopy_lookup.
  case_decide as Hc.
  - destruct Hc as [Hn Hb]. rewrite vcopy_get by (rewrite ?length_replicate; done).
    unfold vget. destruct (lookup_lt_is_Some_2 a k) as [x ->]; [lia | done].
  - destruct (decide (n <= k)%nat); [symmetry; by apply Hrest | ].
    rewrite !lookup_ge_None_2 by lia. done.
Qed.

Lemma refreshed_sph_copy ndim g o :
  (1 <= ndim)%nat -> copy_of ndim g o -> refreshed_sph ndim g o = g.
Proof.
  intros Hn (Hact & Hty & Hns & Hr & Hv & Hrest).
  assert (Hr' : vcopy ndim (vcopy ndim (Particle.r g) (replicate ndim 0)) (Particle.r o)
                = Particle.r g).
  { apply vcopy_roundtrip; [done | ]. intros k Hk. apply Hrest. unfold swept. lia. }
  assert (Hv' : vcopy ndim (vcopy ndim (Particle.v g) (replicate ndim 0)) (Particle.v o)
                = Particle.v g).
  { apply vcopy_roundtrip; [done | ]. intros k Hk. apply Hrest. unfold swept. lia. }
  unfold refreshed_sph. cbv zeta.
  destruct g, o. unfold Particle.nonspatial in Hns.
  cbn in Hact, Hty, Hns, Hr', Hv' |- *.
  rewrite Hr', Hv'. injection Hns as <- <- <- <- <- <- <- <- <- <- <- <- <- <- <- <- <- <- <-.
  by subst.
Qed.

(** A refresh loop whose every ghost is already what the refresh would store
    returns the array as it was. *)
Lemma refresh_loop_fixed (F : Particle.t -> Particle.t -> Particle.t) (base n : nat)
    (data : list Particle.t) :
  (forall j, (j < n)%nat ->
     exists g o, data !! (base + j)%nat = Some g
                 /\ data !! Particle.iorig g = Some o /\ F g o = g) ->
  for_rangeM n (refresh F base) data = Ok data.
Proof.
  intros Hfix.
  destruct (for_rangeM_from_total (fun _ t => t = data) (refresh F base) n 0 data)
    as (s' & Hs' & ->); [ | done | exact Hs'].
  intros i t Hi ->. exists data. split; [ | done].
  destruct (Hfix i) as (g & o & Hg & Ho & HF); [lia | ].
  unfold refresh. rewrite (proj2 (read_Ok _ _ _) Hg). cbn.
  rewrite (proj2 (read_Ok _ _ _) Ho). cbn.
  rewrite HF. unfold write.
  rewrite (proj2 (Nat.ltb_lt _ _)) by (by eapply lookup_lt_Some).
  by rewrite list_insert_id.
Qed.

(** X4.  Refreshing the ghosts right after they were made changes nothing:
    [CopySphDataToGhosts] run on the result of a ghost search returns that
    very state. *)
Theorem CopySphDataToGhosts_after_search_is_identity ndim simbox sph sph' :
  (1 <= ndim)%nat ->
  SearchGhostParticles ndim simbox sph = Ok sph' ->
  CopySphDataToGhosts ndim sph' = Ok sph'.
Proof.
  intros Hn Hrun.
  destruct (SearchGhostParticles_ghost_frame _ _ _ _ Hrun)
    as ((F1 & F2 & F3 & F4 & F5 & F6) & Htot & _).
  unfold CopySphDataToGhosts.
  change (for_rangeM (Nghost sph') (CopySphDataToGhosts_ghost ndim (Nsph sph')))
    with (for_rangeM (Nghost sph') (refresh (refreshed_sph ndim) (Nsph sph'))).
  rewrite refresh_loop_fixed.
  - cbn. by destruct sph'.
  - intros j Hj. destruct (F6 (Nsph sph + j)%nat) as (g & o & Hg & Hio & Ho & Hcopy);
      [lia | ].
    exists g, o. rewrite F1. split; [done | ].
    split; [by rewrite F5 | ]. by apply refreshed_sph_copy.
Qed.

(** X4, witness: the three ghosts of the particle near the corner. *)
Lemma CopySphDataToGhosts_after_search_is_identity_witness :
  exists sph',
    SearchGhostParticles 2 (Examples.unit_square "periodic") Examples.near_corner = Ok sph'
    /\ Nghost sph' = 3%nat
    /\ CopySphDataToGhosts 2 sph' = Ok sph'.
Proof.
  eexists. split; [vm_compute; reflexivity | ]. split; [reflexivity | ].
  apply (CopySphDataToGhosts_after_search_is_identity 2
           (Examples.unit_square "periodic") Examples.near_corner); [lia | ].
  vm_compute. reflexivity.
Defined.

End GhostFrameProofs.

Section GhostRefresh.

Import Simulation Ghosts.

(** A refresh whose result depends on the ghost only through what it keeps
    of it gives, run a second time, the array of the first run. *)
Lemma refresh_loop_idempotent (F : Particle.t -> Particle.t -> Particle.t)
    (base n : nat) (data data' : list Particle.t) :
  (base + n <= length data)%nat ->
  (forall j, (j < n)%nat ->
     exists g, data !! (base + j)%nat = Some g /\ (Particle.iorig g < base)%nat) ->
  (forall g p, Particle.iorig (F g p) = Particle.iorig g) ->
  (forall g p, F (F g p) p = F g p) ->
  for_rangeM n (refresh F base) data = Ok data' ->
  for_rangeM n (refresh F base) data' = Ok data'
  /\ length data' = length data
  /\ (forall k, (k < base \/ base + n <= k)%nat -> data' !! k = data !! k).
Proof.
  intros Hlen Hreal Hio Hidem Hrun.
  destruct (refresh_loop F base n data Hlen Hreal) as (d & Hd & Hl & Hout & Hin).
  assert (d = data') as -> by congruence.
  split; [ | done].
  apply refresh_loop_fixed. intros j Hj.
  destruct (Hreal j Hj) as (g & Hg & Hlt).
  destruct (lookup_lt_is_Some_2 data (Particle.iorig g)) as [p Hp]; [lia | ].
  exists (F g p), p. split; [by apply Hin | ].
  rewrite Hio. split; [ | apply Hidem].
  rewrite Hout by lia. done.
Qed.

Lemma vcopy_saved_idempotent n (a b : list Q) :
  vcopy n (vcopy n (vcopy n a b) (replicate n 0)) b = vcopy n a b.
Proof.
  apply vcopy_roundtrip; [by rewrite vcopy_length | ].
  intros k Hk. rewrite vcopy_lookup. apply decide_False. lia.
Qed.

Lemma refreshed_sph_idempotent ndim g p :
  refreshed_sph ndim (refreshed_sph ndim g p) p = refreshed_sph ndim g p.
Proof.
  unfold refreshed_sph. cbv zeta.
  cbn [Particle.r Particle.v Particle.iorig Particle.set_r Particle.set_v
       Particle.set_active Particle.set_iorig].
  by rewrite !vcopy_saved_idempotent.
Qed.

Lemma refreshed_mfv_idempotent this simbox g p :
  refreshed_mfv this simbox (refreshed_mfv this simbox g p) p
  = refreshed_mfv this simbox g p.
Proof.
  unfold refreshed_mfv at 1 3.
  destruct (ghost_transform_bookkeeping this simbox (Particle.itype g)
              (Particle.set_active false
                 (Particle.set_itype (Particle.itype g)
                    (Particle.set_iorig (Particle.iorig g) p)))) as (_ & Hio & Hty & _).
  fold (refreshed_mfv this simbox g p) in Hio, Hty.
  rewrite Hio, Hty. reflexivity.
Qed.

(** X5.  [CopySphDataToGhosts] is idempotent and touches ghosts only: when
    every ghost names a real particle, a second run right after a first
    returns the state of the first, and the first leaves the real particles,
    the slots past the ghosts and the length of the array as they were. *)
Theorem CopySphDataToGhosts_idempotent ndim sph sph' :
  (Nsph sph + Nghost sph <= length (sphdata sph))%nat ->
  ghosts_ok (Nsph sph) (Nghost sph) (sphdata sph) ->
  CopySphDataToGhosts ndim sph = Ok sph' ->
  CopySphDataToGhosts ndim sph' = Ok sph'
  /\ length (sphdata sph') = length (sphdata sph)
  /\ (forall k, (k < Nsph sph \/ Nsph sph + Nghost sph <= k)%nat ->
        sphdata sph' !! k = sphdata sph !! k).
Proof.
  intros Hlen Hok. unfold CopySphDataToGhosts. intros Hrun.
  apply bind_Ok in Hrun as (data' & Hloop & Hrun). injection Hrun as <-.
  cbn [Nsph Nghost sphdata set_sphdata].
  change (for_rangeM (Nghost sph) (CopySphDataToGhosts_ghost ndim (Nsph sph)))
    with (for_rangeM (Nghost sph) (refresh (refreshed_sph ndim) (Nsph sph))) in *.
  apply refresh_loop_idempotent in Hloop as (Hagain & Hl & Hout); try done.
  - rewrite Hagain. done.
  - intros j Hj. destruct (Hok (Nsph sph + j)%nat) as (g & Hg & _ & Hio); [lia | ].
    by exists g.
  - intros g p. apply refreshed_sph_idempotent.
Qed.

(** X5, witness: the ghost of the particle that has moved. *)
Lemma CopySphDataToGhosts_idempotent_witness :
  exists sph',
    CopySphDataToGhosts 1 Examples.moved = Ok sph'
    /\ CopySphDataToGhosts 1 sph' = Ok sph'.
Proof.
  eexists. split; [vm_compute; reflexivity | ].
  apply (CopySphDataToGhosts_idempotent 1 Examples.moved).
  - cbn. lia.
  - intros j Hj. cbn in Hj. assert (j = 1%nat) as -> by lia.
    eexists. split; [reflexivity | ]. split; [reflexivity | cbn; lia].
  - vm_compute. reflexivity.
Defined.

(** X6.  [MfvRungeKutta::CopyDataToGhosts] is idempotent and touches ghosts
    only, under the same condition: every ghost names a real particle. *)
Theorem CopyDataToGhosts_idempotent this simbox data data' :
  (Nhydro this + NPeriodicGhost this <= length data)%nat ->
  ghosts_ok (Nhydro this) (NPeriodicGhost this) data ->
  Mfv.CopyDataToGhosts this simbox data = Ok data' ->
  Mfv.CopyDataToGhosts this simbox data' = Ok data'
  /\ length data' = length data
  /\ (forall k, (k < Nhydro this \/ Nhydro this + NPeriodicGhost this <= k)%nat ->
        data' !! k = data !! k).
Proof.
  intros Hlen Hok. unfold Mfv.CopyDataToGhosts.
  change (for_rangeM (NPeriodicGhost this) (Mfv.CopyDataToGhosts_ghost this simbox))
    with (for_rangeM (NPeriodicGhost this)
            (refresh (refreshed_mfv this simbox) (Nhydro this))).
  apply refresh_loop_idempotent; try done.
  - intros j Hj. destruct (Hok (Nhydro this + j)%nat) as (g & Hg & _ & Hio); [lia | ].
    by exists g.
  - intros g p. unfold refreshed_mfv.
    by destruct (ghost_transform_bookkeeping this simbox (Particle.itype g)
                   (Particle.set_active false
                      (Particle.set_itype (Particle.itype g)
                         (Particle.set_iorig (Particle.iorig g) p)))) as (_ & -> & _).
  - intros g p. apply refreshed_mfv_idempotent.
Qed.

(** X6, witness: the periodic ghost of the particle that has moved. *)
Lemma CopyDataToGhosts_idempotent_witness :
  exists data',
    Mfv.CopyDataToGhosts (Examples.mfv 1 1 1 1 0) (Examples.unit_box "periodic")
      (sphdata Examples.moved) = Ok data'
    /\ Mfv.CopyDataToGhosts (Examples.mfv 1 1 1 1 0) (Examples.unit_box "periodic") data'
       = Ok data'.
Proof.
  eexists. split; [vm_compute; reflexivity | ].
  apply (CopyDataToGhosts_idempotent (Examples.mfv 1 1 1 1 0)
           (Examples.unit_box "periodic") (sphdata Examples.moved)).
  - cbn. lia.
  - intros j Hj. cbn in Hj. assert (j = 1%nat) as -> by lia.
    eexists. split; [reflexivity | ]. split; [reflexivity | cbn; lia].
  - vm_compute. reflexivity.
Defined.

End GhostRefresh.

(** ** [ComputeH]: return codes, assertions and the bisection *)

Section ComputeHCodes.

Import Mfv.

Lemma parttype_eqb_eq (a b : parttype) : parttype_eqb a b = true <-> a = b.
Proof. destruct a, b; cbn; split; intros H; done. Qed.

Lemma bind_AssertFail {A B : Type} (c : result A) (f : A -> result B) :
  c ≫= f = AssertFail <-> c = AssertFail \/ exists x, c = Ok x /\ f x = AssertFail.
Proof.
  destruct c as [x| | | | | |]; cbn; split; try discriminate; try tauto.
  - intros H. right. by exists x.
  - intros [H | (x' & Hx & H)]; [discriminate | by injection Hx as ->].
  - intros [H | (x' & Hx & H)]; discriminate.
  - intros [H | (x' & Hx & H)]; discriminate.
  - intros [H | (x' & Hx & H)]; discriminate.
  - intros [H | (x' & Hx & H)]; discriminate.
  - intros [H | (x' & Hx & H)]; discriminate.
Qed.

Lemma assert_Ok (b : bool) (u : unit) : assert b = Ok u <-> b = true.
Proof. destruct b, u; cbn; split; intros H; done. Qed.

Lemma assert_AssertFail (b : bool) : assert b = AssertFail <-> b = false.
Proof. destruct b; cbn; split; intros H; done. Qed.

(** A pass that returns from inside the loop returns 0, with an [h] above
    [hmax]. *)
Lemma ComputeH_body_Return this Nneib hmax m drsqd s code s1 :
  ComputeH_body this Nneib hmax m drsqd s = Ok (Return code s1) ->
  code = 0%Z /\ hmax < Particle.h (part s1).
Proof.
  unfold ComputeH_body. cbv zeta.
  generalize (ComputeH_density this Nneib m drsqd s) as d. intros d.
  destruct (converged this d); [discriminate | ].
  intros H. apply bind_Ok in H as (s' & _ & H).
  destruct (Qgtb (Particle.h (part s')) hmax) eqn:E.
  - injection H as <- <-. split; [done | by apply Qgtb_gt].
  - destruct (_ && _); discriminate.
Qed.

Lemma ComputeH_loop_Return this Nneib hmax m drsqd fuel s code s' :
  ComputeH_loop fuel this Nneib hmax m drsqd s = Ok (Some code, s') ->
  code = 0%Z /\ hmax < Particle.h (part s').
Proof.
  revert s. induction fuel as [|fuel IH]; intros s Hrun; [discriminate | ].
  rewrite ComputeH_loop_S in Hrun. apply bind_Ok in Hrun as (st & Hb & Hrun).
  destruct st as [s1 | c s1 | s1 | s1]; try discriminate.
  - injection Hrun as <- <-. by apply ComputeH_body_Return in Hb.
  - by apply IH in Hrun.
Qed.

Lemma ComputeH_finish_code this Nneib hmax drsqd gpot s code p' :
  ComputeH_finish this Nneib hmax drsqd gpot s = (code, p') ->
  (code = 1%Z /\ Particle.h p' <= hmax) \/ (code = (-1)%Z /\ hmax < Particle.h p').
Proof.
  unfold ComputeH_finish. cbv zeta.
  generalize (UpdatePrimitiveVector this
                (ComputeThermalProperties this
                   (if (create_sinks this =? 1)%Z
                    then ComputeH_potmin this Nneib drsqd gpot (invhsqd s)
                           (ComputeH_finalise this s)
                    else ComputeH_finalise this s))) as q.
  intros q. destruct (Qleb (Particle.h q) hmax) eqn:E; intros H; injection H as <- <-.
  - left. split; [done | by apply Qleb_le].
  - right. split; [done | ].
    apply not_true_iff_false in E. rewrite Qleb_le in E. lra.
Qed.

(** X7.  What the value [ComputeH] returns says about the particle it
    hands back: 1 comes with a smoothing length within [hmax]; 0 comes with
    one above [hmax]; -1 comes either with one above [hmax], or from the
    early exit for a sink whose [hmin_sink] exceeds [hmax], which leaves the
    particle as it was.  No other value is returned. *)
Theorem ComputeH_return_codes this i Nneib hmax m mu drsqd gpot p code p' :
  ComputeH this i Nneib hmax m mu drsqd gpot p = Ok (code, p') ->
  (code = 1%Z /\ Particle.h p' <= hmax)
  \/ (code = 0%Z /\ hmax < Particle.h p')
  \/ (code = (-1)%Z
      /\ (hmax < Particle.h p'
          \/ (Particle.sinkid p <> (-1)%Z /\ hmax < hmin_sink this /\ p' = p))).
Proof.
  unfold ComputeH.
  destruct (negb (Particle.sinkid p =? -1)%Z && Qltb hmax (hmin_sink this)) eqn:E.
  - intros H. injection H as <- <-. right; right. split; [done | right].
    apply andb_true_iff in E as [Es Eh]. apply negb_true_iff, Z.eqb_neq in Es.
    apply Qltb_lt in Eh. done.
  - intros H.
    apply bind_Ok in H as (_ & _ & H). apply bind_Ok in H as (_ & _ & H).
    apply bind_Ok in H as (_ & _ & H). apply bind_Ok in H as (_ & _ & H).
    apply bind_Ok in H as ([c s] & Hloop & H).
    destruct c as [c | ].
    + injection H as <- <-. apply ComputeH_loop_Return in Hloop as [-> Hh].
      right; left. done.
    + injection H as H. apply ComputeH_finish_code in H as [[-> Hh] | [-> Hh]].
      * by left.
      * right; right. split; [done | by left].
Qed.

(** X7, witness: the converged particle of four neighbours is returned with
    the code 1 and a smoothing length within [hmax = 20]. *)
Lemma ComputeH_return_codes_witness :
  exists p',
    ComputeH (Examples.mfv 1 0 1 (1 # 100) 1) 0 4 20 [1; 1; 1; 1] [] [0; 0; 0; 0]
      [1; 0; 0; 0] (Examples.particle_gpot [0] [0] 1 1) = Ok (1%Z, p')
    /\ Particle.h p' <= 20.
Proof.
  eexists. split; [vm_compute; reflexivity | ].
  destruct (ComputeH_return_codes (Examples.mfv 1 0 1 (1 # 100) 1) 0 4 20 [1; 1; 1; 1] []
              [0; 0; 0; 0] [1; 0; 0; 0] (Examples.particle_gpot [0] [0] 1 1) 1%Z _
              ltac:(vm_compute; reflexivity)) as [[_ H] | [[H _] | [H _]]];
    [exact H | discriminate H | discriminate H].
Defined.

Lemma ComputeH_loop_no_assert this Nneib hmax m drsqd fuel s :
  ComputeH_loop fuel this Nneib hmax m drsqd s <> AssertFail.
Proof.
  revert s. induction fuel as [|fuel IH]; intros s; [discriminate | ].
  rewrite ComputeH_loop_S.
  destruct (ComputeH_body_outcome this Nneib hmax m drsqd s) as [[st ->] | [-> _]];
    [ | discriminate].
  cbn. destruct st; try discriminate. apply IH.
Qed.

(** X8.  [ComputeH] stops on an assertion exactly when it is not the early
    exit for sinks and it is called with no neighbour, with an [hmax] that is
    not positive, on a dead particle, or on a particle whose mass is not
    positive.  The iteration itself never fails an assertion. *)
Theorem ComputeH_assertions this i Nneib hmax m mu drsqd gpot p :
  ComputeH this i Nneib hmax m mu drsqd gpot p = AssertFail
  <-> ~ (Particle.sinkid p <> (-1)%Z /\ hmax < hmin_sink this)
      /\ (Nneib = 0%nat \/ hmax <= 0 \/ Particle.itype p = dead \/ Particle.m p <= 0).
Proof.
  unfold ComputeH.
  generalize (ComputeH_loop_no_assert this Nneib hmax m drsqd (5 * iteration_max)
                (ComputeH_start this hmax p)).
  generalize (ComputeH_loop (5 * iteration_max) this Nneib hmax m drsqd
                (ComputeH_start this hmax p)) as L.
  intros L HL.
  destruct (negb (Particle.sinkid p =? -1)%Z && Qltb hmax (hmin_sink this)) eqn:E.
  { apply andb_true_iff in E as [Es Eh]. apply negb_true_iff, Z.eqb_neq in Es.
    apply Qltb_lt in Eh. split; [discriminate | intros [Hno _]; by destruct Hno]. }
  assert (Hearly : ~ (Particle.sinkid p <> (-1)%Z /\ hmax < hmin_sink this)).
  { intros [Hs Hh]. apply andb_false_iff in E as [E | E].
    - apply negb_false_iff, Z.eqb_eq in E. done.
    - apply Qltb_ge in E. lra. }
  destruct (0 <? Nneib)%nat eqn:E1; cbn.
  2: { apply Nat.ltb_ge in E1. split; [intros _ | done]. split; [done | left; lia]. }
  apply Nat.ltb_lt in E1.
  destruct (Qgtb hmax 0) eqn:E2; cbn.
  2: { apply Qgtb_le in E2. split; [intros _ | done]. split; [done | right; by left]. }
  apply Qgtb_gt in E2.
  destruct (parttype_eqb (Particle.itype p) dead) eqn:E3; cbn.
  { apply parttype_eqb_eq in E3. split; [intros _ | done]. split; [done | tauto]. }
  assert (Hty : Particle.itype p <> dead).
  { intros Hd. apply parttype_eqb_eq in Hd. congruence. }
  destruct (Qgtb (Particle.m p) 0) eqn:E4; cbn.
  2: { apply Qgtb_le in E4. split; [intros _ | done]. split; [done | tauto]. }
  apply Qgtb_gt in E4.
  split.
  - intros H. exfalso. apply bind_AssertFail in H as [H | ([c s] & _ & H)].
    + done.
    + destruct c; discriminate.
  - intros (_ & [H | [H | [H | H]]]); [lia | lra | done | lra].
Qed.

Lemma update_h_bisect this d :
  (30 < iteration d < 150)%nat ->
  exists s',
    update_h this d = Ok s'
    /\ iteration s' = iteration d
    /\ ((h_lower_bound s' = h_lower_bound d /\ h_upper_bound s' = Particle.h (part d))
        \/ (h_lower_bound s' = Particle.h (part d) /\ h_upper_bound s' = h_upper_bound d))
    /\ Particle.h (part s') = (1 # 2) * (h_lower_bound s' + h_upper_bound s').
Proof.
  intros [Hk1 Hk2].
  assert (E1 : (iteration d <? 30)%nat = false) by (apply Nat.ltb_ge; lia).
  assert (E2 : (iteration d =? 30)%nat = false) by (apply Nat.eqb_neq; lia).
  assert (E3 : (iteration d <? 5 * 30)%nat = true) by (apply Nat.ltb_lt; lia).
  unfold update_h, iteration_max. rewrite E1, E2, E3.
  destruct (_ || _); eexists; (split; [reflexivity | ]); cbn;
    (split; [done | ]); (split; [ | done]); [by left | by right].
Qed.

(** X9.  The bisection keeps its bracket.  A pass after the thirtieth that
    is entered with [lower < h < upper <= hmax] (the loop condition, and a
    bracket within the neighbour range) and does not converge neither
    returns 0 nor raises: it replaces one bound by the old [h], so that the
    new bracket lies inside the old one and is strictly narrower, and
    leaves the new [h] inside the new bracket.  The loop then goes round
    again, or ends if the new [h] has fallen on a bound, which it cannot do
    in exact arithmetic and can after rounding. *)
Theorem ComputeH_bisection_pass this Nneib hmax m drsqd s :
  (30 <= iteration s < 149)%nat ->
  h_lower_bound s < Particle.h (part s) < h_upper_bound s ->
  h_upper_bound s <= hmax ->
  ComputeH_body this Nneib hmax m drsqd s
  = Ok (Break (ComputeH_density this Nneib m drsqd s))
  \/ exists s',
       (ComputeH_body this Nneib hmax m drsqd s = Ok (Again s')
        \/ ComputeH_body this Nneib hmax m drsqd s = Ok (Leave s'))
       /\ iteration s' = Datatypes.S (iteration s)
       /\ ((h_lower_bound s' = h_lower_bound s
            /\ h_upper_bound s' = Particle.h (part s))
           \/ (h_lower_bound s' = Particle.h (part s)
               /\ h_upper_bound s' = h_upper_bound s))
       /\ h_lower_bound s' <= Particle.h (part s') <= h_upper_bound s'
       /\ h_upper_bound s' <= hmax
       /\ h_upper_bound s' - h_lower_bound s' < h_upper_bound s - h_lower_bound s.
Proof.
  intros Hk Hin Hmax. unfold ComputeH_body. cbv zeta.
  generalize (ComputeH_density_frame this Nneib m drsqd s). cbv zeta.
  generalize (ComputeH_density this Nneib m drsqd s) as d.
  intros d (Hit & Hlo & Hhi & _ & Hh & _).
  destruct (converged this d); [by left | right].
  destruct (update_h_bisect this d) as (s' & Hu & Hit' & Hb & Hm); [lia | ].
  rewrite Hu. cbn.
  rewrite Hh, Hlo, Hhi in Hb.
  assert (Hnew : h_lower_bound s' < h_upper_bound s'
                 /\ h_upper_bound s' <= hmax
                 /\ h_upper_bound s' - h_lower_bound s'
                    < h_upper_bound s - h_lower_bound s).
  { destruct Hb as [[-> ->] | [-> ->]]; repeat split; lra. }
  destruct Hnew as (I1 & I2 & I3).
  rewrite (proj2 (Qgtb_le (Particle.h (part s')) hmax)) by (rewrite Hm; lra).
  rewrite (proj2 (Qgtb_gt (Particle.h (part s')) (h_lower_bound s')))
    by (rewrite Hm; lra).
  rewrite (proj2 (Qltb_lt (Particle.h (part s')) (h_upper_bound s')))
    by (rewrite Hm; lra).
  cbn. exists s'. split; [by left | ]. split; [congruence | ].
  split; [exact Hb | ]. split; [rewrite Hm; lra | ]. done.
Qed.

(** X9, witness: the particle with [h = 0.6] and one neighbour at distance 1
    reaches pass 31 with the bracket [0, 1] and [h = 0.5]; that pass narrows
    the bracket. *)
Lemma ComputeH_bisection_pass_witness :
  exists s30,
    HSpec.passes 30 (Examples.mfv_with Examples.stepped 1 0 1 (1 # 100) 0) 1 1 [1] [1]
      (ComputeH_start (Examples.mfv_with Examples.stepped 1 0 1 (1 # 100) 0) 1
         (Examples.particle [0] [0] (6 # 10))) = Ok s30
    /\ exists s',
         ComputeH_body (Examples.mfv_with Examples.stepped 1 0 1 (1 # 100) 0) 1 1 [1] [1]
           s30 = Ok (Again s')
         /\ h_upper_bound s' - h_lower_bound s'
            < h_upper_bound s30 - h_lower_bound s30.
Proof.
  eexists. split; [vm_compute; reflexivity | ].
  match goal with
  | |- exists s', ComputeH_body ?this _ _ _ _ ?s = _ /\ _ =>
      destruct (ComputeH_bisection_pass this 1 1 [1] [1] s)
        as [Hb | (s' & [Hs' | Hs'] & _ & _ & _ & _ & Hw)]
  end.
  - vm_compute. lia.
  - vm_compute. split; reflexivity.
  - vm_compute. discriminate.
  - revert Hb. vm_compute. discriminate.
  - exists s'. split; [exact Hs' | exact Hw].
  - revert Hs'. vm_compute. discriminate.
Defined.

Lemma ComputeH_loop_more_fuel this Nneib hmax m drsqd fuel k s :
  ComputeH_loop fuel this Nneib hmax m drsqd s <> OutOfFuel ->
  ComputeH_loop (fuel + k) this Nneib hmax m drsqd s
  = ComputeH_loop fuel this Nneib hmax m drsqd s.
Proof.
  revert s. induction fuel as [|fuel IH]; intros s Hne; [done | ].
  change (Datatypes.S fuel + k)%nat with (Datatypes.S (fuel + k)).
  rewrite !ComputeH_loop_S in *.
  destruct (ComputeH_body this Nneib hmax m drsqd s) as [st| | | | | |]; cbn in *; try done.
  destruct st; try done. by apply IH.
Qed.

(** X21.  The iteration of [ComputeH] ends within [5 * iteration_max = 150]
    passes, whatever the particle and its neighbours: by convergence, by a
    return, by the loop condition or by the convergence error.  Giving the
    loop of the model more fuel than that changes nothing. *)
Theorem ComputeH_ends_within_150_passes this Nneib hmax m drsqd p fuel :
  (150 <= fuel)%nat ->
  ComputeH_loop fuel this Nneib hmax m drsqd (ComputeH_start this hmax p)
  = ComputeH_loop 150 this Nneib hmax m drsqd (ComputeH_start this hmax p)
  /\ ComputeH_loop 150 this Nneib hmax m drsqd (ComputeH_start this hmax p) <> OutOfFuel.
Proof.
  intros Hfuel.
  assert (Hne : ComputeH_loop 150 this Nneib hmax m drsqd (ComputeH_start this hmax p)
                <> OutOfFuel).
  { apply ComputeH_loop_fuel; unfold iteration_max; cbn [iteration ComputeH_start]; lia. }
  split; [ | exact Hne].
  replace fuel with (150 + (fuel - 150))%nat by lia.
  by apply ComputeH_loop_more_fuel.
Qed.

(** X21, witness: with 200 passes allowed the loop does what it does with
    150. *)
Lemma ComputeH_ends_within_150_passes_witness :
  ComputeH_loop 200 (Examples.mfv 1 0 1 (1 # 100) 1) 4 20 [1; 1; 1; 1] [0; 0; 0; 0]
    (ComputeH_start (Examples.mfv 1 0 1 (1 # 100) 1) 20 (Examples.particle [0] [0] 1))
  = ComputeH_loop 150 (Examples.mfv 1 0 1 (1 # 100) 1) 4 20 [1; 1; 1; 1] [0; 0; 0; 0]
      (ComputeH_start (Examples.mfv 1 0 1 (1 # 100) 1) 20 (Examples.particle [0] [0] 1)).
Proof.
  apply (ComputeH_ends_within_150_passes (Examples.mfv 1 0 1 (1 # 100) 1) 4 20
           [1; 1; 1; 1] [0; 0; 0; 0] (Examples.particle [0] [0] 1) 200).
  lia.
Defined.

End ComputeHCodes.

(** ** [ComputeGodunovFlux]: conservation and frame *)

Section GodunovConservation.

Import Mfv FluxSpec.

Lemma total_dQdt_cons var p (l : list Particle.t) :
  total_dQdt var (p :: l) = vget (Particle.dQdt p) var + total_dQdt var l.
Proof. reflexivity. Qed.

Lemma total_dQdt_insert var (l : list Particle.t) j old new :
  l !! j = Some old ->
  total_dQdt var (<[j := new]> l)
  == total_dQdt var l - vget (Particle.dQdt old) var + vget (Particle.dQdt new) var.
Proof.
  revert j. induction l as [|p l IH]; intros j Hj; [done | ].
  destruct j as [|j].
  - injection Hj as ->. change (<[0%nat := new]> (old :: l)) with (new :: l).
    rewrite !total_dQdt_cons. ring.
  - change (<[Datatypes.S j := new]> (p :: l)) with (p :: <[j := new]> l).
    rewrite !total_dQdt_cons, (IH j Hj). ring.
Qed.

Lemma same_but_dQdt_refl p : same_but_dQdt p p.
Proof. unfold same_but_dQdt. by destruct p. Qed.

Lemma same_but_dQdt_set a p' p :
  same_but_dQdt p' p -> same_but_dQdt (Particle.set_dQdt a p') p.
Proof. unfold same_but_dQdt. intros ->. by destruct p. Qed.

Lemma same_but_dQdt_trans a b c :
  same_but_dQdt a b -> same_but_dQdt b c -> same_but_dQdt a c.
Proof. unfold same_but_dQdt. intros -> ->. by destruct c. Qed.

Lemma accumulate_flux_frame this flux Aij part neib :
  same_but_dQdt (fst (accumulate_flux this flux Aij (part, neib))) part
  /\ same_but_dQdt (snd (accumulate_flux this flux Aij (part, neib))) neib.
Proof.
  unfold accumulate_flux. induction (nvar this) as [|n IH].
  - cbn. split; apply same_but_dQdt_refl.
  - rewrite for_range_S. destruct (for_range n _ _) as [p' n']. cbn in IH |- *.
    destruct IH. split; by apply same_but_dQdt_set.
Qed.

(** What one step of the neighbour loop does to the state. *)
Lemma GodunovFlux_neib_Ok this neiblist jj part neibpart part' neibpart' :
  GodunovFlux_neib this neiblist jj (part, neibpart) = Ok (part', neibpart') ->
  exists j neib neib' F,
    neiblist !! jj = Some j
    /\ neibpart !! j = Some neib
    /\ neibpart' = <[j := neib']> neibpart
    /\ accumulate_flux this F (area_vector this part neib) (part, neib) = (part', neib').
Proof.
  unfold GodunovFlux_neib. intros Hrun.
  apply bind_Ok in Hrun as (j & Hj & Hrun). apply read_Ok in Hj.
  apply bind_Ok in Hrun as (neib & Hneib & Hrun). apply read_Ok in Hneib.
  apply bind_Ok in Hrun as (F & HF & Hrun).
  destruct (accumulate_flux this F (area_vector this part neib) (part, neib))
    as [part1 neib1] eqn:Hacc.
  apply bind_Ok in Hrun as (data & Hw & Hrun). apply write_Ok in Hw as [_ ->].
  injection Hrun as <- <-. by exists j, neib, neib1, F.
Qed.

Lemma zero_loop_length n (a : list Q) :
  length (for_range n (fun var a => vset var 0 a) a) = length a.
Proof.
  induction n as [|n IH]; [done | ]. by rewrite for_range_S, length_vset.
Qed.

Lemma zero_loop_get n (a : list Q) var :
  (var < n)%nat -> (var < length a)%nat ->
  vget (for_range n (fun var a => vset var 0 a) a) var = 0.
Proof.
  induction n as [|n IH]; intros Hv Hl; [lia | ].
  rewrite for_range_S. destruct (decide (var = n)) as [-> | Hne].
  - apply vget_vset_eq. by rewrite zero_loop_length.
  - rewrite vget_vset_ne by done. apply IH; [lia | done].
Qed.

(** X10.  [ComputeGodunovFlux] conserves every state variable: what the
    particle has accumulated when the loop ends, added to the totals of its
    neighbours, is the total the neighbours had before.  (The particle's own
    [dQdt] is zeroed first; every pair adds to one what it takes from the
    other.) *)
Theorem ComputeGodunovFlux_conserves this i Nneib neiblist part neibpart
    part' neibpart' var :
  (var < nvar this)%nat ->
  (var < length (Particle.dQdt part))%nat ->
  Forall (fun n => (var < length (Particle.dQdt n))%nat) neibpart ->
  ComputeGodunovFlux this i Nneib neiblist part neibpart = Ok (part', neibpart') ->
  vget (Particle.dQdt part') var + total_dQdt var neibpart' == total_dQdt var neibpart.
Proof.
  intros Hvar Hlen Hall. unfold ComputeGodunovFlux. cbv zeta. intros Hrun.
  apply (for_rangeM_inv
           (fun st => (var < length (Particle.dQdt (fst st)))%nat
                      /\ Forall (fun n => (var < length (Particle.dQdt n))%nat) (snd st)
                      /\ vget (Particle.dQdt (fst st)) var + total_dQdt var (snd st)
                         == total_dQdt var neibpart)) in Hrun.
  - apply Hrun.
  - intros jj [pt nb] [pt' nb'] _ (Hl & Hf & Hsum) Hstep. cbn [fst snd] in *.
    apply GodunovFlux_neib_Ok in Hstep as (j & neib & neib' & F & _ & Hn & -> & Hacc).
    pose proof (accumulate_flux_step this F (area_vector this pt neib) (nvar this)
                  pt neib) as Hs.
    unfold accumulate_flux in Hacc. rewrite Hacc in Hs.
    destruct Hs as (Lp & Ln & Hs).
    assert (Hjl : (var < length (Particle.dQdt neib))%nat).
    { rewrite Forall_lookup in Hf. by apply (Hf j). }
    destruct (Hs var) as [Hp Hq]; [done | done | ].
    rewrite (proj2 (Nat.ltb_lt _ _) Hvar) in Hp, Hq.
    split; [lia | ]. split; [apply Forall_insert; [done | lia] | ].
    rewrite (total_dQdt_insert var nb j neib neib' Hn), Hp, Hq, <- Hsum. ring.
  - cbn [fst snd Particle.dQdt Particle.set_dQdt].
    rewrite zero_loop_length, zero_loop_get by done.
    split; [done | ]. split; [done | ring].
Qed.

(** X10, witness: two fluid particles one length apart.  The neighbour
    starts with nothing accumulated, so what the two hold after the pair was
    processed cancels. *)
Lemma ComputeGodunovFlux_conserves_witness :
  exists part' neib',
    ComputeGodunovFlux (Examples.mfv 1 0 1 1 0) 0 1 [0%nat] (Examples.fluid 0)
      [Examples.fluid 1] = Ok (part', [neib'])
    /\ vget (Particle.dQdt part') 0 + (vget (Particle.dQdt neib') 0 + 0) == 0 + 0.
Proof.
  eexists. eexists. split; [vm_compute; reflexivity | ].
  apply (ComputeGodunovFlux_conserves (Examples.mfv 1 0 1 1 0) 0 1 [0%nat]
           (Examples.fluid 0) [Examples.fluid 1] _ [_] 0%nat).
  - cbn. lia.
  - cbn. lia.
  - repeat constructor.
  - vm_compute. reflexivity.
Defined.

(** X11.  [ComputeGodunovFlux] writes [dQdt] and nothing else: the particle
    and every neighbour copy come back as they were but for [dQdt], the
    array keeps its length, and a copy whose index is not among the first
    [Nneib] entries of the neighbour list comes back untouched. *)
Theorem ComputeGodunovFlux_frame this i Nneib neiblist part neibpart part' neibpart' :
  ComputeGodunovFlux this i Nneib neiblist part neibpart = Ok (part', neibpart') ->
  same_but_dQdt part' part
  /\ length neibpart' = length neibpart
  /\ (forall j n, neibpart !! j = Some n ->
        exists n', neibpart' !! j = Some n' /\ same_but_dQdt n' n)
  /\ (forall j, j ∉ take Nneib neiblist -> neibpart' !! j = neibpart !! j).
Proof.
  unfold ComputeGodunovFlux. cbv zeta. intros Hrun.
  apply (for_rangeM_inv
           (fun st => same_but_dQdt (fst st) part
                      /\ length (snd st) = length neibpart
                      /\ (forall j n, neibpart !! j = Some n ->
                            exists n', snd st !! j = Some n' /\ same_but_dQdt n' n)
                      /\ (forall j, j ∉ take Nneib neiblist ->
                            snd st !! j = neibpart !! j))) in Hrun.
  - apply Hrun.
  - intros jj [pt nb] [pt' nb'] Hjj (Hp & Hl & Hn & Hout) Hstep. cbn [fst snd] in *.
    apply GodunovFlux_neib_Ok in Hstep as (j & neib & neib' & F & Hj & Hnb & -> & Hacc).
    pose proof (accumulate_flux_frame this F (area_vector this pt neib) pt neib) as Hf.
    rewrite Hacc in Hf. cbn in Hf. destruct Hf as [Hf1 Hf2].
    split; [by eapply same_but_dQdt_trans | ].
    split; [by rewrite length_insert | ]. split.
    + intros k n Hk. destruct (Hn k n Hk) as (n1 & Hn1 & Hs1).
      destruct (decide (k = j)) as [-> | Hne].
      * exists neib'. rewrite list_lookup_insert_eq by (by eapply lookup_lt_Some).
        split; [done | ]. assert (n1 = neib) as -> by congruence.
        by eapply same_but_dQdt_trans.
      * exists n1. by rewrite list_lookup_insert_ne.
    + intros k Hk. rewrite list_lookup_insert_ne; [by apply Hout | ].
      intros <-. apply Hk. apply list_elem_of_lookup. exists jj.
      rewrite lookup_take_lt by done. done.
  - cbn [fst snd]. split; [apply same_but_dQdt_set, same_but_dQdt_refl | ].
    split; [done | ]. split; [ | done].
    intros j n Hj. exists n. split; [done | apply same_but_dQdt_refl].
Qed.

(** X11, witness: with one neighbour listed, the second copy in the array is
    returned as it was. *)
Lemma ComputeGodunovFlux_frame_witness :
  exists part' neibpart',
    ComputeGodunovFlux (Examples.mfv 1 0 1 1 0) 0 1 [0%nat] (Examples.fluid 0)
      [Examples.fluid 1; Examples.fluid 5] = Ok (part', neibpart')
    /\ neibpart' !! 1%nat = Some (Examples.fluid 5).
Proof.
  eexists. eexists. split; [vm_compute; reflexivity | ].
  destruct (ComputeGodunovFlux_frame (Examples.mfv 1 0 1 1 0) 0 1 [0%nat]
              (Examples.fluid 0) [Examples.fluid 1; Examples.fluid 5] _ _
              ltac:(vm_compute; reflexivity)) as (_ & _ & _ & Hout).
  rewrite (Hout 1%nat); [reflexivity | ].
  cbn. intros H. apply list_elem_of_singleton in H. discriminate.
Defined.

End GodunovConservation.

(** ** The per-cell loop: retries, local copies and the copy back *)

Section CellFrame.

Import SphTree.

Lemma for_rangeM_from_inv_at {S : Type} (P : nat -> S -> Prop)
    (body : nat -> S -> result S) (n start : nat) (s s' : S) :
  (forall i t t', (start <= i < start + n)%nat -> P i t -> body i t = Ok t' ->
     P (Datatypes.S i) t') ->
  P start s -> for_rangeM_from start n body s = Ok s' -> P (start + n)%nat s'.
Proof.
  revert start s. induction n as [|n IH]; intros start s Hbody Hs Hrun.
  - cbn in Hrun. injection Hrun as <-. by rewrite Nat.add_0_r.
  - cbn in Hrun. destruct (body start s) as [t| | | | | |] eqn:E; try discriminate.
    cbn in Hrun.
    replace (start + Datatypes.S n)%nat with (Datatypes.S start + n)%nat by lia.
    eapply (IH (Datatypes.S start) t); [ | | exact Hrun].
    + intros i u u' Hi. apply Hbody. lia.
    + eapply Hbody; [ | exact Hs | exact E]. lia.
Qed.

(** X12.  Whenever the retry loop returns, the count it returns is not the
    overflow mark -1 and the size of the neighbour arrays is the size at
    entry times a power of two, the exponent being the number of retries;
    entered with a count that is not -1, the loop returns it with the
    scratch arrays untouched. *)
Theorem gather_retry_returns fuel this cell sphdata hmax Nneib b Nneib' b' :
  gather_retry fuel this cell sphdata hmax Nneib b = Ok (Nneib', b') ->
  Nneib' <> (-1)%Z
  /\ (Nneib <> (-1)%Z -> Nneib' = Nneib /\ b' = b)
  /\ exists k, (k <= fuel)%nat
               /\ Nneibmax b' = (2 ^ Z.of_nat k * Nneibmax b)%Z
               /\ (Nneib = (-1)%Z -> (1 <= k)%nat).
Proof.
  revert Nneib b. induction fuel as [|fuel IH]; intros Nneib b Hrun.
  - cbn in Hrun. destruct (Z.eqb_spec Nneib (-1)); [discriminate | ].
    injection Hrun as <- <-. split; [done | ]. split; [done | ].
    exists 0%nat. split; [lia | ]. split; [ | done].
    change (2 ^ Z.of_nat 0)%Z with 1%Z. lia.
  - rewrite gather_retry_S in Hrun. destruct (Z.eqb_spec Nneib (-1)) as [-> | Hne].
    + apply bind_Ok in Hrun as (b0 & Hb0 & Hrun).
      apply reallocate_Ok in Hb0 as (_ & _ & _ & _ & Hb0). cbv zeta in Hb0.
      pose proof (gather_Nneibmax this cell sphdata hmax b0) as (Hmax & _).
      destruct (gather this cell sphdata hmax b0) as [N1 b1].
      cbn [snd] in Hmax. apply IH in Hrun as (Hok & _ & k & Hk & Hsize & _).
      split; [done | ]. split; [done | ].
      exists (Datatypes.S k). split; [lia | ]. split; [ | lia].
      rewrite Hsize, Hmax. subst b0. cbn [Nneibmax].
      rewrite Nat2Z.inj_succ, Z.pow_succ_r by lia. lia.
    + injection Hrun as <- <-. split; [done | ]. split; [done | ].
      exists 0%nat. split; [lia | ]. split; [ | done].
      change (2 ^ Z.of_nat 0)%Z with 1%Z. lia.
Qed.

(** X12, witness: the query that needs four entries, started with one. *)
Lemma gather_retry_returns_witness :
  exists b',
    gather_retry 2 (Examples.sphtree 4) Examples.cell1 [Examples.particle [0] [0] 1] 1
      (-1) Examples.scratch1 = Ok (1%Z, b')
    /\ exists k, (k <= 2)%nat /\ Nneibmax b' = (2 ^ Z.of_nat k * 1)%Z.
Proof.
  eexists. split; [vm_compute; reflexivity | ].
  destruct (gather_retry_returns 2 (Examples.sphtree 4) Examples.cell1
              [Examples.particle [0] [0] 1] 1 (-1) Examples.scratch1 1 _
              ltac:(vm_compute; reflexivity)) as (_ & _ & k & Hk & Hsize & _).
  exists k. split; [exact Hk | exact Hsize].
Defined.

(** The inner loop of [copy_neib]: [n] consecutive entries from [base] on. *)
Lemma copy_block n base (f : nat -> Q) (a : list Q) :
  let a' := for_range n (fun k a => vset (base + k) (f k) a) a in
  length a' = length a
  /\ (forall k, (k < n)%nat -> (base + k < length a)%nat -> vget a' (base + k)%nat = f k)
  /\ (forall i, (i < base \/ base + n <= i)%nat -> vget a' i = vget a i).
Proof.
  cbv zeta. induction n as [|n (IHl & IHin & IHout)].
  - cbn. split; [done | ]. split; [intros; lia | done].
  - rewrite for_range_S, length_vset. split; [done | ]. split.
    + intros k Hk Hlen. destruct (decide (k = n)) as [-> | Hne].
      * apply vget_vset_eq. by rewrite IHl.
      * rewrite vget_vset_ne by lia. apply IHin; [lia | done].
    + intros i Hi. rewrite vget_vset_ne by lia. apply IHout. lia.
Qed.

Lemma copy_neib_Ok this sphdata jj b b' :
  copy_neib this sphdata jj b = Ok b' ->
  exists j p,
    neiblist b !! jj = Some j /\ sphdata !! j = Some p
    /\ Nneibmax b' = Nneibmax b /\ neiblist b' = neiblist b
    /\ ptype b' = <[jj := Particle.ptype p]> (ptype b)
    /\ gpot b' = vset jj (Particle.gpot p) (gpot b)
    /\ m b' = vset jj (Particle.m p) (m b)
    /\ r b' = for_range (ndim this)
                (fun k a => vset (ndim this * jj + k) (vget (Particle.r p) k) a) (r b).
Proof.
  unfold copy_neib. intros H.
  apply bind_Ok in H as (j & Hj & H). apply read_Ok in Hj.
  apply bind_Ok in H as (p & Hp & H). apply read_Ok in Hp.
  injection H as <-. exists j, p. by repeat split.
Qed.

(** X13.  The local copies are faithful.  After the loop that copies the
    [Nneib] neighbours into the scratch arrays, entry [jj] of the type, mass
    and potential arrays holds the type, mass and potential of particle
    [neiblist[jj]], and entries [ndim*jj .. ndim*jj + ndim - 1] of the
    position array hold its position; the neighbour list is not changed.
    The arrays must have room for [Nneib] neighbours. *)
Theorem copy_neib_loop_copies this sphdata N b b' :
  (N <= length (ptype b))%nat -> (N <= length (gpot b))%nat ->
  (N <= length (m b))%nat -> (ndim this * N <= length (r b))%nat ->
  for_rangeM N (copy_neib this sphdata) b = Ok b' ->
  neiblist b' = neiblist b
  /\ Nneibmax b' = Nneibmax b
  /\ forall jj, (jj < N)%nat ->
       exists j p,
         neiblist b !! jj = Some j /\ sphdata !! j = Some p
         /\ ptype b' !! jj = Some (Particle.ptype p)
         /\ vget (gpot b') jj = Particle.gpot p
         /\ vget (m b') jj = Particle.m p
         /\ forall k, (k < ndim this)%nat ->
              vget (r b') (ndim this * jj + k)%nat = vget (Particle.r p) k.
Proof.
  intros Hpt Hgp Hm Hr Hrun.
  apply (for_rangeM_from_inv_at
           (fun i t =>
              neiblist t = neiblist b /\ Nneibmax t = Nneibmax b
              /\ length (ptype t) = length (ptype b)
              /\ length (gpot t) = length (gpot b)
              /\ length (m t) = length (m b)
              /\ length (r t) = length (r b)
              /\ forall jj, (jj < i)%nat ->
                   exists j p,
                     neiblist b !! jj = Some j /\ sphdata !! j = Some p
                     /\ ptype t !! jj = Some (Particle.ptype p)
                     /\ vget (gpot t) jj = Particle.gpot p
                     /\ vget (m t) jj = Particle.m p
                     /\ forall k, (k < ndim this)%nat ->
                          vget (r t) (ndim this * jj + k)%nat = vget (Particle.r p) k))
    in Hrun.
  - destruct Hrun as (H1 & H2 & _ & _ & _ & _ & H). done.
  - intros i t t' Hi (I1 & I2 & L1 & L2 & L3 & L4 & I) Hstep.
    apply copy_neib_Ok in Hstep as (j & p & Hj & Hp & E1 & E2 & E3 & E4 & E5 & E6).
    pose proof (copy_block (ndim this) (ndim this * i)
                  (fun k => vget (Particle.r p) k) (r t)) as (Bl & Bin & Bout).
    rewrite <- E6 in Bl, Bin, Bout.
    rewrite E1, E2, E3, E4, E5, Bl, length_insert, !length_vset.
    split; [congruence | ]. split; [done | ]. split; [done | ]. split; [done | ].
    split; [done | ]. split; [done | ].
    intros jj Hjj. destruct (decide (jj = i)) as [-> | Hne].
    + exists j, p. rewrite <- I1. split; [done | ]. split; [done | ].
      rewrite list_lookup_insert_eq by lia.
      rewrite !vget_vset_eq by lia. repeat split.
      intros k Hk. apply Bin; [done | ]. nia.
    + destruct (I jj) as (j' & p' & Hj' & Hp' & A1 & A2 & A3 & A4); [lia | ].
      exists j', p'. split; [done | ]. split; [done | ].
      rewrite list_lookup_insert_ne by done. rewrite !vget_vset_ne by done.
      repeat split; try done.
      intros k Hk. rewrite Bout by nia. by apply A4.
  - repeat split. intros jj Hjj. lia.
Qed.

(** X13, witness: the one neighbour of the one-particle array. *)
Lemma copy_neib_loop_copies_witness :
  exists b',
    for_rangeM 1 (copy_neib (Examples.sphtree 1) [Examples.particle_gpot [3] [0] 1 7])
      Examples.scratch1 = Ok b'
    /\ vget (gpot b') 0 = 7 /\ vget (r b') 0 = 3.
Proof.
  eexists. split; [vm_compute; reflexivity | ].
  destruct (copy_neib_loop_copies (Examples.sphtree 1)
              [Examples.particle_gpot [3] [0] 1 7] 1 Examples.scratch1 _
              ltac:(cbn; lia) ltac:(cbn; lia) ltac:(cbn; lia) ltac:(cbn; lia)
              ltac:(vm_compute; reflexivity)) as (_ & _ & H).
  destruct (H 0%nat) as (j & p & Hj & Hp & _ & Hg & _ & Hr); [lia | ].
  injection Hj as <-. injection Hp as <-.
  split; [exact Hg | ]. apply (Hr 0%nat). cbn. lia.
Defined.

Lemma cell_pass_activelist fuel this sph cell sphdata h b h' activelist st :
  cell_pass fuel this sph cell sphdata h b = Ok (h', activelist, st) ->
  activelist = ComputeActiveParticleList (tree this) cell sphdata.
Proof.
  unfold cell_pass. cbv zeta. intros Hrun.
  apply bind_Ok in Hrun as (ap & _ & Hrun).
  destruct (gather this cell sphdata _ b) as [N0 b0].
  apply bind_Ok in Hrun as ([N1 b1] & _ & Hrun).
  apply bind_Ok in Hrun as (b2 & _ & Hrun).
  apply bind_Ok in Hrun as (st1 & _ & Hrun).
  by injection Hrun as _ <- _.
Qed.

Lemma cell_loop_activelist fuel this sph cell sphdata h b acc activelist st passes :
  cell_loop fuel this sph cell sphdata h b acc = Ok (activelist, st, passes) ->
  activelist = ComputeActiveParticleList (tree this) cell sphdata.
Proof.
  revert h b acc. induction fuel as [|fuel IH]; intros h b acc Hrun; [discriminate | ].
  rewrite cell_loop_S in Hrun.
  apply bind_Ok in Hrun as ([[h1 al] st1] & Hpass & Hrun).
  apply cell_pass_activelist in Hpass as ->. cbv zeta in Hrun.
  destruct (celldone st1).
  - by injection Hrun as <- _ _.
  - by apply IH in Hrun.
Qed.

(** X14.  [UpdateCell] writes to the main array in the slots of the cell's
    active particles only: every other slot, and the length of the array,
    are as before. *)
Theorem UpdateCell_writes_active_only fuel this sph cell sphdata b sphdata' b' passes :
  UpdateCell fuel this sph cell sphdata b = Ok (sphdata', b', passes) ->
  length sphdata' = length sphdata
  /\ forall k, k ∉ ComputeActiveParticleList (tree this) cell sphdata ->
               sphdata' !! k = sphdata !! k.
Proof.
  unfold UpdateCell. intros Hrun.
  apply bind_Ok in Hrun as ([[al st] ps] & Hloop & Hrun).
  apply cell_loop_activelist in Hloop as ->.
  apply bind_Ok in Hrun as (data & Hcopy & Hrun). injection Hrun as <- _ _.
  apply (for_rangeM_inv
           (fun data => length data = length sphdata
                        /\ forall k, k ∉ ComputeActiveParticleList (tree this) cell sphdata ->
                                     data !! k = sphdata !! k)) in Hcopy; [done | | done].
  intros j t t' Hj (Hl & Hout) Hstep.
  apply bind_Ok in Hstep as (p & _ & Hw). apply write_Ok in Hw as [_ ->].
  rewrite length_insert. split; [done | ].
  intros k Hk. rewrite list_lookup_insert_ne; [by apply Hout | ].
  intros <-. apply Hk.
  destruct (lookup_lt_is_Some_2 (ComputeActiveParticleList (tree this) cell sphdata) j)
    as [x Hx]; [done | ].
  rewrite Hx. cbn. by eapply list_elem_of_lookup_2.
Qed.

(** X14, witness: a second particle, not in the cell, is left alone. *)
Lemma UpdateCell_writes_active_only_witness :
  exists sphdata' b' passes,
    UpdateCell 1 (Examples.sphtree 1) Examples.mfv_solver Examples.cell1
      [Examples.particle [0] [0] 1; Examples.particle [9] [0] 1] Examples.scratch1
    = Ok (sphdata', b', passes)
    /\ sphdata' !! 1%nat = Some (Examples.particle [9] [0] 1).
Proof.
  eexists. eexists. eexists. split; [vm_compute; reflexivity | ].
  destruct (UpdateCell_writes_active_only 1 (Examples.sphtree 1) Examples.mfv_solver
              Examples.cell1 [Examples.particle [0] [0] 1; Examples.particle [9] [0] 1]
              Examples.scratch1 _ _ _ ltac:(vm_compute; reflexivity)) as (_ & Hout).
  rewrite (Hout 1%nat); [reflexivity | ].
  cbn. intros H. apply list_elem_of_singleton in H. discriminate.
Defined.

End CellFrame.

(** ** The ghost search: how many ghosts, and when none *)

Section GhostCount.

Import Simulation Ghosts GhostFrame.

Lemma CreateGhostParticle_count N i k rk vk bdist sph sph' :
  (i < Ntot sph)%nat -> search_inv N sph ->
  CreateGhostParticle i k rk vk bdist sph = Ok sph' ->
  Nghost sph' = (Nghost sph + 1)%nat.
Proof.
  intros Hi (HN & Htot & Hok) Hrun.
  destruct (CreateGhostParticle_ghosts_ok i k rk vk bdist sph sph')
    as (_ & E2 & _); [lia | done | done | done].
Qed.

(** One guarded creation of the loop body. *)
Lemma guarded_create N i k (rk vk bdist : Particle.t -> Q) (b : bool) s s' :
  (i < Ntot s)%nat -> search_inv N s ->
  (if b then (read (sphdata s) i ≫= fun p =>
              CreateGhostParticle i k (rk p) (vk p) (bdist p) s)
   else Ok s) = Ok s' ->
  search_inv N s' /\ Ntot s' = Ntot s
  /\ Nghost s' = (Nghost s + if b then 1 else 0)%nat.
Proof.
  intros Hi Hs Hrun. destruct b.
  - apply bind_Ok in Hrun as (p & _ & Hrun).
    pose proof (CreateGhostParticle_count _ _ _ _ _ _ _ _ Hi Hs Hrun) as Hc.
    apply CreateGhostParticle_search_inv with (N := N) in Hrun; [ | done | done].
    destruct Hrun. done.
  - injection Hrun as <-. split; [done | ]. split; [done | lia].
Qed.

(** A particle gets at most one ghost through each of the two faces of a
    dimension. *)
Lemma SearchGhost_part_count N simbox k lhs rhs kernrange i sph sph' :
  (i < Ntot sph)%nat -> search_inv N sph ->
  SearchGhost_part simbox k lhs rhs kernrange i sph = Ok sph' ->
  search_inv N sph' /\ Ntot sph' = Ntot sph
  /\ (Nghost sph <= Nghost sph' <= Nghost sph + 2)%nat.
Proof.
  intros Hi Hinv. unfold SearchGhost_part. intros Hrun.
  apply bind_Ok in Hrun as (p & _ & Hrun).
  apply bind_Ok in Hrun as (s1 & H1 & Hrun).
  assert (I1 : search_inv N s1 /\ Ntot s1 = Ntot sph
               /\ (Nghost sph <= Nghost s1 <= Nghost sph + 1)%nat).
  { destruct (Qltb _ _).
    - apply bind_Ok in H1 as (s0 & H0 & H1).
      apply guarded_create with (N := N) in H0 as (J1 & J2 & J3); [ | done | done].
      apply guarded_create with (N := N) in H1 as (K1 & K2 & K3); [ | lia | done].
      split; [done | ]. split; [congruence | ].
      revert J3 K3. destruct (String.eqb_spec lhs "periodic") as [-> | ?]; cbn;
        [lia | destruct (String.eqb lhs "mirror"); lia].
    - injection H1 as <-. split; [done | ]. split; [done | lia]. }
  destruct I1 as (I1 & I2 & I3).
  apply bind_Ok in Hrun as (p1 & _ & Hrun).
  destruct (Qgtb _ _).
  - apply bind_Ok in Hrun as (s2 & H2 & Hrun).
    apply guarded_create with (N := N) in H2 as (J1 & J2 & J3); [ | lia | done].
    apply guarded_create with (N := N) in Hrun as (K1 & K2 & K3); [ | lia | done].
    split; [done | ]. split; [congruence | ].
    revert J3 K3. destruct (String.eqb_spec rhs "periodic") as [-> | ?]; cbn;
      [lia | destruct (String.eqb rhs "mirror"); lia].
  - injection Hrun as <-. split; [done | ]. split; [done | lia].
Qed.

(** The sweep of one dimension at most triples the number of particles. *)
Lemma SearchGhost_dim_count N simbox k lhs rhs kernrange sph sph' :
  search_inv N sph -> Ntot sph = (Nsph sph + Nghost sph)%nat ->
  SearchGhost_dim simbox k lhs rhs kernrange sph = Ok sph' ->
  search_inv N sph' /\ Ntot sph' = (Nsph sph' + Nghost sph')%nat
  /\ (Ntot sph <= Ntot sph' <= 3 * Ntot sph)%nat.
Proof.
  intros Hinv Htot. unfold SearchGhost_dim.
  destruct (negb _); [ | intros H; injection H as <-; split; [done | ]; split; [done | lia]].
  intros Hrun. apply bind_Ok in Hrun as (s & Hloop & Hrun). injection Hrun as <-.
  apply (for_rangeM_from_inv_at
           (fun i t => search_inv N t /\ Ntot t = Ntot sph
                       /\ (Nghost sph <= Nghost t <= Nghost sph + 2 * i)%nat)) in Hloop.
  - destruct Hloop as ((HN & Hle & Hok) & HT & HG).
    destruct Hinv as (HN0 & _).
    split; [unfold search_inv; cbn; split; [done | ]; split; [lia | done] | ].
    split; [done | ]. cbn. lia.
  - intros i t t' Hi (Ht & Et & Gt) Hbody.
    apply SearchGhost_part_count with (N := N) in Hbody as (B1 & B2 & B3); [ | lia | done].
    split; [done | ]. split; [congruence | lia].
  - split; [done | ]. split; [done | lia].
Qed.

(** X25.  A ghost search that returns has made at most [3^d - 1] ghosts
    for every real particle, [d] being the number of dimensions swept: the
    total number of particles is at most 3, 9 and 27 times the number of
    real ones in one, two and three dimensions. *)
Theorem SearchGhostParticles_ghost_count ndim simbox sph sph' :
  SearchGhostParticles ndim simbox sph = Ok sph' ->
  (Nsph sph <= Ntot sph' <= 27 * Nsph sph)%nat
  /\ (ndim = 2%nat -> Ntot sph' <= 9 * Nsph sph)%nat
  /\ ((ndim < 2)%nat -> Ntot sph' <= 3 * Nsph sph)%nat.
Proof.
  unfold SearchGhostParticles. cbv zeta. cbn [Nsph Nsphmax set_Nghost set_Nghostmax].
  set (s0 := set_Ntot _ _).
  assert (H0 : search_inv (Nsph sph) s0).
  { unfold search_inv, s0. cbn. split; [done | ]. split; [lia | ].
    intros j Hj. lia. }
  assert (T0 : Ntot s0 = (Nsph s0 + Nghost s0)%nat) by (cbn; lia).
  assert (N0 : Ntot s0 = Nsph sph) by done.
  clearbody s0. intros Hrun.
  destruct (_ && _).
  - injection Hrun as <-. lia.
  - apply bind_Ok in Hrun as (s1 & H1 & Hrun).
    apply SearchGhost_dim_count with (N := Nsph sph) in H1 as (I1 & T1 & C1);
      [ | done | done].
    apply bind_Ok in Hrun as (s2 & H2 & Hrun).
    assert (I2 : search_inv (Nsph sph) s2 /\ Ntot s2 = (Nsph s2 + Nghost s2)%nat
                 /\ (Ntot s1 <= Ntot s2 <= 3 * Ntot s1)%nat
                 /\ ((ndim < 2)%nat -> Ntot s2 = Ntot s1)).
    { destruct (Nat.leb_spec 2 ndim).
      - apply SearchGhost_dim_count with (N := Nsph sph) in H2 as (? & ? & ?);
          [ | done | done].
        split; [done | ]. split; [done | ]. split; [done | lia].
      - injection H2 as <-. split; [done | ]. split; [done | ]. split; [lia | done]. }
    destruct I2 as (I2 & T2 & C2 & D2).
    apply bind_Ok in Hrun as (s3 & H3 & Hrun).
    assert (I3 : (Ntot s2 <= Ntot s3 <= 3 * Ntot s2)%nat
                 /\ (ndim <> 3%nat -> Ntot s3 = Ntot s2)).
    { destruct (Nat.eqb_spec ndim 3).
      - apply SearchGhost_dim_count with (N := Nsph sph) in H3 as (? & ? & ?);
          [ | done | done].
        split; [done | lia].
      - injection H3 as <-. split; [lia | done]. }
    destruct I3 as (C3 & D3).
    destruct (Nsphmax s3 <? Ntot s3)%nat; [discriminate | ].
    injection Hrun as <-.
    split; [lia | ]. split.
    + intros ->. rewrite D3 by lia. lia.
    + intros Hlt. rewrite D3 by lia. rewrite D2 by lia. lia.
Qed.

(** X25, witness: the particle near the corner of the periodic unit square
    and its three ghosts. *)
Lemma SearchGhostParticles_ghost_count_witness :
  exists sph',
    SearchGhostParticles 2 (Examples.unit_square "periodic") Examples.near_corner = Ok sph'
    /\ (Ntot sph' <= 9)%nat.
Proof.
  eexists. split; [vm_compute; reflexivity | ].
  destruct (SearchGhostParticles_ghost_count 2 (Examples.unit_square "periodic")
              Examples.near_corner _ ltac:(vm_compute; reflexivity)) as (_ & H & _).
  apply (H eq_refl).
Defined.

(** A particle far from both faces of a dimension is passed over. *)
Lemma SearchGhost_part_far simbox k lhs rhs kernrange i sph p :
  sphdata sph !! i = Some p ->
  vget (boxmin simbox) k + ghost_range * kernrange * Particle.h p
    <= vget (Particle.r p) k
    <= vget (boxmax simbox) k - ghost_range * kernrange * Particle.h p ->
  SearchGhost_part simbox k lhs rhs kernrange i sph = Ok sph.
Proof.
  intros Hp [Hlo Hhi]. unfold SearchGhost_part.
  rewrite (proj2 (read_Ok _ _ _) Hp). cbn [mbind result_bind].
  rewrite (proj2 (Qltb_ge _ _) Hlo). cbn [mbind result_bind].
  rewrite (proj2 (read_Ok _ _ _) Hp). cbn [mbind result_bind].
  by rewrite (proj2 (Qgtb_le _ _) Hhi).
Qed.

Lemma SearchGhost_dim_far simbox k lhs rhs kernrange sph :
  Ntot sph = (Nsph sph + Nghost sph)%nat ->
  (Ntot sph <= length (sphdata sph))%nat ->
  (forall i p, (i < Ntot sph)%nat -> sphdata sph !! i = Some p ->
     vget (boxmin simbox) k + ghost_range * kernrange * Particle.h p
       <= vget (Particle.r p) k
       <= vget (boxmax simbox) k - ghost_range * kernrange * Particle.h p) ->
  SearchGhost_dim simbox k lhs rhs kernrange sph = Ok sph.
Proof.
  intros Htot Hlen Hfar. unfold SearchGhost_dim.
  destruct (negb _); [ | done].
  destruct (for_rangeM_from_total (fun _ t => t = sph)
              (SearchGhost_part simbox k lhs rhs kernrange) (Ntot sph) 0 sph)
    as (s & Hs & ->); [ | done | ].
  - intros i t [_ Hi] ->. exists sph. split; [ | done]. cbn in Hi.
    destruct (lookup_lt_is_Some_2 (sphdata sph) i) as [p Hp]; [lia | ].
    apply (SearchGhost_part_far _ _ _ _ _ _ _ p Hp). by apply (Hfar i p).
  - unfold for_rangeM. rewrite Hs. cbn [mbind result_bind]. rewrite <- Htot.
    by destruct sph.
Qed.

(** X26.  No ghost without a face nearby.  When every real particle lies,
    along every dimension swept, at least [ghost_range * kernrange * h]
    inside both faces of the box, a ghost search makes no ghost: it returns
    the state it was given, with the three counters reset. *)
Theorem SearchGhostParticles_none_when_far ndim simbox sph :
  (Nsph sph <= length (sphdata sph))%nat ->
  (Nsph sph <= Nsphmax sph)%nat ->
  (forall i p k, (i < Nsph sph)%nat -> sphdata sph !! i = Some p -> swept ndim k ->
     vget (boxmin simbox) k + ghost_range * (kernrange sph * kernfac sph) * Particle.h p
       <= vget (Particle.r p) k
       <= vget (boxmax simbox) k
          - ghost_range * (kernrange sph * kernfac sph) * Particle.h p) ->
  SearchGhostParticles ndim simbox sph
  = Ok (set_Ntot (Nsph sph)
          (set_Nghostmax (Z.of_nat (Nsphmax sph) - Z.of_nat (Nsph sph))%Z
             (set_Nghost 0 sph))).
Proof.
  intros Hlen Hmax Hfar. unfold SearchGhostParticles. cbv zeta.
  cbn [Nsph Nsphmax kernrange kernfac set_Nghost set_Nghostmax].
  set (s0 := set_Ntot _ _).
  assert (F0 : Ntot s0 = (Nsph s0 + Nghost s0)%nat) by (cbn; lia).
  assert (L0 : (Ntot s0 <= length (sphdata s0))%nat) by done.
  assert (M0 : (Nsphmax s0 <? Ntot s0)%nat = false) by (apply Nat.ltb_ge; cbn; lia).
  assert (H0 : forall i p k, (i < Ntot s0)%nat -> sphdata s0 !! i = Some p ->
                 swept ndim k ->
                 vget (boxmin simbox) k
                 + ghost_range * (kernrange sph * kernfac sph) * Particle.h p
                   <= vget (Particle.r p) k
                   <= vget (boxmax simbox) k
                      - ghost_range * (kernrange sph * kernfac sph) * Particle.h p)
    by exact Hfar.
  clearbody s0.
  destruct (_ && _); [done | ].
  rewrite SearchGhost_dim_far; [ | done | done | ].
  2: { intros i p Hi Hp. apply (H0 i p 0%nat Hi Hp). by left. }
  cbn [mbind result_bind].
  destruct (Nat.leb_spec 2 ndim).
  - rewrite SearchGhost_dim_far; [ | done | done | ].
    2: { intros i p Hi Hp. apply (H0 i p 1%nat Hi Hp). right; left. by split. }
    cbn [mbind result_bind].
    destruct (Nat.eqb_spec ndim 3).
    + rewrite SearchGhost_dim_far; [ | done | done | ].
      2: { intros i p Hi Hp. apply (H0 i p 2%nat Hi Hp). right; right. by split. }
      cbn [mbind result_bind]. by rewrite M0.
    + cbn [mbind result_bind]. by rewrite M0.
  - cbn [mbind result_bind].
    destruct (Nat.eqb_spec ndim 3); [lia | ].
    cbn [mbind result_bind]. by rewrite M0.
Qed.

(** X26, witness: a particle of small smoothing length in the middle of the
    periodic unit box. *)
Lemma SearchGhostParticles_none_when_far_witness :
  exists sph',
    SearchGhostParticles 1 (Examples.unit_box "periodic")
      (Examples.sph_of 1 [Examples.particle [1 # 2] [1] (1 # 100)]) = Ok sph'
    /\ Nghost sph' = 0%nat.
Proof.
  eexists. split.
  - apply (SearchGhostParticles_none_when_far 1 (Examples.unit_box "periodic")
             (Examples.sph_of 1 [Examples.particle [1 # 2] [1] (1 # 100)])).
    + cbn. lia.
    + cbn. lia.
    + intros i p k Hi Hp Hk. cbn in Hi. assert (i = 0%nat) as -> by lia.
      injection Hp as <-.
      destruct Hk as [-> | [[_ Hk] | [_ Hk]]]; [ | cbn in Hk; lia | done].
      vm_compute. split; discriminate.
  - reflexivity.
Defined.

End GhostCount.

(** ** [DotProduct] and the gather loop *)

Section GatherLoop.

Import SphTree GatherSpec.

Lemma DotProduct_self_nonneg (v1 : list Q) (n : nat) : 0 <= DotProduct v1 v1 n.
Proof.
  unfold DotProduct.
  destruct (n =? 1)%nat; [nra | ].
  destruct (n =? 2)%nat; [nra | ].
  destruct (n =? 3)%nat; [nra | lra].
Qed.

(** X15.  [DotProduct] is symmetric, and the product of a vector with
    itself is never negative (for every [ndim], the ones the function does
    not handle included, where the model gives 0). *)
Theorem DotProduct_symmetric_nonneg (v1 v2 : list Q) (n : nat) :
  DotProduct v1 v2 n == DotProduct v2 v1 n /\ 0 <= DotProduct v1 v1 n.
Proof.
  unfold DotProduct.
  split; [ | apply DotProduct_self_nonneg]. unfold DotProduct.
  destruct (n =? 1)%nat; [ring | ].
  destruct (n =? 2)%nat; [ring | ].
  destruct (n =? 3)%nat; [ring | reflexivity].
Qed.

Lemma accepted_S this sph active hr b n :
  accepted this sph active hr b (Datatypes.S n)
  = accepted this sph active hr b n
    ++ (if within this sph active hr b n then [n] else []).
Proof.
  unfold accepted. rewrite seq_S, List.filter_app. cbn.
  by destruct (within this sph active hr b n).
Qed.

Lemma accepted_lt this sph active hr b n g jj :
  accepted this sph active hr b n !! g = Some jj ->
  (jj < n)%nat /\ within this sph active hr b jj = true.
Proof.
  intros H. apply list_elem_of_lookup_2, list_elem_of_In in H.
  unfold accepted in H. apply List.filter_In in H as [Hin Hw].
  apply in_seq in Hin. split; [lia | done].
Qed.

Lemma accepted_length this sph active hr b n :
  (length (accepted this sph active hr b n) <= n)%nat.
Proof.
  unfold accepted. etransitivity; [apply List.filter_length_le | ].
  by rewrite length_seq.
Qed.

(** The state of the gather loop after [n] entries. *)
Lemma gather_neib_loop this sph active hr b n :
  (n <= length (gpot b))%nat -> (n <= length (drsqd b))%nat ->
  (n <= length (m2 b))%nat ->
  let st := for_range n (gather_neib this sph active hr) (b, 0%nat) in
  snd st = length (accepted this sph active hr b n)
  /\ (Nneibmax (fst st) = Nneibmax b /\ neiblist (fst st) = neiblist b
      /\ ptype (fst st) = ptype b /\ m (fst st) = m b /\ r (fst st) = r b
      /\ gpot2 (fst st) = gpot2 b)
  /\ (length (gpot (fst st)) = length (gpot b)
      /\ length (drsqd (fst st)) = length (drsqd b)
      /\ length (m2 (fst st)) = length (m2 b))
  /\ (forall g jj, accepted this sph active hr b n !! g = Some jj ->
        vget (gpot (fst st)) g = vget (gpot b) jj
        /\ vget (m2 (fst st)) g = vget (m b) jj
        /\ vget (drsqd (fst st)) g = sqdist this active b jj)
  /\ (forall idx, (snd st <= idx)%nat -> vget (gpot (fst st)) idx = vget (gpot b) idx).
Proof.
  cbv zeta. induction n as [|n IH]; intros Hg Hd Hm.
  - cbn. repeat split; try done.
  - rewrite for_range_S, accepted_S.
    destruct IH as (IG & (F1 & F2 & F3 & F4 & F5 & F6) & (L1 & L2 & L3) & Isel & Irest);
      [lia | lia | lia | ].
    pose proof (accepted_length this sph active hr b n) as Hlen.
    destruct (for_range n _ _) as [bn G]. cbn [fst snd] in *.
    unfold gather_neib. unfold within. rewrite F3.
    destruct (hmask sph (Particle.ptype active) (default 0%nat (ptype b !! n))); cbn [negb andb].
    2: { rewrite app_nil_r. done. }
    rewrite F5. fold (sqdist this active b n).
    destruct (Qleb (sqdist this active b n) hr) eqn:E.
    2: { rewrite app_nil_r. done. }
    cbn [fst snd Nneibmax neiblist ptype m r gpot2 gpot drsqd m2].
    rewrite !length_vset, length_app. cbn [length].
    split; [lia | ]. split; [done | ]. split; [done | ]. split.
    + intros g jj Hsel. destruct (decide (g = G)) as [-> | Hne].
      * rewrite IG, lookup_app_r in Hsel by lia.
        rewrite Nat.sub_diag in Hsel. injection Hsel as <-.
        rewrite !vget_vset_eq by lia.
        rewrite Irest by lia. rewrite F4. done.
      * assert (Hlt : (g < G)%nat).
        { apply lookup_lt_Some in Hsel. rewrite length_app in Hsel. cbn in Hsel. lia. }
        rewrite lookup_app_l in Hsel by lia.
        rewrite !vget_vset_ne by done. by apply Isel.
    + intros idx Hidx. rewrite vget_vset_ne by lia. apply Irest. lia.
Qed.

(** X16.  The local copies a gather loop compacts are the right ones.  With
    [sel] the entries that pass the type mask and the range test, in order,
    the loop returns their number, and slot [g] of the distance, potential
    and mass arrays handed to [ComputeH] holds the squared distance,
    potential and mass of entry [sel[g]]; every squared distance handed over
    lies between [small_number] and [hrangesqd].  The potentials are
    compacted in place, in the array of the local copies itself: from slot
    [Ngather] on it is unchanged. *)
Theorem gather_neib_loop_compacts this sph active hr b Nneib b' Ngather :
  (Nneib <= length (gpot b))%nat -> (Nneib <= length (drsqd b))%nat ->
  (Nneib <= length (m2 b))%nat ->
  for_range Nneib (gather_neib this sph active hr) (b, 0%nat) = (b', Ngather) ->
  Ngather = length (accepted this sph active hr b Nneib)
  /\ (Ngather <= Nneib)%nat
  /\ (forall g jj, accepted this sph active hr b Nneib !! g = Some jj ->
        (g <= jj < Nneib)%nat
        /\ vget (gpot b') g = vget (gpot b) jj
        /\ vget (m2 b') g = vget (m b) jj
        /\ vget (drsqd b') g = sqdist this active b jj
        /\ small_number this <= vget (drsqd b') g <= hr)
  /\ (forall idx, (Ngather <= idx)%nat -> vget (gpot b') idx = vget (gpot b) idx)
  /\ m b' = m b /\ r b' = r b /\ ptype b' = ptype b /\ neiblist b' = neiblist b.
Proof.
  intros Hg Hd Hm Hrun.
  pose proof (gather_neib_loop this sph active hr b Nneib Hg Hd Hm) as H.
  cbv zeta in H. rewrite Hrun in H. cbn [fst snd] in H.
  destruct H as (IG & (F1 & F2 & F3 & F4 & F5 & F6) & _ & Isel & Irest).
  split; [done | ]. split; [rewrite IG; apply accepted_length | ].
  split; [ | done].
  intros g jj Hsel. destruct (Isel g jj Hsel) as (S1 & S2 & S3).
  destruct (accepted_lt _ _ _ _ _ _ _ _ Hsel) as [Hjj Hw].
  split.
  { split; [ | done].
    clear - Hsel. revert g jj Hsel. induction Nneib as [|n IH]; intros g jj Hsel.
    - done.
    - rewrite accepted_S in Hsel.
      pose proof (accepted_length this sph active hr b n) as Hlen.
      destruct (decide (g < length (accepted this sph active hr b n))%nat) as [Hlt | Hge].
      + rewrite lookup_app_l in Hsel by done. by apply IH.
      + rewrite lookup_app_r in Hsel by lia.
        destruct (within this sph active hr b n); [ | done].
        apply list_lookup_singleton_Some in Hsel as [? <-]. lia. }
  split; [done | ]. split; [done | ]. split; [done | ].
  rewrite S3. unfold within in Hw. apply andb_true_iff in Hw as [_ Hw].
  apply Qleb_le in Hw. split; [ | done].
  unfold sqdist. cbv zeta.
  match goal with
  | |- _ <= DotProduct ?a ?a ?n + _ =>
      pose proof (DotProduct_self_nonneg a n)
  end. lra.
Qed.

(** X16, witness: of two local copies, at distances 3 and 1 from the active
    particle, the second is within the range 2 and is compacted to slot 0. *)
Lemma gather_neib_loop_compacts_witness :
  exists b',
    for_range 2
      (gather_neib (Examples.sphtree 1) Examples.mfv_solver
         (Examples.particle [0] [0] 1) 4)
      ({| Nneibmax := 2; neiblist := [0; 1]%nat; ptype := [0; 0]%nat; gpot := [5; 6];
          gpot2 := [0; 0]; drsqd := [0; 0]; m := [1; 2]; m2 := [0; 0]; r := [3; 1] |},
       0%nat) = (b', 1%nat)
    /\ vget (gpot b') 0 = 6 /\ vget (m2 b') 0 = 2.
Proof.
  eexists. split; [vm_compute; reflexivity | ].
  destruct (gather_neib_loop_compacts (Examples.sphtree 1) Examples.mfv_solver
              (Examples.particle [0] [0] 1) 4
              {| Nneibmax := 2; neiblist := [0; 1]%nat; ptype := [0; 0]%nat;
                 gpot := [5; 6]; gpot2 := [0; 0]; drsqd := [0; 0]; m := [1; 2];
                 m2 := [0; 0]; r := [3; 1] |} 2 _ 1
              ltac:(cbn; lia) ltac:(cbn; lia) ltac:(cbn; lia)
              ltac:(vm_compute; reflexivity)) as (_ & _ & Hsel & _).
  destruct (Hsel 0%nat 1%nat) as (_ & Hg & Hm & _); [vm_compute; reflexivity | ].
  split; [exact Hg | exact Hm].
Defined.

End GatherLoop.

(** ** The gravity routines: assertions and frame *)

Section Gravity.

Import Grad Grav GravSpec.

Lemma same_but_gravity_refl p : same_but_gravity p p.
Proof. split; [ | done]. destruct p as [b ? ? ? ? ? ? ? ? ?]. by destruct b. Qed.

Lemma same_but_gravity_add n f g p' p :
  same_but_gravity p' p -> same_but_gravity (add_gravity n f g p') p.
Proof.
  intros [Hp Hl]. split.
  - rewrite Hp at 1. unfold add_gravity. cbn. by destruct (base p).
  - unfold add_gravity. cbn [agrav]. rewrite <- Hl.
    induction n as [|n IH]; [done | ]. by rewrite for_range_S, length_vset.
Qed.

Lemma for_rangeM_from_AssertFail {S : Type} (body : nat -> S -> result S)
    (n start : nat) (s : S) :
  for_rangeM_from start n body s = AssertFail ->
  exists i t, (start <= i < start + n)%nat /\ body i t = AssertFail.
Proof.
  revert start s. induction n as [|n IH]; intros start s H; [done | ].
  cbn in H. apply bind_AssertFail in H as [H | (t & _ & H)].
  - exists start, s. split; [lia | done].
  - apply IH in H as (i & u & Hi & Hu). exists i, u. split; [lia | done].
Qed.

Lemma for_rangeM_from_Ok_steps {S : Type} (body : nat -> S -> result S)
    (n start : nat) (s s' : S) :
  for_rangeM_from start n body s = Ok s' ->
  forall i, (start <= i < start + n)%nat -> exists t t', body i t = Ok t'.
Proof.
  revert start s. induction n as [|n IH]; intros start s H i Hi; [lia | ].
  cbn in H. apply bind_Ok in H as (t & Ht & H).
  destruct (decide (i = start)) as [-> | Hne]; [by exists s, t | ].
  apply (IH _ _ H). lia.
Qed.

(** The common shape of the two loops that assert a neighbour is not
    dead before they add its pull. *)
Lemma alive_loop (upd : FVParticle -> FVParticle -> FVParticle) N neiblist neibpart part :
  (forall neib p' p, same_but_gravity p' p -> same_but_gravity (upd neib p') p) ->
  let body jj p :=
    j ← read neiblist jj;
    neib ← read neibpart j;
    _ ← assert (negb (parttype_eqb (Particle.itype (base neib)) dead));
    Ok (upd neib p) in
  (for_rangeM N body part = AssertFail -> some_dead N neiblist neibpart)
  /\ forall part', for_rangeM N body part = Ok part' ->
       all_alive N neiblist neibpart /\ same_but_gravity part' part.
Proof.
  intros Hupd body. split.
  - intros H. apply for_rangeM_from_AssertFail in H as (jj & t & Hjj & H).
    unfold body in H.
    apply bind_AssertFail in H as [H | (j & Hj & H)].
    { unfold read in H. destruct (neiblist !! jj); done. }
    apply read_Ok in Hj.
    apply bind_AssertFail in H as [H | (neib & Hn & H)].
    { unfold read in H. destruct (neibpart !! j); done. }
    apply read_Ok in Hn.
    apply bind_AssertFail in H as [H | (u & _ & H)]; [ | done].
    apply assert_AssertFail, negb_false_iff, parttype_eqb_eq in H.
    exists jj, j, neib. split; [lia | done].
  - intros part' H. split.
    + intros jj Hjj.
      destruct (for_rangeM_from_Ok_steps _ _ _ _ _ H jj) as (t & t' & Hstep); [lia | ].
      unfold body in Hstep.
      apply bind_Ok in Hstep as (j & Hj & Hstep). apply read_Ok in Hj.
      apply bind_Ok in Hstep as (neib & Hn & Hstep). apply read_Ok in Hn.
      apply bind_Ok in Hstep as (u & Ha & _).
      apply assert_Ok, negb_true_iff in Ha.
      exists j, neib. split; [done | ]. split; [done | ].
      intros Hd. apply parttype_eqb_eq in Hd. congruence.
    + apply (for_rangeM_inv (fun p => same_but_gravity p part)) in H;
        [done | | apply same_but_gravity_refl].
      intros jj t t' _ Ht Hstep. unfold body in Hstep.
      apply bind_Ok in Hstep as (j & _ & Hstep).
      apply bind_Ok in Hstep as (neib & _ & Hstep).
      apply bind_Ok in Hstep as (u & _ & Hstep). injection Hstep as <-.
      by apply Hupd.
Qed.

(** X22.  [ComputeDirectGravForces] and [ComputeSmoothedGravForces] stop on
    their assertion only if one of the listed neighbours is dead; when they
    return, every listed neighbour was alive, and the particle is as it was
    but for its potential and its gravitational acceleration. *)
Theorem gravity_loops_assert_alive this gk i N neiblist part neibpart :
  (ComputeDirectGravForces this i N neiblist part neibpart = AssertFail ->
   some_dead N neiblist neibpart)
  /\ (forall part', ComputeDirectGravForces this i N neiblist part neibpart = Ok part' ->
        all_alive N neiblist neibpart /\ same_but_gravity part' part)
  /\ (ComputeSmoothedGravForces this gk i N neiblist part neibpart = AssertFail ->
      some_dead N neiblist neibpart)
  /\ (forall part', ComputeSmoothedGravForces this gk i N neiblist part neibpart = Ok part' ->
        all_alive N neiblist neibpart /\ same_but_gravity part' part).
Proof.
  pose proof (alive_loop
                (fun neib parti =>
                   let n := ndim this in
                   let dr :=
                     Mfv.vinit n (fun k => vget (Particle.r (base neib)) k
                                           - vget (Particle.r (base parti)) k) in
                   let drsqd := DotProduct dr dr n + small_number this in
                   let invdrmag := 1 / sqrt this drsqd in
                   let invdr3 := invdrmag * invdrmag * invdrmag in
                   add_gravity n (fun k => Particle.m (base neib) * vget dr k * invdr3)
                     (Particle.m (base neib) * invdrmag) parti)
                N neiblist neibpart part) as Hd.
  pose proof (alive_loop
                (fun neib parti =>
                   let n := ndim this in
                   let dr :=
                     Mfv.vinit n (fun k => vget (Particle.r (base neib)) k
                                           - vget (Particle.r (base parti)) k) in
                   let drmag := sqrt this (DotProduct dr dr n + small_number this) in
                   let invdrmag := 1 / drmag in
                   let dr := for_range n (fun k a => vset k (vget a k * invdrmag) a) dr in
                   let pi := base parti in
                   let pj := base neib in
                   let paux :=
                     (1 # 2)
                     * (Particle.invh pi * Particle.invh pi
                        * wgrav gk (drmag * Particle.invh pi)
                        + Particle.zeta pi * Particle.hfactor pi
                          * w1 gk (drmag * Particle.invh pi)
                        + Particle.invh pj * Particle.invh pj
                          * wgrav gk (drmag * Particle.invh pj)
                        + Particle.zeta pj * Particle.hfactor pj
                          * w1 gk (drmag * Particle.invh pj)) in
                   let gaux :=
                     (1 # 2) * (Particle.invh pi * wpot gk (drmag * Particle.invh pi)
                                + Particle.invh pj * wpot gk (drmag * Particle.invh pj)) in
                   add_gravity n (fun k => Particle.m pj * vget dr k * paux)
                     (Particle.m pj * gaux) parti)
                N neiblist neibpart part) as Hs.
  cbv zeta in Hd, Hs.
  destruct Hd as [Hd1 Hd2]; [intros; by apply same_but_gravity_add | ].
  destruct Hs as [Hs1 Hs2]; [intros; by apply same_but_gravity_add | ].
  split; [exact Hd1 | ]. split; [exact Hd2 | ]. split; [exact Hs1 | exact Hs2].
Qed.

(** X22, witness: the two neighbours of the particle at 0 are alive, and
    the direct sum over them returns. *)
Lemma gravity_loops_assert_alive_witness :
  exists part',
    ComputeDirectGravForces (Examples.mfv 1 0 1 1 0) 0 2 [0; 1]%nat
      (GradExamples.fv GradExamples.centre) GradExamples.sides = Ok part'
    /\ all_alive 2 [0; 1]%nat GradExamples.sides.
Proof.
  eexists. split; [vm_compute; reflexivity | ].
  destruct (gravity_loops_assert_alive (Examples.mfv 1 0 1 1 0)
              {| wgrav := fun _ => 1; w1 := fun _ => 1; wpot := fun _ => 1 |}
              0 2 [0; 1]%nat (GradExamples.fv GradExamples.centre) GradExamples.sides)
    as (_ & Hok & _).
  destruct (Hok _ ltac:(vm_compute; reflexivity)) as [Halive _]. exact Halive.
Defined.

(** X23.  The two assertions of [ComputeStarGravForces] hold for every
    star when the softening is positive, the square root of a positive
    number is positive, and the smoothing lengths of the particle and the
    star add up to a positive number: with as many stars in the array as
    the count says, the routine returns, and the particle is as it was but
    for its potential and its gravitational acceleration. *)
Theorem ComputeStarGravForces_returns this gk N nbodydata part :
  0 < small_number this ->
  (forall x, 0 < x -> 0 < sqrt this x) ->
  (N <= length nbodydata)%nat ->
  (forall j star, (j < N)%nat -> nbodydata !! j = Some star ->
     0 < Particle.h (base part) + star_h star) ->
  exists part',
    ComputeStarGravForces this gk N nbodydata part = Ok part'
    /\ same_but_gravity part' part.
Proof.
  intros Hsmall Hsqrt HN Hh. unfold ComputeStarGravForces, for_rangeM.
  destruct (for_rangeM_from_total
              (fun _ p => same_but_gravity p part) (star_force this gk nbodydata)
              N 0 part) as (part' & Hrun & Hsame).
  - intros j p [_ Hj] Hp. cbn in Hj.
    destruct (lookup_lt_is_Some_2 nbodydata j) as [star Hstar]; [lia | ].
    unfold star_force. rewrite (proj2 (read_Ok _ _ _) Hstar). cbn [mbind result_bind].
    cbv zeta.
    assert (Hb : Particle.h (base p) = Particle.h (base part)).
    { destruct Hp as [-> _]. reflexivity. }
    set (dr := Mfv.vinit (ndim this) _).
    assert (Hd : 0 < sqrt this (DotProduct dr dr (ndim this) + small_number this)).
    { apply Hsqrt. pose proof (DotProduct_self_nonneg dr (ndim this)). lra. }
    assert (Hm : 0 < 2 / (Particle.h (base p) + star_h star)).
    { rewrite Hb. apply Qlt_shift_div_l; [by eapply Hh | lra]. }
    rewrite (proj2 (Qgtb_gt _ 0) Hd).
    rewrite (proj2 (Qgtb_gt _ 0)) by (by apply Qmult_lt_0_compat).
    cbn [assert mbind result_bind]. eexists. split; [reflexivity | ].
    by apply same_but_gravity_add.
  - apply same_but_gravity_refl.
  - exists part'. split; [exact Hrun | exact Hsame].
Qed.

(** X23, witness: one star of unit mass and smoothing length, two lengths
    away from the particle at 0. *)
Lemma ComputeStarGravForces_returns_witness :
  exists part',
    ComputeStarGravForces (Examples.mfv 1 0 1 1 0)
      {| wgrav := fun _ => 1; w1 := fun _ => 1; wpot := fun _ => 1 |} 1
      [{| star_m := 1; star_h := 1; star_r := [2] |}]
      (GradExamples.fv GradExamples.centre) = Ok part'
    /\ same_but_gravity part' (GradExamples.fv GradExamples.centre).
Proof.
  apply (ComputeStarGravForces_returns (Examples.mfv 1 0 1 1 0)
           {| wgrav := fun _ => 1; w1 := fun _ => 1; wpot := fun _ => 1 |} 1
           [{| star_m := 1; star_h := 1; star_r := [2] |}]
           (GradExamples.fv GradExamples.centre)).
  - reflexivity.
  - intros x Hx. exact Hx.
  - cbn. lia.
  - intros j star Hj Hstar. assert (j = 0%nat) as -> by lia.
    injection Hstar as <-. reflexivity.
Defined.

End Gravity.

(** ** [CopyAccelerationFromGhosts]: what every particle receives *)

Section CopyAcceleration.

Import Accel AccelSpec.

Lemma add_block n (c : nat -> Q) (v : list Q) :
  let v' := for_range n (fun k acc => vset k (vget acc k + c k) acc) v in
  length v' = length v
  /\ forall k, vget v' k
               = if decide (k < n /\ k < length v)%nat then vget v k + c k else vget v k.
Proof.
  cbv zeta. induction n as [|n [IHl IHg]].
  - cbn. split; [done | ]. intros k. by rewrite decide_False by lia.
  - rewrite for_range_S, length_vset. split; [done | ].
    intros k. destruct (decide (k = n)) as [-> | Hne].
    + destruct (decide (n < length v)%nat) as [Hlt | Hge].
      * rewrite vget_vset_eq by lia. rewrite IHg.
        rewrite decide_False by lia. by rewrite decide_True by lia.
      * unfold vset at 1. rewrite list_insert_ge by lia.
        rewrite IHg. by rewrite !decide_False by lia.
    + rewrite vget_vset_ne by done. rewrite IHg.
      destruct (decide (k < n /\ k < length v)%nat).
      * by rewrite decide_True by lia.
      * by rewrite decide_False by lia.
Qed.

Lemma write_lt {A : Type} (l : list A) (i : nat) (x : A) :
  (i < length l)%nat -> write l i x = Ok (<[i := x]> l).
Proof. intros Hi. unfold write. by rewrite (proj2 (Nat.ltb_lt _ _) Hi). Qed.

(** The loop over the components of the acceleration. *)
Lemma a_loop ndim iorig i (data : list SphParticle) o g :
  iorig <> i -> data !! iorig = Some o -> data !! i = Some g ->
  for_rangeM ndim
    (fun k data =>
       o ← read data iorig;
       g ← read data i;
       write data iorig (set_a (vset k (vget (a o) k + vget (a g) k) (a o)) o))
    data
  = Ok (<[iorig := set_a (for_range ndim
                            (fun k acc => vset k (vget acc k + vget (a g) k) acc) (a o)) o]>
          data).
Proof.
  intros Hne Ho Hg.
  destruct (for_rangeM_from_total
              (fun k t =>
                 t = <[iorig := set_a (for_range k
                                         (fun k acc => vset k (vget acc k + vget (a g) k) acc)
                                         (a o)) o]> data)
              (fun k data =>
                 o ← read data iorig;
                 g ← read data i;
                 write data iorig (set_a (vset k (vget (a o) k + vget (a g) k) (a o)) o))
              ndim 0 data) as (t & Ht & ->).
  - intros k t _ ->.
    rewrite (proj2 (read_Ok _ _ _)
               (list_lookup_insert_eq _ _ _ (lookup_lt_Some _ _ _ Ho))).
    cbn [mbind result_bind].
    rewrite (proj2 (read_Ok _ i g)) by (by rewrite list_lookup_insert_ne).
    cbn [mbind result_bind].
    rewrite write_lt by (rewrite length_insert; by eapply lookup_lt_Some).
    eexists. split; [reflexivity | ].
    rewrite list_insert_insert_eq, for_range_S. reflexivity.
  - cbn. rewrite list_insert_id; [done | ]. rewrite Ho. by destruct o.
  - exact Ht.
Qed.

(** What one ghost adds to its original. *)
Lemma CopyAccelerationFromGhosts_ghost_Ok ndim Nsph j (data : list SphParticle) g o :
  data !! (Nsph + j)%nat = Some g ->
  Particle.iorig (sph_base g) <> (Nsph + j)%nat ->
  data !! Particle.iorig (sph_base g) = Some o ->
  CopyAccelerationFromGhosts_ghost ndim Nsph j data
  = Ok (if Particle.active (sph_base o)
        then <[Particle.iorig (sph_base g) :=
                 set_sph_div_v
                   (Particle.div_v (sph_base o) + Particle.div_v (sph_base g))
                   (set_dudt (dudt o + dudt g)
                      (set_a (for_range ndim
                                (fun k acc => vset k (vget acc k + vget (a g) k) acc)
                                (a o)) o))]> data
        else data).
Proof.
  intros Hg Hne Ho. unfold CopyAccelerationFromGhosts_ghost. cbv zeta.
  rewrite (proj2 (read_Ok _ _ _) Hg). cbn [mbind result_bind].
  rewrite (proj2 (read_Ok _ _ _) Ho). cbn [mbind result_bind].
  destruct (Particle.active (sph_base o)); cbn [negb]; [ | done].
  rewrite (a_loop ndim _ _ data o g Hne Ho Hg). cbn [mbind result_bind].
  assert (Hlt : (Particle.iorig (sph_base g) < length data)%nat)
    by (by eapply lookup_lt_Some).
  rewrite (proj2 (read_Ok _ _ _) (list_lookup_insert_eq _ _ _ Hlt)).
  cbn [mbind result_bind].
  rewrite (proj2 (read_Ok _ (Nsph + j)%nat g)) by (by rewrite list_lookup_insert_ne).
  cbn [mbind result_bind].
  rewrite write_lt by (by rewrite length_insert).
  cbn [mbind result_bind]. rewrite list_insert_insert_eq.
  rewrite (proj2 (read_Ok _ _ _) (list_lookup_insert_eq _ _ _ Hlt)).
  cbn [mbind result_bind].
  rewrite (proj2 (read_Ok _ (Nsph + j)%nat g)) by (by rewrite list_lookup_insert_ne).
  cbn [mbind result_bind].
  rewrite write_lt by (by rewrite length_insert).
  by rewrite list_insert_insert_eq.
Qed.

Lemma ghosts_of_S f Nsph n data i0 :
  ghosts_of f Nsph (Datatypes.S n) data i0
  = match data !! (Nsph + n)%nat with
    | Some g =>
        if (Particle.iorig (sph_base g) =? i0)%nat
        then ghosts_of f Nsph n data i0 + f g else ghosts_of f Nsph n data i0
    | None => ghosts_of f Nsph n data i0
    end.
Proof. unfold ghosts_of. by rewrite for_range_S. Qed.

(** X24.  [CopyAccelerationFromGhosts] gives every active real particle
    what its ghosts hold: when every ghost names a real particle, the
    routine returns; an active real particle has had added to its [dudt],
    its [div_v] and every component of its acceleration the sum of those of
    the ghosts that name it; an inactive one, and every ghost, is left as it
    was; nothing else is changed. *)
Theorem CopyAccelerationFromGhosts_collects ndim Nsph Nghost (data : list SphParticle) :
  (Nsph + Nghost <= length data)%nat ->
  (forall j, (j < Nghost)%nat ->
     exists g, data !! (Nsph + j)%nat = Some g
               /\ (Particle.iorig (sph_base g) < Nsph)%nat) ->
  exists data',
    CopyAccelerationFromGhosts ndim Nsph Nghost data = Ok data'
    /\ length data' = length data
    /\ (forall i, (Nsph <= i)%nat -> data' !! i = data !! i)
    /\ forall i0 o, (i0 < Nsph)%nat -> data !! i0 = Some o ->
         exists o',
           data' !! i0 = Some o'
           /\ same_but_sums o' o
           /\ (Particle.active (sph_base o) = false -> o' = o)
           /\ (Particle.active (sph_base o) = true ->
               dudt o' == dudt o + ghosts_of dudt Nsph Nghost data i0
               /\ Particle.div_v (sph_base o')
                  == Particle.div_v (sph_base o)
                     + ghosts_of (fun g => Particle.div_v (sph_base g)) Nsph Nghost data i0
               /\ forall k, (k < ndim)%nat -> (k < length (a o))%nat ->
                    vget (a o') k
                    == vget (a o) k + ghosts_of (fun g => vget (a g) k) Nsph Nghost data i0).
Proof.
  intros Hlen Hghosts. unfold CopyAccelerationFromGhosts, for_rangeM.
  destruct (for_rangeM_from_total
              (fun n t =>
                 length t = length data
                 /\ (forall i, (Nsph <= i)%nat -> t !! i = data !! i)
                 /\ forall i0 o, (i0 < Nsph)%nat -> data !! i0 = Some o ->
                      exists o',
                        t !! i0 = Some o'
                        /\ same_but_sums o' o
                        /\ Particle.active (sph_base o') = Particle.active (sph_base o)
                        /\ (Particle.active (sph_base o) = false -> o' = o)
                        /\ (Particle.active (sph_base o) = true ->
                            dudt o' == dudt o + ghosts_of dudt Nsph n data i0
                            /\ Particle.div_v (sph_base o')
                               == Particle.div_v (sph_base o)
                                  + ghosts_of (fun g => Particle.div_v (sph_base g))
                                      Nsph n data i0
                            /\ forall k, (k < ndim)%nat -> (k < length (a o))%nat ->
                                 vget (a o') k
                                 == vget (a o) k
                                    + ghosts_of (fun g => vget (a g) k) Nsph n data i0))
              (CopyAccelerationFromGhosts_ghost ndim Nsph) Nghost 0 data)
    as (data' & Hrun & Hl & Hg & Hreal).
  - intros j t [_ Hj] (Il & Ig & Ir). cbn in Hj.
    destruct (Hghosts j Hj) as (g & Hgj & Hio).
    destruct (lookup_lt_is_Some_2 data (Particle.iorig (sph_base g))) as [o Ho]; [lia | ].
    destruct (Ir _ o Hio Ho) as (o1 & Ho1 & [S1 S2] & A1 & O1 & O2).
    rewrite (CopyAccelerationFromGhosts_ghost_Ok ndim Nsph j t g o1);
      [ | by rewrite Ig by lia | lia | done].
    eexists. split; [reflexivity | ].
    destruct (Particle.active (sph_base o1)) eqn:Eact.
    + rewrite length_insert. split; [done | ]. split.
      { intros i Hi. rewrite list_lookup_insert_ne by lia. by apply Ig. }
      intros i0 o0 Hi0 Ho0. destruct (decide (i0 = Particle.iorig (sph_base g))) as [-> | Hne].
      * assert (o0 = o) as -> by congruence.
        rewrite list_lookup_insert_eq by lia. eexists. split; [reflexivity | ].
        destruct (add_block ndim (fun k => vget (a g) k) (a o1)) as [Bl Bg].
        destruct O2 as (D1 & D2 & D3); [congruence | ].
        split.
        { split; [ | cbn [a set_sph_div_v set_dudt set_a]; congruence].
          cbn [sph_base set_sph_div_v set_dudt set_a]. rewrite <- S1.
          by destruct (sph_base o1). }
        split; [cbn; congruence | ].
        split; [intros; congruence | ]. intros _.
        rewrite !ghosts_of_S, Hgj, Nat.eqb_refl.
        cbn [sph_base a dudt set_sph_div_v set_dudt set_a Particle.div_v Particle.set_div_v].
        split; [rewrite D1; ring | ]. split; [rewrite D2; ring | ].
        intros k Hk Hka. rewrite ghosts_of_S, Hgj, Nat.eqb_refl.
        rewrite Bg, decide_True by (split; [done | lia]).
        rewrite D3 by done. ring.
      * rewrite list_lookup_insert_ne by done.
        destruct (Ir i0 o0 Hi0 Ho0) as (o' & Ho' & Hs & Ha & P1 & P2).
        exists o'. split; [done | ]. split; [done | ]. split; [done | ].
        split; [done | ]. intros Hact. destruct (P2 Hact) as (Q1 & Q2 & Q3).
        rewrite !ghosts_of_S, Hgj.
        rewrite (proj2 (Nat.eqb_neq _ _)) by done.
        split; [done | ]. split; [done | ]. intros k Hk Hka.
        rewrite ghosts_of_S, Hgj. rewrite (proj2 (Nat.eqb_neq _ _)) by done.
        by apply Q3.
    + split; [done | ]. split; [done | ].
      intros i0 o0 Hi0 Ho0.
      destruct (Ir i0 o0 Hi0 Ho0) as (o' & Ho' & Hs & Ha & P1 & P2).
      exists o'. split; [done | ]. split; [done | ]. split; [done | ].
      split; [done | ]. intros Hact. destruct (P2 Hact) as (Q1 & Q2 & Q3).
      assert (Hne : Particle.iorig (sph_base g) <> i0).
      { intros <-. assert (o0 = o) as -> by congruence.
        assert (o' = o1) as -> by congruence. congruence. }
      rewrite !ghosts_of_S, Hgj. rewrite (proj2 (Nat.eqb_neq _ _)) by done.
      split; [done | ]. split; [done | ]. intros k Hk Hka.
      rewrite ghosts_of_S, Hgj. rewrite (proj2 (Nat.eqb_neq _ _)) by done.
      by apply Q3.
  - split; [done | ]. split; [done | ].
    intros i0 o Hi0 Ho. exists o. split; [done | ].
    split; [split; [by destruct (sph_base o) | done] | ].
    split; [done | ]. split; [done | ]. intros _.
    unfold ghosts_of. cbn. split; [ring | ]. split; [ring | ]. intros; ring.
  - exists data'. change (0 + Nghost)%nat with Nghost in Hreal.
    split; [exact Hrun | ]. split; [exact Hl | ]. split; [exact Hg | ].
    intros i0 o Hi0 Ho. destruct (Hreal i0 o Hi0 Ho) as (o' & H1 & H2 & _ & H3 & H4).
    by exists o'.
Qed.

(** X24, witness: one active particle with one ghost; the heating rates 5
    and 6 add up to 11. *)
Lemma CopyAccelerationFromGhosts_collects_witness :
  exists data' o',
    CopyAccelerationFromGhosts 1 1 1
      [{| sph_base := Examples.particle [0] [0] 1; a := [3]; dudt := 5 |};
       {| sph_base := Particle.set_active false (Examples.particle [1] [0] 1);
          a := [4]; dudt := 6 |}] = Ok data'
    /\ data' !! 0%nat = Some o'
    /\ dudt o' == 11.
Proof.
  destruct (CopyAccelerationFromGhosts_collects 1 1 1
              [{| sph_base := Examples.particle [0] [0] 1; a := [3]; dudt := 5 |};
               {| sph_base := Particle.set_active false (Examples.particle [1] [0] 1);
                  a := [4]; dudt := 6 |}]) as (data' & Hrun & _ & _ & Hreal).
  - cbn. lia.
  - intros j Hj. assert (j = 0%nat) as -> by lia. eexists. split; [reflexivity | cbn; lia].
  - destruct (Hreal 0%nat _ ltac:(lia) eq_refl) as (o' & Ho' & _ & _ & Hact).
    destruct (Hact eq_refl) as (Hd & _).
    exists data', o'. split; [exact Hrun | ]. split; [exact Ho' | ].
    rewrite Hd. reflexivity.
Defined.

End CopyAcceleration.

(** ** [ComputePsiFactors]: the matrix it stores is the inverse *)

Section PsiFactors.

Import Psi PsiSpec.

Lemma array2_row nr nc (M : list vec) k :
  array2 nr nc M -> (k < nr)%nat -> length (nth k M []) = nc.
Proof.
  intros [Hl Hrows] Hk. rewrite nth_lookup.
  destruct (lookup_lt_is_Some_2 M k) as [row Hrow]; [lia | ].
  rewrite Hrow. cbn. rewrite Forall_lookup in Hrows. by apply (Hrows k).
Qed.

Lemma array2_mset nr nc (M : list vec) k kk x :
  array2 nr nc M -> array2 nr nc (mset k kk x M).
Proof.
  intros [Hl Hrows]. unfold mset. split; [by rewrite length_insert | ].
  destruct (decide (k < length M)%nat) as [Hk | Hk].
  - apply Forall_insert; [done | ]. rewrite length_vset.
    apply (array2_row nr nc M k); [done | lia].
  - by rewrite list_insert_ge by lia.
Qed.

Lemma mget_mset_eq nr nc (M : list vec) k kk x :
  array2 nr nc M -> (k < nr)%nat -> (kk < nc)%nat -> mget (mset k kk x M) k kk = x.
Proof.
  intros HM Hk Hkk. unfold mget, mset. rewrite nth_lookup.
  rewrite list_lookup_insert_eq by (destruct HM; lia). cbn.
  apply vget_vset_eq. by rewrite (array2_row nr nc M k).
Qed.

Lemma mget_mset_ne (M : list vec) k kk k' kk' x :
  k <> k' \/ kk <> kk' -> mget (mset k kk x M) k' kk' = mget M k' kk'.
Proof.
  intros Hne. unfold mget, mset. rewrite !nth_lookup.
  destruct (decide (k = k')) as [<- | Hk].
  - destruct (decide (k < length M)%nat) as [Hlt | Hge].
    + rewrite list_lookup_insert_eq by done. cbn.
      by rewrite vget_vset_ne by (destruct Hne; done).
    + by rewrite list_insert_ge by lia.
  - by rewrite list_lookup_insert_ne.
Qed.

(** A loop that rewrites, from their old values, the entries
    [(row i, col i)] for [i < n']; no entry is visited twice. *)
Lemma line_loop nr nc (row col : nat -> nat) (g : nat -> Q -> Q) (M : list vec) n' :
  array2 nr nc M ->
  (forall i, (i < n')%nat -> (row i < nr)%nat /\ (col i < nc)%nat) ->
  (forall i j, (i < j < n')%nat -> row i <> row j \/ col i <> col j) ->
  let M' := for_range n' (fun i M => mset (row i) (col i) (g i (mget M (row i) (col i))) M) M in
  array2 nr nc M'
  /\ (forall i, (i < n')%nat -> mget M' (row i) (col i) = g i (mget M (row i) (col i)))
  /\ (forall k kk, (forall i, (i < n')%nat -> row i <> k \/ col i <> kk) ->
        mget M' k kk = mget M k kk).
Proof.
  intros HM. cbv zeta. induction n' as [|n' IH]; intros Hin Hinj.
  - cbn. split; [done | ]. split; [intros; lia | done].
  - rewrite for_range_S.
    destruct IH as (IHs & IHin & IHout); [intros; apply Hin; lia | intros; apply Hinj; lia | ].
    split; [by apply array2_mset | ]. split.
    + intros i Hi. destruct (decide (i = n')) as [-> | Hne].
      * rewrite (mget_mset_eq nr nc) by (done || apply Hin; lia).
        rewrite IHout; [done | ]. intros i Hi'.
        destruct (Hinj i n') as [H | H]; [lia | by left | by right].
      * rewrite mget_mset_ne.
        -- apply IHin. lia.
        -- destruct (Hinj i n') as [H | H]; [lia | left; congruence | right; congruence].
    + intros k kk Hout. rewrite mget_mset_ne by (apply Hout; lia).
      apply IHout. intros i Hi. apply Hout. lia.
Qed.

(** One row of a loop nest that rewrites every entry from its old value. *)
Lemma row_loop nr nc (g : nat -> Q -> Q) (M : list vec) k n' :
  array2 nr nc M -> (k < nr)%nat -> (n' <= nc)%nat ->
  let M' := for_range n' (fun kk M => mset k kk (g kk (mget M k kk)) M) M in
  array2 nr nc M'
  /\ forall k' kk', (k' < nr)%nat -> (kk' < nc)%nat ->
       mget M' k' kk'
       = if decide (k' = k /\ kk' < n')%nat then g kk' (mget M k' kk') else mget M k' kk'.
Proof.
  intros HM Hk Hn'. cbv zeta.
  destruct (line_loop nr nc (fun _ => k) (fun kk => kk) g M n' HM) as (Hs & Hin & Hout).
  - intros i Hi. lia.
  - intros i j Hij. right. lia.
  - split; [done | ]. intros k' kk' Hk' Hkk'.
    destruct (decide (k' = k /\ kk' < n')%nat) as [[-> Hlt] | Hne].
    + by apply Hin.
    + apply Hout. intros i Hi. destruct (decide (k = k')); [right | left]; lia.
Qed.

(** The same for one column. *)
Lemma col_loop nr nc (g : nat -> Q -> Q) (M : list vec) kk n' :
  array2 nr nc M -> (kk < nc)%nat -> (n' <= nr)%nat ->
  let M' := for_range n' (fun k M => mset k kk (g k (mget M k kk)) M) M in
  array2 nr nc M'
  /\ forall k' kk', (k' < nr)%nat -> (kk' < nc)%nat ->
       mget M' k' kk'
       = if decide (kk' = kk /\ k' < n')%nat then g k' (mget M k' kk') else mget M k' kk'.
Proof.
  intros HM Hk Hn'. cbv zeta.
  destruct (line_loop nr nc (fun k => k) (fun _ => kk) g M n' HM) as (Hs & Hin & Hout).
  - intros i Hi. lia.
  - intros i j Hij. left. lia.
  - split; [done | ]. intros k' kk' Hk' Hkk'.
    destruct (decide (kk' = kk /\ k' < n')%nat) as [[-> Hlt] | Hne].
    + by apply Hin.
    + apply Hout. intros i Hi. destruct (decide (kk = kk')); [left | right]; lia.
Qed.

(** The whole nest, rows outside. *)
Lemma nest_loop nr nc (g : nat -> nat -> Q -> Q) (M : list vec) n' :
  array2 nr nc M -> (n' <= nr)%nat ->
  let M' := for_range n'
              (fun k M => for_range nc (fun kk M => mset k kk (g k kk (mget M k kk)) M) M) M in
  array2 nr nc M'
  /\ forall k' kk', (k' < nr)%nat -> (kk' < nc)%nat ->
       mget M' k' kk'
       = if decide (k' < n')%nat then g k' kk' (mget M k' kk') else mget M k' kk'.
Proof.
  intros HM. cbv zeta. induction n' as [|n' IH]; intros Hn'.
  - cbn. split; [done | ]. intros k' kk' _ _. by rewrite decide_False by lia.
  - rewrite for_range_S. destruct IH as [IHs IHg]; [lia | ].
    destruct (row_loop nr nc (g n') _ n' nc IHs) as [Rs Rg]; [lia | lia | ].
    split; [done | ]. intros k' kk' Hk' Hkk'. rewrite Rg by done.
    destruct (decide (k' = n' /\ kk' < nc)%nat) as [[-> _] | Hne].
    + rewrite IHg by done. rewrite decide_False by lia. by rewrite decide_True by lia.
    + rewrite IHg by done.
      destruct (decide (k' < n')%nat).
      * by rewrite decide_True by lia.
      * by rewrite decide_False by lia.
Qed.

(** The whole nest, columns outside. *)
Lemma nest_loop_T nr nc (g : nat -> nat -> Q -> Q) (M : list vec) n' :
  array2 nr nc M -> (n' <= nc)%nat ->
  let M' := for_range n'
              (fun kk M => for_range nr (fun k M => mset k kk (g k kk (mget M k kk)) M) M) M in
  array2 nr nc M'
  /\ forall k' kk', (k' < nr)%nat -> (kk' < nc)%nat ->
       mget M' k' kk'
       = if decide (kk' < n')%nat then g k' kk' (mget M k' kk') else mget M k' kk'.
Proof.
  intros HM. cbv zeta. induction n' as [|n' IH]; intros Hn'.
  - cbn. split; [done | ]. intros k' kk' _ _. by rewrite decide_False by lia.
  - rewrite for_range_S. destruct IH as [IHs IHg]; [lia | ].
    destruct (col_loop nr nc (fun k => g k n') _ n' nr IHs) as [Rs Rg]; [lia | lia | ].
    split; [done | ]. intros k' kk' Hk' Hkk'. rewrite Rg by done.
    destruct (decide (kk' = n' /\ k' < nr)%nat) as [[-> _] | Hne].
    + rewrite IHg by done. rewrite decide_False by lia. by rewrite decide_True by lia.
    + rewrite IHg by done.
      destruct (decide (kk' < n')%nat).
      * by rewrite decide_True by lia.
      * by rewrite decide_False by lia.
Qed.

Lemma set_B_B x p : Particle.B (set_B x p) = x.
Proof. reflexivity. Qed.

Lemma set_B_set_B x y p : set_B x (set_B y p) = set_B x p.
Proof. reflexivity. Qed.

(** The nest that zeroes [E] and [part.B] together does to each what the
    nest on it alone would do. *)
Lemma zero_matrices_split n E part :
  zero_matrices n (E, part)
  = (for_range n (fun k M => for_range n (fun kk M => mset k kk 0 M) M) E,
     set_B (for_range n (fun k M => for_range n (fun kk M => mset k kk 0 M) M)
              (Particle.B part)) part).
Proof.
  unfold zero_matrices.
  assert (Hrow : forall k m E B,
            for_range m
              (fun kk '(E, part) =>
                 (mset k kk 0 E, set_B (mset k kk 0 (Particle.B part)) part))
              (E, set_B B part)
            = (for_range m (fun kk M => mset k kk 0 M) E,
               set_B (for_range m (fun kk M => mset k kk 0 M) B) part)).
  { intros k m E0 B0. induction m as [|m IH]; [done | ].
    by rewrite !for_range_S, IH. }
  assert (Hnest : forall m,
            for_range m
              (fun k st =>
                 for_range n
                   (fun kk '(E, part) =>
                      (mset k kk 0 E, set_B (mset k kk 0 (Particle.B part)) part))
                   st)
              (E, set_B (Particle.B part) part)
            = (for_range m (fun k M => for_range n (fun kk M => mset k kk 0 M) M) E,
               set_B (for_range m (fun k M => for_range n (fun kk M => mset k kk 0 M) M)
                        (Particle.B part)) part)).
  { induction m as [|m IH]; [done | ]. by rewrite !for_range_S, IH, Hrow. }
  replace part with (set_B (Particle.B part) part) at 1 by (by destruct part).
  apply Hnest.
Qed.

Lemma array2_replicate nr nc : array2 nr nc (replicate nr (replicate nc 0)).
Proof.
  split; [apply length_replicate | ].
  apply Forall_replicate. apply length_replicate.
Qed.

Lemma add_moments_array2 this x part neib E :
  array2 (ndim this) (ndim this) E ->
  array2 (ndim this) (ndim this) (add_moments this x part neib E).
Proof.
  intros HE. unfold add_moments. cbv zeta.
  by apply (nest_loop (ndim this) (ndim this)
              (fun k kk e =>
                 e + vget _ k * vget _ kk * Particle.hfactor part * _ / Particle.ndens part)
              E (ndim this)).
Qed.

(** What the routine holds when its loop over the neighbours has ended: a
    square [E], and the particle with a zeroed square [B]. *)
Lemma neighbour_moments_Ok this Nneib neiblist part neibpart E p0 :
  array2 (ndim this) (ndim this) (Particle.B part) ->
  neighbour_moments this Nneib neiblist part neibpart = Ok (E, p0) ->
  array2 (ndim this) (ndim this) E
  /\ array2 (ndim this) (ndim this) (Particle.B p0)
  /\ p0 = set_B (Particle.B p0) part.
Proof.
  intros HB. unfold neighbour_moments. cbv zeta. rewrite zero_matrices_split.
  destruct (nest_loop (ndim this) (ndim this) (fun _ _ _ => 0) (replicate (ndim this)
              (replicate (ndim this) 0)) (ndim this)) as [HE0 _];
    [apply array2_replicate | done | ].
  destruct (nest_loop (ndim this) (ndim this) (fun _ _ _ => 0) (Particle.B part) (ndim this))
    as [HB0 _]; [done | done | ].
  intros Hrun. apply bind_Ok in Hrun as (E1 & Hloop & Hrun). injection Hrun as <- <-.
  split; [ | by split].
  apply (for_rangeM_inv (array2 (ndim this) (ndim this))) in Hloop; [done | | done].
  intros jj t t' _ Ht Hstep.
  apply bind_Ok in Hstep as (j & _ & Hstep). apply bind_Ok in Hstep as (nb & _ & Hstep).
  injection Hstep as <-. by apply add_moments_array2.
Qed.

Ltac mget_invert n HB :=
  repeat match goal with
    | |- context [mget (mset ?k ?kk ?x ?M) ?k ?kk] =>
        rewrite (mget_mset_eq n n M k kk x)
          by (first [repeat apply array2_mset; exact HB | lia])
    | |- context [mget (mset ?k ?kk ?x ?M) ?k' ?kk'] =>
        rewrite (mget_mset_ne M k kk k' kk' x)
          by (first [left; discriminate | right; discriminate])
    end.

(** The closed formulas of the routine give the inverse. *)
Lemma invert_product_1 (E B : list vec) :
  array2 1 1 B -> ~ mget E 0 0 == 0 ->
  product 1 (invert 1 E B) E 0 0 == 1.
Proof.
  intros HB Hdet. unfold invert, product, for_range. cbn [seq fold_left Nat.eqb].
  mget_invert 1%nat HB. field. exact Hdet.
Qed.

Lemma invert_product_2 (E B : list vec) k kk :
  array2 2 2 B -> ~ det 2 E == 0 -> (k < 2)%nat -> (kk < 2)%nat ->
  product 2 (invert 2 E B) E k kk == identity k kk.
Proof.
  intros HB Hdet Hk Hkk. unfold det in Hdet. cbn [Nat.eqb] in Hdet.
  unfold invert, product, for_range. cbn [seq fold_left Nat.eqb]. cbv zeta.
  destruct k as [|[|k]]; [ | | lia]; destruct kk as [|[|kk]]; try lia;
    mget_invert 2%nat HB; unfold identity; cbn [Nat.eqb]; field; exact Hdet.
Qed.

Lemma invert_product_3 (E B : list vec) k kk :
  array2 3 3 B -> ~ det 3 E == 0 -> (k < 3)%nat -> (kk < 3)%nat ->
  product 3 (invert 3 E B) E k kk == identity k kk.
Proof.
  intros HB Hdet Hk Hkk. unfold det in Hdet. cbn [Nat.eqb] in Hdet.
  unfold invert, product, for_range. cbn [seq fold_left Nat.eqb]. cbv zeta.
  destruct k as [|[|[|k]]]; [ | | | lia]; destruct kk as [|[|[|kk]]]; try lia;
    mget_invert 3%nat HB; unfold identity; cbn [Nat.eqb]; field; exact Hdet.
Qed.

Lemma invert_product n (E B : list vec) k kk :
  (1 <= n <= 3)%nat -> array2 n n B -> ~ det n E == 0 ->
  (k < n)%nat -> (kk < n)%nat ->
  product n (invert n E B) E k kk == identity k kk.
Proof.
  intros Hn HB Hdet Hk Hkk.
  assert (Hcases : (n = 1 \/ n = 2 \/ n = 3)%nat) by lia.
  destruct Hcases as [-> | [-> | ->]].
  - assert (k = 0%nat) as -> by lia. assert (kk = 0%nat) as -> by lia.
    by apply invert_product_1.
  - by apply invert_product_2.
  - by apply invert_product_3.
Qed.

(** X17.  [ComputePsiFactors] stores in [part.B] the inverse of the matrix
    [E] it has accumulated over the neighbours: in one, two and three
    dimensions, when the determinant the routine divides by is not zero,
    [B] times [E] is the identity.  Nothing but [B] is changed in the
    particle.  ([B] is an [ndim] by [ndim] array.) *)
Theorem ComputePsiFactors_inverts this i Nneib neiblist part neibpart part' :
  (1 <= ndim this <= 3)%nat ->
  array2 (ndim this) (ndim this) (Particle.B part) ->
  ComputePsiFactors this i Nneib neiblist part neibpart = Ok part' ->
  part' = set_B (Particle.B part') part
  /\ array2 (ndim this) (ndim this) (Particle.B part')
  /\ exists E p0,
       neighbour_moments this Nneib neiblist part neibpart = Ok (E, p0)
       /\ (~ det (ndim this) E == 0 ->
           forall k kk, (k < ndim this)%nat -> (kk < ndim this)%nat ->
             product (ndim this) (Particle.B part') E k kk == identity k kk).
Proof.
  intros Hn HB. unfold ComputePsiFactors. intros Hrun.
  apply bind_Ok in Hrun as ([E p0] & Hmom & Hrun). injection Hrun as <-.
  destruct (neighbour_moments_Ok _ _ _ _ _ _ _ HB Hmom) as (HE & HB0 & Hp0).
  rewrite set_B_B. split; [rewrite Hp0; apply set_B_set_B | ].
  split.
  { unfold invert.
    repeat match goal with |- context [if ?b then _ else _] => destruct b end;
      cbv zeta; repeat apply array2_mset; exact HB0. }
  exists E, p0. split; [done | ].
  intros Hdet k kk Hk Hkk. by apply invert_product.
Qed.

(** X17, witness: in one dimension, a fluid particle with one neighbour a
    unit length away. *)
Lemma ComputePsiFactors_inverts_witness :
  exists part' E p0,
    ComputePsiFactors (Examples.mfv 1 0 1 1 0) 0 1 [0%nat] (Examples.fluid 0)
      [Examples.fluid 1] = Ok part'
    /\ neighbour_moments (Examples.mfv 1 0 1 1 0) 1 [0%nat] (Examples.fluid 0)
         [Examples.fluid 1] = Ok (E, p0)
    /\ product 1 (Particle.B part') E 0 0 == 1.
Proof.
  destruct (ComputePsiFactors_inverts (Examples.mfv 1 0 1 1 0) 0 1 [0%nat]
              (Examples.fluid 0) [Examples.fluid 1] _
              ltac:(cbn; lia) ltac:(repeat constructor)
              ltac:(vm_compute; reflexivity)) as (_ & _ & E & p0 & Hmom & Hinv).
  eexists. exists E, p0. split; [vm_compute; reflexivity | ]. split; [exact Hmom | ].
  apply (Hinv); [ | cbn; lia | cbn; lia].
  pose proof Hmom as Hmom'. vm_compute in Hmom'. injection Hmom' as <- _.
  intros H. vm_compute in H. discriminate.
Defined.

End PsiFactors.

(** ** [ComputeGradients]: the extrema and the assertions *)

Section Gradients.

Import Psi PsiSpec Grad.

Lemma min_le_l a b : min a b <= a.
Proof.
  unfold min. destruct (Qltb b a) eqn:E; [apply Qltb_lt in E; lra | lra].
Qed.

Lemma min_le_r a b : min a b <= b.
Proof.
  unfold min. destruct (Qltb b a) eqn:E; [lra | apply Qltb_ge in E; lra].
Qed.

Lemma max_ge_l a b : a <= Mfv.max a b.
Proof.
  unfold Mfv.max. destruct (Qltb a b) eqn:E; [apply Qltb_lt in E; lra | lra].
Qed.

Lemma max_ge_r a b : b <= Mfv.max a b.
Proof.
  unfold Mfv.max. destruct (Qltb a b) eqn:E; [lra | apply Qltb_ge in E; lra].
Qed.

Lemma for_rangeM_from_no_assert {S : Type} (P : S -> Prop) (body : nat -> S -> result S)
    (n start : nat) (s : S) :
  (forall i t, P t -> body i t <> AssertFail /\ forall t', body i t = Ok t' -> P t') ->
  P s -> for_rangeM_from start n body s <> AssertFail.
Proof.
  intros Hbody. revert start s. induction n as [|n IH]; intros start s Hs; [done | ].
  cbn. destruct (Hbody start s Hs) as [Hna Hok].
  destruct (body start s) as [t| | | | | |]; cbn; try done.
  apply IH. by apply Hok.
Qed.

(** What the initialisation leaves. *)
Lemma ComputeGradients_init_spec this big part :
  let p0 := ComputeGradients_init this big part in
  base p0 = base part /\ sound p0 = sound part /\ vsig_max p0 = 0
  /\ grad p0 = for_range (ndim this)
                 (fun k g => for_range (nvar this) (fun var g => mset var k 0 g) g)
                 (grad part)
  /\ length (Wmin p0) = length (Wmin part) /\ length (Wmax p0) = length (Wmax part)
  /\ length (Wmidmin p0) = length (Wmidmin part)
  /\ length (Wmidmax p0) = length (Wmidmax part)
  /\ forall var, (var < nvar this)%nat ->
       ((var < length (Wmin part))%nat ->
        vget (Wmin p0) var = vget (Particle.Wprim (base part)) var)
       /\ ((var < length (Wmax part))%nat ->
           vget (Wmax p0) var = vget (Particle.Wprim (base part)) var).
Proof.
  unfold ComputeGradients_init. cbv zeta.
  set (p1 := set_grad _ _).
  assert (H1 : base p1 = base part /\ sound p1 = sound part /\ vsig_max p1 = 0
               /\ grad p1 = for_range (ndim this)
                              (fun k g => for_range (nvar this) (fun var g => mset var k 0 g) g)
                              (grad part)
               /\ Wmin p1 = Wmin part /\ Wmax p1 = Wmax part
               /\ Wmidmin p1 = Wmidmin part /\ Wmidmax p1 = Wmidmax part) by done.
  destruct H1 as (B1 & S1 & V1 & G1 & <- & <- & <- & <-). rewrite <- B1, <- S1, <- G1.
  clearbody p1. clear B1 S1 G1.
  induction (nvar this) as [|n IH].
  - cbn. repeat split; try done; lia.
  - rewrite for_range_S. destruct IH as (I1 & I2 & I3 & I4 & L1 & L2 & L3 & L4 & IW).
    cbn [base sound vsig_max grad Wmin Wmax Wmidmin Wmidmax set_limits].
    rewrite !length_vset.
    split; [done | ]. split; [done | ]. split; [done | ]. split; [done | ].
    split; [done | ]. split; [done | ]. split; [done | ]. split; [done | ].
    intros var Hvar. destruct (decide (var = n)) as [-> | Hne].
    + split; intros Hl; rewrite vget_vset_eq by lia; by rewrite I1.
    + rewrite !vget_vset_ne by done. apply IW. lia.
Qed.

Lemma gradient_neib_Ok this x neiblist neibpart jj part part' :
  gradient_neib this x neiblist neibpart jj part = Ok part' ->
  exists j neib,
    neiblist !! jj = Some j /\ neibpart !! j = Some neib
    /\ base part' = base part /\ sound part' = sound part
    /\ Wmin part' = Wmin part /\ Wmax part' = Wmax part
    /\ Wmidmin part' = Wmidmin part /\ Wmidmax part' = Wmidmax part
    /\ vsig_max part <= vsig_max part'
    /\ sound part + sound neib <= vsig_max part'.
Proof.
  unfold gradient_neib. intros H.
  apply bind_Ok in H as (j & Hj & H). apply read_Ok in Hj.
  apply bind_Ok in H as (neib & Hn & H). apply read_Ok in Hn.
  cbv zeta in H. injection H as <-. exists j, neib.
  cbn [base sound Wmin Wmax Wmidmin Wmidmax vsig_max set_vreg set_vsig_max set_grad].
  repeat split; try done.
  - apply max_ge_l.
  - match goal with
    | |- _ <= Mfv.max ?a (?b - min 0 ?x) =>
        pose proof (min_le_l 0 x); pose proof (max_ge_r a (b - min 0 x))
    end. lra.
Qed.

(** What the inner loop of the second pass does for one neighbour: no
    assertion fails, and the extrema move towards the neighbour's state. *)
Lemma limits_vars (wj : nat -> Q) (mid : FVParticle -> nat -> Q) n part :
  length (Wmin part) = length (Wmax part) ->
  length (Wmidmin part) = length (Wmidmax part) ->
  exists part',
    for_rangeM n
      (fun var part =>
         let part :=
           set_limits
             (vset var (min (vget (Wmin part) var) (wj var)) (Wmin part))
             (vset var (Mfv.max (vget (Wmax part) var) (wj var)) (Wmax part))
             (vset var (min (vget (Wmidmin part) var) (mid part var)) (Wmidmin part))
             (vset var (Mfv.max (vget (Wmidmax part) var) (mid part var)) (Wmidmax part))
             part in
         _ ← assert (Qleb (vget (Wmidmin part) var) (vget (Wmidmax part) var));
         _ ← assert (Qleb (vget (Wmin part) var) (vget (Wmax part) var));
         Ok part)
      part = Ok part'
    /\ base part' = base part /\ sound part' = sound part
    /\ vsig_max part' = vsig_max part /\ grad part' = grad part
    /\ length (Wmin part') = length (Wmin part)
    /\ length (Wmax part') = length (Wmax part)
    /\ length (Wmidmin part') = length (Wmidmin part)
    /\ length (Wmidmax part') = length (Wmidmax part)
    /\ forall var,
         vget (Wmin part') var
         = (if decide (var < n /\ var < length (Wmin part))%nat
            then min (vget (Wmin part) var) (wj var) else vget (Wmin part) var)
         /\ vget (Wmax part') var
            = (if decide (var < n /\ var < length (Wmax part))%nat
               then Mfv.max (vget (Wmax part) var) (wj var) else vget (Wmax part) var).
Proof.
  intros Hl1 Hl2.
  destruct (for_rangeM_from_total
              (fun i p =>
                 base p = base part /\ sound p = sound part
                 /\ vsig_max p = vsig_max part /\ grad p = grad part
                 /\ length (Wmin p) = length (Wmin part)
                 /\ length (Wmax p) = length (Wmax part)
                 /\ length (Wmidmin p) = length (Wmidmin part)
                 /\ length (Wmidmax p) = length (Wmidmax part)
                 /\ forall var,
                      vget (Wmin p) var
                      = (if decide (var < i /\ var < length (Wmin part))%nat
                         then min (vget (Wmin part) var) (wj var)
                         else vget (Wmin part) var)
                      /\ vget (Wmax p) var
                         = (if decide (var < i /\ var < length (Wmax part))%nat
                            then Mfv.max (vget (Wmax part) var) (wj var)
                            else vget (Wmax part) var))
              (fun var part =>
                 let part :=
                   set_limits
                     (vset var (min (vget (Wmin part) var) (wj var)) (Wmin part))
                     (vset var (Mfv.max (vget (Wmax part) var) (wj var)) (Wmax part))
                     (vset var (min (vget (Wmidmin part) var) (mid part var)) (Wmidmin part))
                     (vset var (Mfv.max (vget (Wmidmax part) var) (mid part var))
                        (Wmidmax part))
                     part in
                 _ ← assert (Qleb (vget (Wmidmin part) var) (vget (Wmidmax part) var));
                 _ ← assert (Qleb (vget (Wmin part) var) (vget (Wmax part) var));
                 Ok part)
              n 0 part) as (part' & Hrun & Hinv).
  - intros i p _ (I1 & I2 & I3 & I4 & L1 & L2 & L3 & L4 & IW). cbv zeta.
    cbn [Wmin Wmax Wmidmin Wmidmax set_limits].
    assert (A1 : Qleb (vget (vset i (min (vget (Wmidmin p) i) (mid p i)) (Wmidmin p)) i)
                      (vget (vset i (Mfv.max (vget (Wmidmax p) i) (mid p i)) (Wmidmax p)) i)
                 = true).
    { apply Qleb_le. destruct (decide (i < length (Wmidmin p))%nat) as [Hlt | Hge].
      - rewrite !vget_vset_eq by lia.
        pose proof (min_le_r (vget (Wmidmin p) i) (mid p i)).
        pose proof (max_ge_r (vget (Wmidmax p) i) (mid p i)). lra.
      - unfold vget, vset. rewrite !list_insert_ge by lia.
        rewrite !lookup_ge_None_2 by lia. cbn. lra. }
    assert (A2 : Qleb (vget (vset i (min (vget (Wmin p) i) (wj i)) (Wmin p)) i)
                      (vget (vset i (Mfv.max (vget (Wmax p) i) (wj i)) (Wmax p)) i)
                 = true).
    { apply Qleb_le. destruct (decide (i < length (Wmin p))%nat) as [Hlt | Hge].
      - rewrite !vget_vset_eq by lia.
        pose proof (min_le_r (vget (Wmin p) i) (wj i)).
        pose proof (max_ge_r (vget (Wmax p) i) (wj i)). lra.
      - unfold vget, vset. rewrite !list_insert_ge by lia.
        rewrite !lookup_ge_None_2 by lia. cbn. lra. }
    rewrite A1, A2. cbn [assert mbind]. eexists. split; [reflexivity | ].
    cbn [base sound vsig_max grad Wmin Wmax Wmidmin Wmidmax set_limits].
    rewrite !length_vset.
    split; [done | ]. split; [done | ]. split; [done | ]. split; [done | ].
    split; [done | ]. split; [done | ]. split; [done | ]. split; [done | ].
    intros var. destruct (IW var) as [IWmin IWmax].
    destruct (decide (var = i)) as [-> | Hne].
    + split.
      * destruct (decide (i < length (Wmin part))%nat) as [Hlt | Hge].
        -- rewrite vget_vset_eq by lia. rewrite decide_True by lia.
           rewrite IWmin. by rewrite decide_False by lia.
        -- unfold vset. rewrite list_insert_ge by lia. fold (vget (Wmin p) i).
           rewrite IWmin. by rewrite !decide_False by lia.
      * destruct (decide (i < length (Wmax part))%nat) as [Hlt | Hge].
        -- rewrite vget_vset_eq by lia. rewrite decide_True by lia.
           rewrite IWmax. by rewrite decide_False by lia.
        -- unfold vset. rewrite list_insert_ge by lia. fold (vget (Wmax p) i).
           rewrite IWmax. by rewrite !decide_False by lia.
    + rewrite !vget_vset_ne by done. rewrite IWmin, IWmax. split.
      * destruct (decide (var < i /\ var < length (Wmin part))%nat).
        -- by rewrite decide_True by lia.
        -- by rewrite decide_False by lia.
      * destruct (decide (var < i /\ var < length (Wmax part))%nat).
        -- by rewrite decide_True by lia.
        -- by rewrite decide_False by lia.
  - repeat split; try done; by rewrite decide_False by lia.
  - exists part'. split; [exact Hrun | ]. exact Hinv.
Qed.

Lemma limits_neib_spec this neiblist neibpart jj part :
  length (Wmin part) = length (Wmax part) ->
  length (Wmidmin part) = length (Wmidmax part) ->
  limits_neib this neiblist neibpart jj part <> AssertFail
  /\ forall part',
       limits_neib this neiblist neibpart jj part = Ok part' ->
       exists j neib,
         neiblist !! jj = Some j /\ neibpart !! j = Some neib
         /\ base part' = base part /\ sound part' = sound part
         /\ vsig_max part' = vsig_max part /\ grad part' = grad part
         /\ length (Wmin part') = length (Wmin part)
         /\ length (Wmax part') = length (Wmax part)
         /\ length (Wmidmin part') = length (Wmidmin part)
         /\ length (Wmidmax part') = length (Wmidmax part)
         /\ forall var,
              vget (Wmin part') var
              = (if decide (var < nvar this /\ var < length (Wmin part))%nat
                 then min (vget (Wmin part) var) (vget (Particle.Wprim (base neib)) var)
                 else vget (Wmin part) var)
              /\ vget (Wmax part') var
                 = (if decide (var < nvar this /\ var < length (Wmax part))%nat
                    then Mfv.max (vget (Wmax part) var)
                           (vget (Particle.Wprim (base neib)) var)
                    else vget (Wmax part) var).
Proof.
  intros Hl1 Hl2.
  assert (Hinner : forall neib,
            exists part',
              for_rangeM (nvar this)
                (fun var part0 =>
                   let mid :=
                     vget (Particle.Wprim (base part0)) var
                     + (1 # 2)
                       * DotProduct (nth var (grad part0) [])
                           (Mfv.vinit (ndim this)
                              (fun k => vget (Particle.r (base neib)) k
                                        - vget (Particle.r (base part)) k))
                           (ndim this) in
                   let part1 :=
                     set_limits
                       (vset var (min (vget (Wmin part0) var)
                                    (vget (Particle.Wprim (base neib)) var)) (Wmin part0))
                       (vset var (Mfv.max (vget (Wmax part0) var)
                                    (vget (Particle.Wprim (base neib)) var)) (Wmax part0))
                       (vset var (min (vget (Wmidmin part0) var) mid) (Wmidmin part0))
                       (vset var (Mfv.max (vget (Wmidmax part0) var) mid) (Wmidmax part0))
                       part0 in
                   _ ← assert (Qleb (vget (Wmidmin part1) var) (vget (Wmidmax part1) var));
                   _ ← assert (Qleb (vget (Wmin part1) var) (vget (Wmax part1) var));
                   Ok part1)
                part = Ok part'
              /\ base part' = base part /\ sound part' = sound part
              /\ vsig_max part' = vsig_max part /\ grad part' = grad part
              /\ length (Wmin part') = length (Wmin part)
              /\ length (Wmax part') = length (Wmax part)
              /\ length (Wmidmin part') = length (Wmidmin part)
              /\ length (Wmidmax part') = length (Wmidmax part)
              /\ forall var,
                   vget (Wmin part') var
                   = (if decide (var < nvar this /\ var < length (Wmin part))%nat
                      then min (vget (Wmin part) var)
                             (vget (Particle.Wprim (base neib)) var)
                      else vget (Wmin part) var)
                   /\ vget (Wmax part') var
                      = (if decide (var < nvar this /\ var < length (Wmax part))%nat
                         then Mfv.max (vget (Wmax part) var)
                                (vget (Particle.Wprim (base neib)) var)
                         else vget (Wmax part) var)).
  { intros neib.
    exact (limits_vars (fun var => vget (Particle.Wprim (base neib)) var)
             (fun p var =>
                vget (Particle.Wprim (base p)) var
                + (1 # 2)
                  * DotProduct (nth var (grad p) [])
                      (Mfv.vinit (ndim this)
                         (fun k => vget (Particle.r (base neib)) k
                                   - vget (Particle.r (base part)) k))
                      (ndim this))
             (nvar this) part Hl1 Hl2). }
  unfold limits_neib. split.
  - intros H. apply bind_AssertFail in H as [H | (j & _ & H)].
    { unfold read in H. destruct (neiblist !! jj); done. }
    apply bind_AssertFail in H as [H | (neib & _ & H)].
    { unfold read in H. destruct (neibpart !! j); done. }
    destruct (Hinner neib) as (part' & Hrun & _).
    pose proof (eq_trans (eq_sym Hrun) H) as X. discriminate X.
  - intros part' H.
    apply bind_Ok in H as (j & Hj & H). apply read_Ok in Hj.
    apply bind_Ok in H as (neib & Hn & H). apply read_Ok in Hn.
    destruct (Hinner neib) as (p' & Hrun & Hspec).
    pose proof (eq_trans (eq_sym Hrun) H) as X. injection X as ->. by exists j, neib.
Qed.

(** The second loop over the neighbours.  Its two assertions compare a
    maximum with a minimum of the same values, which holds in exact
    arithmetic; a NaN, which the rounded run can produce, fails them. *)
Lemma limits_loop this neiblist neibpart Nneib part :
  length (Wmin part) = length (Wmax part) ->
  length (Wmidmin part) = length (Wmidmax part) ->
  for_rangeM Nneib (limits_neib this neiblist neibpart) part <> AssertFail
  /\ forall q,
       for_rangeM Nneib (limits_neib this neiblist neibpart) part = Ok q ->
       base q = base part /\ sound q = sound part /\ vsig_max q = vsig_max part
       /\ grad q = grad part
       /\ forall var, (var < nvar this)%nat -> (var < length (Wmin part))%nat ->
            vget (Wmin q) var <= vget (Wmin part) var
            /\ vget (Wmax part) var <= vget (Wmax q) var
            /\ forall jj j neib,
                 (jj < Nneib)%nat -> neiblist !! jj = Some j -> neibpart !! j = Some neib ->
                 vget (Wmin q) var <= vget (Particle.Wprim (base neib)) var
                   <= vget (Wmax q) var.
Proof.
  intros Hl1 Hl2. split.
  - apply (for_rangeM_from_no_assert
             (fun p => length (Wmin p) = length (Wmax p)
                       /\ length (Wmidmin p) = length (Wmidmax p))); [ | done].
    intros i t [T1 T2]. destruct (limits_neib_spec this neiblist neibpart i t T1 T2)
      as [Hna Hok].
    split; [done | ]. intros t' Ht'.
    destruct (Hok t' Ht') as (_ & _ & _ & _ & _ & _ & _ & _ & L1 & L2 & L3 & L4 & _).
    split; congruence.
  - intros q Hrun.
    apply (for_rangeM_from_inv_at
             (fun i p =>
                base p = base part /\ sound p = sound part /\ vsig_max p = vsig_max part
                /\ grad p = grad part
                /\ length (Wmin p) = length (Wmin part)
                /\ length (Wmax p) = length (Wmax part)
                /\ length (Wmidmin p) = length (Wmidmin part)
                /\ length (Wmidmax p) = length (Wmidmax part)
                /\ forall var, (var < nvar this)%nat -> (var < length (Wmin part))%nat ->
                     vget (Wmin p) var <= vget (Wmin part) var
                     /\ vget (Wmax part) var <= vget (Wmax p) var
                     /\ forall jj j neib,
                          (jj < i)%nat -> neiblist !! jj = Some j ->
                          neibpart !! j = Some neib ->
                          vget (Wmin p) var <= vget (Particle.Wprim (base neib)) var
                            <= vget (Wmax p) var)) in Hrun.
    + destruct Hrun as (I1 & I2 & I3 & I4 & _ & _ & _ & _ & IW). done.
    + intros i t t' _ (I1 & I2 & I3 & I4 & L1 & L2 & L3 & L4 & IW) Hstep.
      destruct (limits_neib_spec this neiblist neibpart i t) as [_ Hok];
        [congruence | congruence | ].
      destruct (Hok t' Hstep)
        as (j & neib & Hj & Hn & J1 & J2 & J3 & J4 & M1 & M2 & M3 & M4 & JW).
      split; [congruence | ]. split; [congruence | ]. split; [congruence | ].
      split; [congruence | ]. split; [congruence | ]. split; [congruence | ].
      split; [congruence | ]. split; [congruence | ].
      intros var Hvar Hlen. destruct (IW var Hvar Hlen) as (W1 & W2 & W3).
      destruct (JW var) as [Jmin Jmax].
      rewrite decide_True in Jmin by (split; [done | lia]).
      rewrite decide_True in Jmax by (split; [done | lia]).
      pose proof (min_le_l (vget (Wmin t) var) (vget (Particle.Wprim (base neib)) var)).
      pose proof (min_le_r (vget (Wmin t) var) (vget (Particle.Wprim (base neib)) var)).
      pose proof (max_ge_l (vget (Wmax t) var) (vget (Particle.Wprim (base neib)) var)).
      pose proof (max_ge_r (vget (Wmax t) var) (vget (Particle.Wprim (base neib)) var)).
      rewrite Jmin, Jmax. split; [lra | ]. split; [lra | ].
      intros jj j' neib' Hjj Hj' Hn'. destruct (decide (jj = i)) as [-> | Hne].
      * assert (j' = j) as -> by congruence. assert (neib' = neib) as -> by congruence.
        lra.
      * destruct (W3 jj j' neib') as [? ?]; [lia | done | done | ]. lra.
    + split; [done | ]. split; [done | ]. split; [done | ]. split; [done | ].
      split; [done | ]. split; [done | ]. split; [done | ]. split; [done | ].
      intros var _ _. split; [lra | ]. split; [lra | ]. intros jj j neib Hjj. lia.
Qed.

(** The first loop over the neighbours: the signal velocity it leaves. *)
Lemma gradient_loop this x neiblist neibpart Nneib part :
  for_rangeM Nneib (gradient_neib this x neiblist neibpart) part <> AssertFail
  /\ forall q,
       for_rangeM Nneib (gradient_neib this x neiblist neibpart) part = Ok q ->
       base q = base part /\ sound q = sound part
       /\ Wmin q = Wmin part /\ Wmax q = Wmax part
       /\ Wmidmin q = Wmidmin part /\ Wmidmax q = Wmidmax part
       /\ vsig_max part <= vsig_max q
       /\ forall jj j neib,
            (jj < Nneib)%nat -> neiblist !! jj = Some j -> neibpart !! j = Some neib ->
            sound part + sound neib <= vsig_max q.
Proof.
  split.
  - apply (for_rangeM_from_no_assert (fun _ => True)); [ | done].
    intros i t _. split; [ | done]. unfold gradient_neib. intros H.
    apply bind_AssertFail in H as [H | (j & _ & H)].
    { unfold read in H. destruct (neiblist !! i); done. }
    apply bind_AssertFail in H as [H | (neib & _ & H)]; [ | done].
    unfold read in H. destruct (neibpart !! j); done.
  - intros q Hrun.
    apply (for_rangeM_from_inv_at
             (fun i p =>
                base p = base part /\ sound p = sound part
                /\ Wmin p = Wmin part /\ Wmax p = Wmax part
                /\ Wmidmin p = Wmidmin part /\ Wmidmax p = Wmidmax part
                /\ vsig_max part <= vsig_max p
                /\ forall jj j neib,
                     (jj < i)%nat -> neiblist !! jj = Some j -> neibpart !! j = Some neib ->
                     sound part + sound neib <= vsig_max p)) in Hrun.
    + exact Hrun.
    + intros i t t' _ (I1 & I2 & I3 & I4 & I5 & I6 & I7 & I8) Hstep.
      apply gradient_neib_Ok in Hstep
        as (j & neib & Hj & Hn & J1 & J2 & J3 & J4 & J5 & J6 & J7 & J8).
      split; [congruence | ]. split; [congruence | ]. split; [congruence | ].
      split; [congruence | ]. split; [congruence | ]. split; [congruence | ].
      split; [lra | ].
      intros jj j' neib' Hjj Hj' Hn'. destruct (decide (jj = i)) as [-> | Hne].
      * assert (j' = j) as -> by congruence. assert (neib' = neib) as -> by congruence.
        rewrite <- I2. exact J8.
      * pose proof (I8 jj j' neib' ltac:(lia) Hj' Hn'). lra.
    + split; [done | ]. split; [done | ]. split; [done | ]. split; [done | ].
      split; [done | ]. split; [done | ]. split; [lra | ]. intros jj j neib Hjj. lia.
Qed.

(** The routine, cut at its two loops. *)
Lemma ComputeGradients_stages this big i Nneib neiblist part neibpart :
  ComputeGradients this big i Nneib neiblist part neibpart
  = (p1 ← for_rangeM Nneib
            (gradient_neib this (Particle.invh (base part) * Particle.invh (base part))
               neiblist neibpart)
            (ComputeGradients_init this big part);
     p2 ← for_rangeM Nneib (limits_neib this neiblist neibpart)
            (set_vreg
               (for_range (ndim this)
                  (fun k a => vset k (vget a k * (Particle.invh (base p1) * sound p1)) a)
                  (vreg p1))
               p1);
     _ ← assert (Qleb (sound p2) (vsig_max p2));
     Ok p2).
Proof. reflexivity. Qed.

(** What the routine has established when it is about to test its last
    assertion. *)
Lemma ComputeGradients_facts this big Nneib neiblist part neibpart p1 p2 :
  length (Wmin part) = length (Wmax part) ->
  length (Wmidmin part) = length (Wmidmax part) ->
  for_rangeM Nneib
    (gradient_neib this (Particle.invh (base part) * Particle.invh (base part))
       neiblist neibpart)
    (ComputeGradients_init this big part) = Ok p1 ->
  for_rangeM Nneib (limits_neib this neiblist neibpart)
    (set_vreg
       (for_range (ndim this)
          (fun k a => vset k (vget a k * (Particle.invh (base p1) * sound p1)) a)
          (vreg p1))
       p1) = Ok p2 ->
  base p2 = base part /\ sound p2 = sound part
  /\ 0 <= vsig_max p2
  /\ (forall jj j neib,
        (jj < Nneib)%nat -> neiblist !! jj = Some j -> neibpart !! j = Some neib ->
        sound part + sound neib <= vsig_max p2)
  /\ forall var, (var < nvar this)%nat -> (var < length (Wmin part))%nat ->
       vget (Wmin p2) var <= vget (Particle.Wprim (base part)) var
         <= vget (Wmax p2) var
       /\ forall jj j neib,
            (jj < Nneib)%nat -> neiblist !! jj = Some j -> neibpart !! j = Some neib ->
            vget (Wmin p2) var <= vget (Particle.Wprim (base neib)) var
              <= vget (Wmax p2) var.
Proof.
  intros Hl1 Hl2 E1.
  destruct (ComputeGradients_init_spec this big part)
    as (B0 & S0 & V0 & _ & L1 & L2 & L3 & L4 & W0).
  destruct (gradient_loop this (Particle.invh (base part) * Particle.invh (base part))
              neiblist neibpart Nneib (ComputeGradients_init this big part)) as [_ Hok1].
  destruct (Hok1 p1 E1) as (B1 & S1 & M1 & M2 & M3 & M4 & V1 & N1).
  set (p1' := set_vreg _ p1).
  assert (F : base p1' = base p1 /\ sound p1' = sound p1 /\ vsig_max p1' = vsig_max p1
              /\ Wmin p1' = Wmin p1 /\ Wmax p1' = Wmax p1
              /\ Wmidmin p1' = Wmidmin p1 /\ Wmidmax p1' = Wmidmax p1) by done.
  destruct F as (B1' & S1' & V1' & M1' & M2' & M3' & M4'). clearbody p1'.
  intros E2.
  destruct (limits_loop this neiblist neibpart Nneib p1') as [_ Hok2];
    [congruence | congruence | ].
  destruct (Hok2 p2 E2) as (B2 & S2 & V2 & _ & W2).
  split; [congruence | ]. split; [congruence | ].
  split; [rewrite V2, V1'; rewrite V0 in V1; exact V1 | ].
  split.
  - intros jj j neib Hjj Hj Hn. rewrite V2, V1', <- S0. by eapply N1.
  - intros var Hvar Hlen.
    destruct (W2 var Hvar) as (X1 & X2 & X3); [congruence | ].
    destruct (W0 var Hvar) as [Y1 Y2].
    rewrite M1', M1, Y1 in X1 by done. rewrite M2', M2, Y2 in X2 by lia.
    split; [ | exact X3]. lra.
Qed.

(** X18.  When [ComputeGradients] returns, the extrema it leaves for the
    slope limiters bracket the data: for every primitive variable,
    [Wmin <= W <= Wmax] holds for the particle's own state and for the state
    of every neighbour in the list.  The signal velocity it leaves is at
    least the particle's sound speed, and the members of [Particle.t] are
    not changed.  (The arrays of extrema have one entry per variable.) *)
Theorem ComputeGradients_extrema_bracket this big i Nneib neiblist part neibpart q :
  length (Wmin part) = length (Wmax part) ->
  length (Wmidmin part) = length (Wmidmax part) ->
  ComputeGradients this big i Nneib neiblist part neibpart = Ok q ->
  base q = base part /\ sound q = sound part /\ sound q <= vsig_max q
  /\ forall var, (var < nvar this)%nat -> (var < length (Wmin part))%nat ->
       vget (Wmin q) var <= vget (Particle.Wprim (base part)) var <= vget (Wmax q) var
       /\ forall jj j neib,
            (jj < Nneib)%nat -> neiblist !! jj = Some j -> neibpart !! j = Some neib ->
            vget (Wmin q) var <= vget (Particle.Wprim (base neib)) var
              <= vget (Wmax q) var.
Proof.
  intros Hl1 Hl2. rewrite ComputeGradients_stages. intros H.
  apply bind_Ok in H as (p1 & E1 & H). apply bind_Ok in H as (p2 & E2 & H).
  apply bind_Ok in H as (u & Ha & H). injection H as <-.
  apply assert_Ok, Qleb_le in Ha.
  destruct (ComputeGradients_facts this big Nneib neiblist part neibpart p1 p2 Hl1 Hl2
              E1 E2) as (F1 & F2 & _ & _ & F5).
  done.
Qed.

(** X18, witness: the density of the particle at 0 lies between the
    extrema found over its neighbours at 1 and -1. *)
Lemma ComputeGradients_extrema_bracket_witness :
  exists q,
    ComputeGradients (Examples.mfv 1 0 1 1 0) 1000 0 2 [0; 1]%nat
      (GradExamples.fv GradExamples.centre_psi) GradExamples.sides = Ok q
    /\ vget (Wmin q) 1 <= 1 <= vget (Wmax q) 1.
Proof.
  eexists. split; [vm_compute; reflexivity | ].
  destruct (ComputeGradients_extrema_bracket (Examples.mfv 1 0 1 1 0) 1000 0 2
              [0; 1]%nat (GradExamples.fv GradExamples.centre_psi) GradExamples.sides _
              ltac:(reflexivity) ltac:(reflexivity) ltac:(vm_compute; reflexivity))
    as (_ & _ & _ & H).
  destruct (H 1%nat) as [Hb _]; [cbn; lia | cbn; lia | ]. exact Hb.
Defined.

(** X19.  [ComputeGradients] on a particle without neighbours.  Both loops
    are skipped, the signal velocity stays at 0 and the last assertion,
    [vsig_max >= sound], decides: the routine stops on it exactly when the
    sound speed of the particle is positive.  Otherwise it returns the
    particle with [vsig_max = 0] and its own state as both extrema of every
    variable, its other state unchanged. *)
Theorem ComputeGradients_without_neighbours this big i neiblist part neibpart :
  (ComputeGradients this big i 0 neiblist part neibpart = AssertFail <-> 0 < sound part)
  /\ (sound part <= 0 ->
      exists q,
        ComputeGradients this big i 0 neiblist part neibpart = Ok q
        /\ base q = base part /\ sound q = sound part /\ vsig_max q = 0
        /\ forall var, (var < nvar this)%nat ->
             ((var < length (Wmin part))%nat ->
              vget (Wmin q) var = vget (Particle.Wprim (base part)) var)
             /\ ((var < length (Wmax part))%nat ->
                 vget (Wmax q) var = vget (Particle.Wprim (base part)) var)).
Proof.
  rewrite ComputeGradients_stages.
  destruct (ComputeGradients_init_spec this big part)
    as (B0 & S0 & V0 & _ & _ & _ & _ & _ & W0).
  revert B0 S0 V0 W0. generalize (ComputeGradients_init this big part) as p0.
  intros p0 B0 S0 V0 W0. cbn. rewrite S0, V0.
  destruct (Qleb (sound part) 0) eqn:E; cbn.
  - apply Qleb_le in E. split.
    + split; [discriminate | lra].
    + intros _. eexists. split; [reflexivity | ]. cbn. done.
  - apply not_true_iff_false in E. rewrite Qleb_le in E. split.
    + split; [lra | done].
    + lra.
Qed.

(** X19, witness: with no neighbour and a sound speed of 1 the routine
    stops on its last assertion. *)
Lemma ComputeGradients_without_neighbours_witness :
  ComputeGradients (Examples.mfv 1 0 1 1 0) 1000 0 0 []
    (GradExamples.fv GradExamples.centre) [] = AssertFail.
Proof.
  apply (proj1 (ComputeGradients_without_neighbours (Examples.mfv 1 0 1 1 0) 1000 0 []
                  (GradExamples.fv GradExamples.centre) [])).
  cbn. lra.
Defined.

End Gradients.

(** ** [ComputePsiFactors] then [ComputeGradients]: linear fields *)

Section LinearExactness.

Import Psi PsiSpec Grad GradSpec.

Lemma vinit_get n (f : nat -> Q) k : (k < n)%nat -> vget (Mfv.vinit n f) k = f k.
Proof.
  intros Hk. unfold vget, Mfv.vinit. rewrite list_lookup_fmap.
  rewrite lookup_seq_lt by done. reflexivity.
Qed.

(** Two loops over the same range, step by step. *)
Lemma for_rangeM_from_rel {S T : Type} (R : S -> T -> Prop)
    (body1 : nat -> S -> result S) (body2 : nat -> T -> result T)
    (n start : nat) (s s' : S) (t t' : T) :
  (forall i u v u' v', (start <= i < start + n)%nat -> R u v ->
     body1 i u = Ok u' -> body2 i v = Ok v' -> R u' v') ->
  R s t ->
  for_rangeM_from start n body1 s = Ok s' ->
  for_rangeM_from start n body2 t = Ok t' ->
  R s' t'.
Proof.
  revert start s t. induction n as [|n IH]; intros start s t Hstep HR H1 H2.
  - cbn in H1, H2. injection H1 as <-. injection H2 as <-. done.
  - cbn in H1, H2.
    apply bind_Ok in H1 as (u & Hu & H1). apply bind_Ok in H2 as (v & Hv & H2).
    eapply (IH (Datatypes.S start) u v); [ | | exact H1 | exact H2].
    + intros i a b a' b' Hi. apply Hstep. lia.
    + eapply Hstep; [ | exact HR | exact Hu | exact Hv]. lia.
Qed.

(** A loop that accumulates into one entry of a vector. *)
Lemma acc_loop (f : nat -> Q) k n' (ps : list Q) :
  (k < length ps)%nat ->
  let ps' := for_range n' (fun kk ps => vset k (vget ps k + f kk) ps) ps in
  length ps' = length ps
  /\ vget ps' k = for_range n' (fun kk acc => acc + f kk) (vget ps k)
  /\ forall k', k' <> k -> vget ps' k' = vget ps k'.
Proof.
  intros Hk. cbv zeta. induction n' as [|n' (IHl & IHk & IHo)].
  - by cbn.
  - rewrite !for_range_S, length_vset. split; [done | ]. split.
    + rewrite vget_vset_eq by lia. by rewrite IHk.
    + intros k' Hne. rewrite vget_vset_ne by done. by apply IHo.
Qed.

Lemma psitilda_get this part draux drsqd x k :
  (k < ndim this)%nat ->
  vget (psitilda this part draux drsqd x) k
  = for_range (ndim this)
      (fun kk acc =>
         acc + mget (Particle.B (base part)) k kk * vget draux kk
               * Particle.hfactor (base part) * w0_s2 (kern this) (drsqd * x)
               / Particle.ndens (base part))
      0.
Proof.
  intros Hk. unfold psitilda. cbv zeta.
  set (f := fun k kk =>
              mget (Particle.B (base part)) k kk * vget draux kk
              * Particle.hfactor (base part) * w0_s2 (kern this) (drsqd * x)
              / Particle.ndens (base part)).
  set (ps0 := for_range (ndim this) (fun k a => vset k 0 a) (replicate (ndim this) 0)).
  assert (H0 : length ps0 = ndim this /\ forall k', (k' < ndim this)%nat -> vget ps0 k' = 0).
  { unfold ps0. rewrite zero_loop_length, length_replicate. split; [done | ].
    intros k' Hk'. apply zero_loop_get; [done | by rewrite length_replicate]. }
  destruct H0 as [L0 Z0]. clearbody ps0.
  assert (H : forall n', (n' <= ndim this)%nat ->
            let ps := for_range n'
                        (fun k ps =>
                           for_range (ndim this)
                             (fun kk ps => vset k (vget ps k + f k kk) ps) ps) ps0 in
            length ps = ndim this
            /\ forall k', (k' < ndim this)%nat ->
                 vget ps k'
                 = if decide (k' < n')%nat
                   then for_range (ndim this) (fun kk acc => acc + f k' kk) 0
                   else 0).
  { induction n' as [|n' IH]; intros Hn'; cbv zeta.
    - cbn. split; [done | ]. intros k' Hk'. rewrite decide_False by lia. by apply Z0.
    - rewrite for_range_S. destruct IH as [IHl IHg]; [lia | ].
      destruct (acc_loop (f n') n' (ndim this)
                  (for_range n'
                     (fun k ps =>
                        for_range (ndim this)
                          (fun kk ps => vset k (vget ps k + f k kk) ps) ps) ps0))
        as (Al & Ak & Ao); [lia | ].
      split; [lia | ]. intros k' Hk'. destruct (decide (k' = n')) as [-> | Hne].
      + rewrite Ak, IHg by lia. rewrite decide_False by lia. by rewrite decide_True by lia.
      + rewrite Ao, IHg by done.
        destruct (decide (k' < n')%nat).
        * by rewrite decide_True by lia.
        * by rewrite decide_False by lia. }
  destruct (H (ndim this)) as [_ Hg]; [lia | ].
  rewrite Hg by done. by rewrite decide_True by done.
Qed.

(** The matrix the first loop of [ComputeGradients] leaves in [grad]. *)
Lemma gradient_neib_grad this x neiblist neibpart jj part part' :
  array2 (nvar this) (ndim this) (grad part) ->
  gradient_neib this x neiblist neibpart jj part = Ok part' ->
  exists j neib,
    neiblist !! jj = Some j /\ neibpart !! j = Some neib
    /\ base part' = base part
    /\ array2 (nvar this) (ndim this) (grad part')
    /\ forall var k, (var < nvar this)%nat -> (k < ndim this)%nat ->
         let draux :=
           Mfv.vinit (ndim this)
             (fun k => vget (Particle.r (base neib)) k - vget (Particle.r (base part)) k) in
         mget (grad part') var k
         = mget (grad part) var k
           + (vget (Particle.Wprim (base neib)) var
              - vget (Particle.Wprim (base part)) var)
             * vget (psitilda this part draux
                       (DotProduct draux draux (ndim this)) x) k.
Proof.
  intros Hg. unfold gradient_neib. intros H.
  apply bind_Ok in H as (j & Hj & H). apply read_Ok in Hj.
  apply bind_Ok in H as (neib & Hn & H). apply read_Ok in Hn.
  cbv zeta in H. injection H as <-. exists j, neib.
  cbn [base grad set_vreg set_vsig_max set_grad].
  split; [done | ]. split; [done | ]. split; [done | ].
  set (draux := Mfv.vinit (ndim this) _).
  set (ps := psitilda this part draux _ x).
  destruct (nest_loop (nvar this) (ndim this)
              (fun var k e =>
                 e + (vget (Particle.Wprim (base neib)) var
                      - vget (Particle.Wprim (base part)) var) * vget ps k)
              (grad part) (nvar this) Hg) as [Hs Hget]; [done | ].
  split; [exact Hs | ].
  intros var k Hvar Hk. cbv zeta. rewrite Hget by done. by rewrite decide_True by done.
Qed.

Lemma add_moments_get this x part neib E k kk :
  array2 (ndim this) (ndim this) E -> (k < ndim this)%nat -> (kk < ndim this)%nat ->
  let draux :=
    Mfv.vinit (ndim this)
      (fun k => vget (Particle.r neib) k - vget (Particle.r part) k) in
  mget (add_moments this x part neib E) k kk
  = mget E k kk
    + vget draux k * vget draux kk * Particle.hfactor part
      * w0_s2 (kern this) (DotProduct draux draux (ndim this) * x) / Particle.ndens part.
Proof.
  intros HE Hk Hkk. cbv zeta. unfold add_moments. cbv zeta.
  set (draux := Mfv.vinit (ndim this) _).
  destruct (nest_loop (ndim this) (ndim this)
              (fun k kk e =>
                 e + vget draux k * vget draux kk * Particle.hfactor part
                     * w0_s2 (kern this) (DotProduct draux draux (ndim this) * x)
                     / Particle.ndens part)
              E (ndim this) HE) as [_ Hget]; [done | ].
  rewrite Hget by done. by rewrite decide_True by done.
Qed.

Lemma limits_neib_grad this neiblist neibpart jj part part' :
  limits_neib this neiblist neibpart jj part = Ok part' -> grad part' = grad part.
Proof.
  unfold limits_neib. intros H.
  apply bind_Ok in H as (j & _ & H). apply bind_Ok in H as (neib & _ & H).
  cbv zeta in H.
  apply (for_rangeM_inv (fun p => grad p = grad part)) in H; [done | | done].
  intros var t t' _ Ht Hstep.
  apply bind_Ok in Hstep as (u1 & _ & Hstep). apply bind_Ok in Hstep as (u2 & _ & Hstep).
  injection Hstep as <-. exact Ht.
Qed.

Lemma contracted_zero n (B E : list vec) (g : vec) k :
  (1 <= n <= 3)%nat ->
  (forall kk l, (kk < n)%nat -> (l < n)%nat -> mget E kk l = 0) ->
  contracted n B E g k == 0.
Proof.
  intros Hn HE. assert (Hc : (n = 1 \/ n = 2 \/ n = 3)%nat) by lia.
  destruct Hc as [-> | [-> | ->]]; unfold contracted, for_range; cbn [seq fold_left];
    rewrite !HE by lia; ring.
Qed.

Lemma contracted_step n (B E E' : list vec) (g draux : vec) k (hf w nd G dW : Q) :
  (1 <= n <= 3)%nat ->
  (forall kk l, (kk < n)%nat -> (l < n)%nat ->
     mget E' kk l = mget E kk l + vget draux kk * vget draux l * hf * w / nd) ->
  G == contracted n B E g k ->
  dW == DotProduct g draux n ->
  G + dW * for_range n (fun kk acc => acc + mget B k kk * vget draux kk * hf * w / nd) 0
  == contracted n B E' g k.
Proof.
  intros Hn HE HG HdW. assert (Hc : (n = 1 \/ n = 2 \/ n = 3)%nat) by lia.
  rewrite HG, HdW.
  destruct Hc as [-> | [-> | ->]]; unfold contracted, DotProduct, for_range;
    cbn [seq fold_left Nat.eqb]; rewrite !HE by lia; unfold Qdiv; ring.
Qed.

Lemma contracted_identity n (B E : list vec) (g : vec) k :
  (1 <= n <= 3)%nat -> (k < n)%nat ->
  (forall l, (l < n)%nat -> product n B E k l == identity k l) ->
  contracted n B E g k == vget g k.
Proof.
  intros Hn Hk HP. assert (Hc : (n = 1 \/ n = 2 \/ n = 3)%nat) by lia.
  destruct Hc as [-> | [-> | ->]].
  - pose proof (HP 0%nat ltac:(lia)) as P0.
    apply Qeq_trans with (y := product 1 B E k 0 * vget g 0).
    + unfold contracted, product, for_range. cbn [seq fold_left]. ring.
    + rewrite P0. unfold identity.
      destruct k as [|k]; [ | lia]; cbn [Nat.eqb]; ring.
  - pose proof (HP 0%nat ltac:(lia)) as P0. pose proof (HP 1%nat ltac:(lia)) as P1.
    apply Qeq_trans with (y := product 2 B E k 0 * vget g 0 + product 2 B E k 1 * vget g 1).
    + unfold contracted, product, for_range. cbn [seq fold_left]. ring.
    + rewrite P0, P1. unfold identity.
      destruct k as [|[|k]]; [ | | lia]; cbn [Nat.eqb]; ring.
  - pose proof (HP 0%nat ltac:(lia)) as P0. pose proof (HP 1%nat ltac:(lia)) as P1.
    pose proof (HP 2%nat ltac:(lia)) as P2.
    apply Qeq_trans with (y := product 3 B E k 0 * vget g 0 + product 3 B E k 1 * vget g 1
                               + product 3 B E k 2 * vget g 2).
    + unfold contracted, product, for_range. cbn [seq fold_left]. ring.
    + rewrite P0, P1, P2. unfold identity.
      destruct k as [|[|[|k]]]; [ | | | lia]; cbn [Nat.eqb]; ring.
Qed.

(** X20.  First-order consistency.  Let [ComputePsiFactors] have stored
    its matrix in the particle (the determinant it inverted not being zero),
    and let [ComputeGradients] then run on the same neighbours.  If a
    primitive variable is linear over them, that is, if its value at every
    listed neighbour differs from its value at the particle by a fixed slope
    [g] applied to the separation, then the gradient stored for that
    variable is [g], exactly, in one, two and three dimensions. *)
Theorem ComputeGradients_exact_for_linear_fields this big i Nneib neiblist p part
    neibpart E pz q var g :
  (1 <= ndim this <= 3)%nat ->
  array2 (ndim this) (ndim this) (Particle.B p) ->
  array2 (nvar this) (ndim this) (grad part) ->
  (var < nvar this)%nat ->
  ComputePsiFactors this i Nneib neiblist p (base <$> neibpart) = Ok (base part) ->
  neighbour_moments this Nneib neiblist p (base <$> neibpart) = Ok (E, pz) ->
  ~ det (ndim this) E == 0 ->
  (forall jj j neib,
     (jj < Nneib)%nat -> neiblist !! jj = Some j -> neibpart !! j = Some neib ->
     linear_in this var g part neib) ->
  ComputeGradients this big i Nneib neiblist part neibpart = Ok q ->
  forall k, (k < ndim this)%nat -> mget (grad q) var k == vget g k.
Proof.
  intros Hn HBp Hg Hvar Hpsi Hmom Hdet Hlin Hrun k Hk.
  (* the matrix in the particle is the inverse of [E] *)
  unfold ComputePsiFactors in Hpsi.
  apply bind_Ok in Hpsi as ([E' pz'] & Hmom' & Hpsi).
  rewrite Hmom in Hmom'. injection Hmom' as <- <-. injection Hpsi as Hbase.
  destruct (neighbour_moments_Ok _ _ _ _ _ _ _ HBp Hmom) as (HE & HBz & Hpz).
  assert (HP : forall l, (l < ndim this)%nat ->
                 product (ndim this) (Particle.B (base part)) E k l == identity k l).
  { intros l Hl. rewrite <- Hbase, set_B_B. by apply invert_product. }
  assert (Fr : Particle.r (base part) = Particle.r pz) by (by rewrite <- Hbase).
  assert (Fh : Particle.hfactor (base part) = Particle.hfactor pz) by (by rewrite <- Hbase).
  assert (Fn : Particle.ndens (base part) = Particle.ndens pz) by (by rewrite <- Hbase).
  assert (Fi : Particle.invh (base part) = Particle.invh p).
  { rewrite <- Hbase, Hpz. reflexivity. }
  clear Hbase Hpz HBz.
  (* the loop that accumulated [E] *)
  revert Hmom. unfold neighbour_moments. cbv zeta. rewrite zero_matrices_split.
  intros Hmom. apply bind_Ok in Hmom as (E1 & HloopE & Hmom).
  injection Hmom as -> Hpz. rewrite Hpz in HloopE.
  (* the loops of [ComputeGradients] *)
  rewrite ComputeGradients_stages in Hrun.
  apply bind_Ok in Hrun as (p1 & Hloop1 & Hrun).
  apply bind_Ok in Hrun as (p2 & Hloop2 & Hrun).
  apply bind_Ok in Hrun as (u & _ & Hrun). injection Hrun as <-.
  assert (Hgrad : grad p2 = grad p1).
  { apply (for_rangeM_inv (fun t => grad t = grad p1)) in Hloop2; [done | | done].
    intros jj t t' _ Ht Hstep. apply limits_neib_grad in Hstep. congruence. }
  rewrite Hgrad. clear Hloop2 Hgrad.
  rewrite Fi in Hloop1.
  assert (HR : array2 (ndim this) (ndim this) E
               /\ array2 (nvar this) (ndim this) (grad p1)
               /\ base p1 = base part
               /\ mget (grad p1) var k
                   == contracted (ndim this) (Particle.B (base part)) E g k).
  { refine (for_rangeM_from_rel
              (fun Ei pi =>
                 array2 (ndim this) (ndim this) Ei
                 /\ array2 (nvar this) (ndim this) (grad pi)
                 /\ base pi = base part
                 /\ mget (grad pi) var k
                     == contracted (ndim this) (Particle.B (base part)) Ei g k)
              _ _ Nneib 0 _ E _ p1 _ _ HloopE Hloop1).
    - intros jj Ei pi Ei' pi' Hjj (R1 & R2 & R3 & R4) HstepE HstepG.
      apply bind_Ok in HstepE as (j & Hj & HstepE). apply read_Ok in Hj.
      apply bind_Ok in HstepE as (nb & Hnb & HstepE). apply read_Ok in Hnb.
      injection HstepE as <-.
      apply gradient_neib_grad in HstepG as (j' & neib & Hj' & Hneib & G1 & G2 & G3);
        [ | done].
      assert (j' = j) as -> by congruence.
      rewrite list_lookup_fmap, Hneib in Hnb. injection Hnb as <-.
      split; [by apply add_moments_array2 | ]. split; [done | ].
      split; [congruence | ].
      rewrite (G3 var k Hvar Hk). cbv zeta. rewrite psitilda_get by done.
      rewrite R3, Fr, Fh, Fn.
      apply contracted_step with (E := Ei); [done | | done | ].
      + intros kk l Hkk Hl. by rewrite add_moments_get.
      + rewrite <- Fr. apply (Hlin jj j neib); [lia | done | done].
    - destruct (nest_loop (ndim this) (ndim this) (fun _ _ _ => 0)
                  (replicate (ndim this) (replicate (ndim this) 0)) (ndim this))
        as [HE0 HZ0]; [apply array2_replicate | done | ].
      destruct (ComputeGradients_init_spec this big part) as (B0 & _ & _ & G0 & _).
      destruct (nest_loop_T (nvar this) (ndim this) (fun _ _ _ => 0) (grad part)
                  (ndim this) Hg) as [HG0 HGZ]; [done | ].
      rewrite <- G0 in HG0, HGZ.
      split; [done | ]. split; [done | ]. split; [done | ].
      rewrite HGZ by done. rewrite decide_True by done.
      rewrite contracted_zero; [reflexivity | done | ].
      intros kk l Hkk Hl. rewrite HZ0 by done. by rewrite decide_True by done. }
  destruct HR as (_ & _ & _ & HR). rewrite HR.
  by apply contracted_identity.
Qed.

(** X20, witness: on the line, a density that grows by 2 per unit length,
    sampled at 1 and -1 around the particle at 0. *)
Lemma ComputeGradients_exact_for_linear_fields_witness :
  exists q,
    ComputeGradients (Examples.mfv 1 0 1 1 0) 1000 0 2 [0; 1]%nat
      (GradExamples.fv GradExamples.centre_psi) GradExamples.sides = Ok q
    /\ mget (grad q) 1 0 == 2.
Proof.
  eexists. split; [vm_compute; reflexivity | ].
  destruct (neighbour_moments (Examples.mfv 1 0 1 1 0) 2 [0; 1]%nat GradExamples.centre
              (base <$> GradExamples.sides)) as [[E pz]| | | | | |] eqn:Hmom;
    try (vm_compute in Hmom; discriminate).
  apply (ComputeGradients_exact_for_linear_fields (Examples.mfv 1 0 1 1 0) 1000 0 2
           [0; 1]%nat GradExamples.centre (GradExamples.fv GradExamples.centre_psi)
           GradExamples.sides E pz _ 1%nat [2]).
  - cbn. lia.
  - repeat constructor.
  - repeat constructor.
  - cbn. lia.
  - vm_compute. reflexivity.
  - exact Hmom.
  - vm_compute in Hmom. injection Hmom as <- _. intros H. vm_compute in H. discriminate.
  - intros jj j neib Hjj Hj Hneib. unfold linear_in.
    destruct jj as [|[|jj]]; [ | | lia]; injection Hj as <-; injection Hneib as <-;
      vm_compute; reflexivity.
  - vm_compute. reflexivity.
  - cbn. lia.
Defined.

End LinearExactness.
